(** * AAF: named sets of integer segments behind a small command language

    Shallow embedding of the two programs of the repository,

      - [aaf-lab.py]       (module [Lab]):  the store plus a binary search
                                            tree keyed on the lower bound;
      - [aaf-lab-var2.py]  (module [Var2]): the store plus a bounding-box
                                            tree rebuilt on every insertion;

    together with the lexer and the command dispatcher, whose text is the
    same in both files.

    Conventions of the embedding.
      - A Python [int] is a [Z]; a segment [[l, h]] is a pair of [Z].
      - A Python [str] is a [string].  Command strings are ASCII: the
        classes [\w] and [\d] of [re], [str.upper] and [int] are modelled
        on the codes below 128, and a character above is in no class.
      - A raised exception is a value [Raise e] of the type [Result];
        [try ... except (ValueError, IndexError)] is [try_except].  An
        exception that nothing catches ends the program, so no state is
        kept with it.
      - A [dict] is a [gmap]; [print] appends lines to the [stdout] field
        of the machine state.
      - A mutable list is threaded explicitly: a function that mutates the
        list it is given returns the list as it is on exit.
      - The interpreter bounds the depth of nested calls and raises
        [RecursionError] beyond it.  For [_build_tree_recursive], whose
        depth is the logarithm of the length of a non-empty list, the
        bound is a fuel; for the two recursions of [aaf-lab.py] that go
        as deep as the search tree, [_insert_node] and [print_tree], it
        is the class [Stack].
      - The interpreter also bounds the number of digits of a decimal
        literal that [int] reads, and of an [int] that [str] prints:
        [max_str_digits], 4300.  [int] is modelled with the bound.  [str]
        is applied to the bounds stored in a set only, which [int] has
        read and which are within the bound ([py_int_within_limit]);
        [str_int] is [str] on these. *)

From Stdlib Require Import ZArith String Ascii DecimalString DecimalPos.
From stdpp Require Import base tactics option list sorting gmap strings.

Local Open Scope Z_scope.

(** ** Python values and exceptions *)

Inductive PyExc : Type :=
  | ValueError
  | IndexError
  | AttributeError
  | TypeError
  | RecursionError.

Inductive Result (A : Type) : Type :=
  | Ok (a : A)
  | Raise (e : PyExc).
Arguments Ok {A} a.
Arguments Raise {A} e.

#[global] Instance PyExc_eq_dec : EqDecision PyExc.
Proof. solve_decision. Defined.

#[global] Instance Result_ret : MRet Result := fun _ a => Ok a.

#[global] Instance Result_bind : MBind Result := fun _ _ f m =>
  match m with
  | Ok a => f a
  | Raise e => Raise e
  end.

(** [try: body except (ValueError, IndexError): handler] *)
Definition try_except {A : Type} (body : Result A) (handler : A) : Result A :=
  match body with
  | Ok a => Ok a
  | Raise ValueError | Raise IndexError => Ok handler
  | Raise e => Raise e
  end.

(** [xs[i]] on a list. *)
Definition py_index {A : Type} (xs : list A) (i : nat) : Result A :=
  match xs !! i with
  | Some x => Ok x
  | None => Raise IndexError
  end.

(** [min(...)] and [max(...)] over a generator; both raise [ValueError] on
    an empty one. *)
Definition py_min (xs : list Z) : Result Z :=
  match xs with
  | [] => Raise ValueError
  | x :: r => Ok (foldl Z.min x r)
  end.

Definition py_max (xs : list Z) : Result Z :=
  match xs with
  | [] => Raise ValueError
  | x :: r => Ok (foldl Z.max x r)
  end.

(** ** Characters and [str] methods *)

Definition code (c : ascii) : N := N_of_ascii c.

(** [\d] *)
Definition is_digit (c : ascii) : bool :=
  ((48 <=? code c) && (code c <=? 57))%N.

(** [\w]: letters, digits and the underscore. *)
Definition is_word (c : ascii) : bool :=
  is_digit c
  || ((65 <=? code c) && (code c <=? 90))%N
  || ((97 <=? code c) && (code c <=? 122))%N
  || (code c =? 95)%N.

(** The white space that [str.strip] and [int] skip. *)
Definition is_space (c : ascii) : bool :=
  ((9 <=? code c) && (code c <=? 13))%N
  || ((28 <=? code c) && (code c <=? 32))%N.

(** [str.upper] *)
Definition upper_char (c : ascii) : ascii :=
  if ((97 <=? code c) && (code c <=? 122))%N
  then ascii_of_N (code c - 32) else c.

Fixpoint upper (s : string) : string :=
  match s with
  | EmptyString => EmptyString
  | String c r => String (upper_char c) (upper r)
  end.

(** [str.strip] *)
Fixpoint lstrip (s : string) : string :=
  match s with
  | EmptyString => EmptyString
  | String c r => if is_space c then lstrip r else s
  end.

Definition strip (s : string) : string :=
  String.rev (lstrip (String.rev (lstrip s))).

(** ** [int(s)] on a string

    White space around the literal is skipped, one sign is allowed, and
    the digits may be grouped by single underscores; anything else is a
    [ValueError].  So is a literal of more than [max_str_digits] digits,
    leading zeros counted, underscores not:
    [sys.get_int_max_str_digits()] is 4300 and the programs leave it. *)
Definition max_str_digits : Z := 4300.

Fixpoint count_digits (s : string) : Z :=
  match s with
  | EmptyString => 0
  | String c r => (if is_digit c then 1 else 0) + count_digits r
  end.

Inductive IntState : Type := AtStart | AfterDigit | AfterUnderscore.

Definition digit_value (c : ascii) : option Z :=
  if is_digit c then Some (Z.of_N (code c) - 48) else None.

Fixpoint int_digits (st : IntState) (acc : Z) (s : string) : option Z :=
  match s with
  | EmptyString =>
      match st with
      | AfterDigit => Some acc
      | _ => None
      end
  | String c r =>
      match digit_value c with
      | Some d => int_digits AfterDigit (10 * acc + d) r
      | None =>
          if decide (c = "_"%char) then
            match st with
            | AfterDigit => int_digits AfterUnderscore acc r
            | _ => None
            end
          else None
      end
  end.

Definition py_int (s : string) : Result Z :=
  let s := strip s in
  let '(negative, body) :=
    match s with
    | String "-" r => (true, r)
    | String "+" r => (false, r)
    | _ => (false, s)
    end in
  match int_digits AtStart 0 body with
  | Some n =>
      if max_str_digits <? count_digits body then Raise ValueError
      else Ok (if negative then - n else n)
  | None => Raise ValueError
  end.

(** ** Segments *)

(** The two-element list [[l, h]]. *)
Definition Segment : Type := Z * Z.

Definition seg_l (s : Segment) : Z := fst s.
Definition seg_h (s : Segment) : Z := snd s.

(** ** [str] of the values that reach a result string or [print] *)

(** [str(n)] for an [int] of at most [max_str_digits] digits: the decimal
    numeral, with a minus sign when [n] is negative.  (Beyond that bound
    [str] raises [ValueError]; no command stores such a bound.) *)
Definition str_int (n : Z) : string := NilZero.string_of_int (Z.to_int n).

(** [str(seg)] for [[l, h]]. *)
Definition str_segment (seg : Segment) : string :=
  "[" +:+ str_int (seg_l seg) +:+ ", " +:+ str_int (seg_h seg) +:+ "]".

(** [", ".join(parts)] *)
Fixpoint str_join (parts : list string) : string :=
  match parts with
  | [] => ""
  | [p] => p
  | p :: rest => p +:+ ", " +:+ str_join rest
  end.

(** [str(results)] for a list of segments. *)
Definition str_segments (results : list Segment) : string :=
  "[" +:+ str_join (str_segment <$> results) +:+ "]".

(** [str(b)] for a [bool]. *)
Definition str_bool (b : bool) : string := if b then "True" else "False".

(** [s * n] *)
Fixpoint str_repeat (s : string) (n : nat) : string :=
  match n with
  | O => ""
  | S n' => s +:+ str_repeat s n'
  end.

(** ** The arguments of [RTree.search]

    [query_type] is [None] or a string; [params] is [None], a list
    [[l, h]] or an [int]. *)
Inductive Params : Type :=
  | PNone
  | PList (xs : list Z)
  | PInt (x : Z).

(** [L, H = params] *)
Definition unpack2 (params : Params) : Result (Z * Z) :=
  match params with
  | PList [L; H] => Ok (L, H)
  | PList _ => Raise ValueError
  | PNone | PInt _ => Raise TypeError
  end.

(** The three list comprehensions of [RTree.search]; the text is the same
    in both files.  In the last one [seg[1] <= x] is evaluated once per
    stored segment, and fails on the first one when [x] is not an [int]. *)
Definition search_contains (segments : list Segment) (params : Params)
    : Result (list Segment) :=
  '(L, H) ← unpack2 params;
  mret (List.filter (fun seg => (seg_l seg <=? L) && (H <=? seg_h seg)) segments).

Definition search_intersects (segments : list Segment) (params : Params)
    : Result (list Segment) :=
  '(L, H) ← unpack2 params;
  mret (List.filter (fun seg => negb ((seg_h seg <? L) || (H <? seg_l seg))) segments).

Definition search_left_of (segments : list Segment) (params : Params)
    : Result (list Segment) :=
  match params with
  | PInt x => Ok (List.filter (fun seg => seg_h seg <=? x) segments)
  | _ => match segments with
         | [] => Ok []
         | _ :: _ => Raise TypeError
         end
  end.

(** ** [list.sort(key=lambda x: x[0])]

    Python's sort is stable.  The sorted, stable rearrangement of a list is
    unique, so any stable sorting function computes what [list.sort]
    computes; the model is a straight insertion sort, and its three
    defining properties are [sort_by_lower_Sorted],
    [sort_by_lower_Permutation] and [sort_by_lower_stable] below. *)

Fixpoint insert_by_lower (x : Segment) (xs : list Segment) : list Segment :=
  match xs with
  | [] => [x]
  | y :: r =>
      if seg_l x <=? seg_l y then x :: y :: r
      else y :: insert_by_lower x r
  end.

Definition sort_by_lower (xs : list Segment) : list Segment :=
  foldr insert_by_lower [] xs.

(** ** [aaf-lab-var2.py]: the bounding-box tree *)

Module Var2.

(** [RTreeNode].  A leaf has [is_leaf = True], [segment] and [children]
    (the list it was built from); an internal node has [is_leaf = False]
    and the two-element [children] list of nodes.  Both carry [bbox].  The
    fields [left] and [right] stay [None] in this file and are left out. *)
Inductive RTreeNode : Type :=
  | Leaf (segment : Segment) (children : list Segment) (bbox : Segment)
  | Internal (child0 child1 : RTreeNode) (bbox : Segment).

Definition is_leaf (n : RTreeNode) : bool :=
  match n with
  | Leaf _ _ _ => true
  | Internal _ _ _ => false
  end.

Definition bbox (n : RTreeNode) : Segment :=
  match n with
  | Leaf _ _ b => b
  | Internal _ _ b => b
  end.

(** [RTreeNode.update_bbox], leaf branch and internal branch. *)
Definition update_bbox_leaf (children : list Segment) : Result Segment :=
  lo ← py_min (seg_l <$> children);
  hi ← py_max (seg_h <$> children);
  mret (lo, hi).

Definition update_bbox_internal (children : list RTreeNode) : Result Segment :=
  lo ← py_min ((seg_l ∘ bbox) <$> children);
  hi ← py_max ((seg_h ∘ bbox) <$> children);
  mret (lo, hi).

(** [RTree._build_tree_recursive].  The result carries the node and the
    argument list as the call leaves it: [segments.sort] works in place,
    while the two slices handed to the recursive calls are fresh lists, so
    what the recursive calls do to them is dropped. *)
Fixpoint _build_tree_recursive (fuel : nat) (segments : list Segment)
    : Result (RTreeNode * list Segment) :=
  match fuel with
  | O => Raise RecursionError
  | S fuel' =>
      match segments with
      | [segment0] =>
          b ← update_bbox_leaf segments;
          mret (Leaf segment0 segments b, segments)
      | _ =>
          let segments := sort_by_lower segments in
          let mid := (length segments `div` 2)%nat in
          let left_segments := take mid segments in
          let right_segments := drop mid segments in
          '(left_node, _) ← _build_tree_recursive fuel' left_segments;
          '(right_node, _) ← _build_tree_recursive fuel' right_segments;
          b ← update_bbox_internal [left_node; right_node];
          mret (Internal left_node right_node b, segments)
      end
  end.

(** [RTree]: [root] and [segments]. *)
Record RTree : Type := mkRTree {
  root : option RTreeNode;
  segments : list Segment
}.

Definition RTree_new : RTree := mkRTree None [].

(** [RTree.insert].  The list given to the builder is [self.segments]
    itself, so the store is what the builder leaves behind.  The depth of
    the recursion is at most the length of the list, which is the fuel
    given here (see [build_enough_fuel]). *)
Definition insert (segment : Segment) (self : RTree) : Result RTree :=
  let segments1 := segments self ++ [segment] in
  '(node, segments2) ← _build_tree_recursive (length segments1) segments1;
  mret (mkRTree (Some node) segments2).

(** [RTree.contains] *)
Fixpoint contains_scan (L H : Z) (segments : list Segment) : bool :=
  match segments with
  | [] => false
  | (l, h) :: rest =>
      if (l <=? L) && (H <=? h) then true else contains_scan L H rest
  end.

Definition contains (segment : Segment) (self : RTree) : bool :=
  let '(L, H) := segment in contains_scan L H (segments self).

(** [RTree.search] *)
Definition search (query_type : option string) (params : Params) (self : RTree)
    : Result (list Segment) :=
  match query_type with
  | None => Ok (segments self)
  | Some q =>
      if decide (q = "CONTAINS") then search_contains (segments self) params
      else if decide (q = "INTERSECTS") then search_intersects (segments self) params
      else if decide (q = "LEFT_OF") then search_left_of (segments self) params
      else Ok []
  end.

(** [RTree.print_tree]: the lines printed, first the recursion on a node
    that is there, then the entry point with its two [None] tests. *)
Fixpoint print_node (node : RTreeNode) (level : nat) (position : string)
    : list string :=
  let indent := str_repeat "  " level in
  match node with
  | Leaf _ _ b => [indent +:+ position +:+ ": " +:+ str_segment b]
  | Internal child0 child1 b =>
      [indent +:+ position +:+ ":  " +:+ str_segment b]
      ++ print_node child0 (S level) "Left Child"
      ++ print_node child1 (S level) "Right Child"
  end.

Definition print_tree (self : RTree) : Result (list string) :=
  match root self with
  | None => Ok ["Tree is empty"]
  | Some node => Ok (print_node node 0 "Root")
  end.

End Var2.

(** ** The call stack

    The interpreter raises [RecursionError] when a call would make the
    stack deeper than its limit, [sys.getrecursionlimit()], which is 1000
    unless a program changes it; the programs do not.  How much of it is
    left to a recursive method depends on the depth of its caller and, by
    a few frames, on the version of the interpreter.  So the room is a
    parameter.  A method that the dispatcher calls is taken to run; what
    is bounded is the recursion below it:
      - [insert_frames]: the number of calls of [_insert_node], one inside
        the other, that [RTree.insert] of [aaf-lab.py] has room for, the
        constructor call of the innermost included;
      - [print_frames]: the number of further calls of [print_tree], one
        inside the other, that the first call of [print_tree] of
        [aaf-lab.py] has room for, the calls of [str] and [print] of the
        innermost included.
    The theorems hold for every value of the two.  Examples are run with
    [sys_recursion_limit] for both, which is more than any caller leaves
    under the default limit. *)
Class Stack : Type := mkStack {
  insert_frames : nat;
  print_frames : nat
}.

Definition sys_recursion_limit : nat := 1000.

#[global] Instance default_Stack : Stack :=
  mkStack sys_recursion_limit sys_recursion_limit.

(** ** [aaf-lab.py]: the binary search tree *)

Module Lab.

(** [RTreeNode]: [segment], [left], [right]. *)
#[warnings="-register-all"] Inductive RTreeNode : Type :=
  | Node (segment : Segment) (left right : option RTreeNode).

Definition segment (n : RTreeNode) : Segment :=
  match n with Node s _ _ => s end.
Definition left (n : RTreeNode) : option RTreeNode :=
  match n with Node _ l _ => l end.
Definition right (n : RTreeNode) : option RTreeNode :=
  match n with Node _ _ r => r end.

(** [RTree._insert_node]; the node is updated in place, the result is the
    node after the call.  [frames] is the number of calls, this one
    included, for which the stack has room; the only assignment is made
    by the innermost call, so a call that raises leaves the tree as it
    was. *)
Fixpoint _insert_node (frames : nat) (node : RTreeNode) (seg : Segment)
    : Result RTreeNode :=
  match frames with
  | O => Raise RecursionError
  | S frames' =>
      match node with
      | Node s l r =>
          if seg_l seg <? seg_l s then
            match l with
            | None => Ok (Node s (Some (Node seg None None)) r)
            | Some l' =>
                l'' ← _insert_node frames' l' seg;
                Ok (Node s (Some l'') r)
            end
          else
            match r with
            | None => Ok (Node s l (Some (Node seg None None)))
            | Some r' =>
                r'' ← _insert_node frames' r' seg;
                Ok (Node s l (Some r''))
            end
      end
  end.

(** [RTree]: [root] and [segments]. *)
Record RTree : Type := mkRTree {
  root : option RTreeNode;
  segments : list Segment
}.

Definition RTree_new : RTree := mkRTree None [].

(** [RTree.insert].  The segment is appended to the store first; when
    [_insert_node] raises, the exception leaves [insert] and the
    dispatcher, which catch no [RecursionError]. *)
Definition insert `{Stack} (seg : Segment) (self : RTree) : Result RTree :=
  let segments1 := segments self ++ [seg] in
  match root self with
  | None => Ok (mkRTree (Some (Node seg None None)) segments1)
  | Some node =>
      node' ← _insert_node insert_frames node seg;
      Ok (mkRTree (Some node') segments1)
  end.

(** [RTree.print_tree]: the right subtree, the line of the node, the left
    subtree.  With [self.root] still [None] the first thing evaluated is
    [node.right] on [None]. *)
Fixpoint print_node (frames : nat) (node : RTreeNode) (level : nat)
    : Result (list string) :=
  match frames with
  | O => Raise RecursionError
  | S frames' =>
      match node with
      | Node s l r =>
          above ← match r with
                  | Some r' => print_node frames' r' (S level)
                  | None => Ok []
                  end;
          below ← match l with
                  | Some l' => print_node frames' l' (S level)
                  | None => Ok []
                  end;
          Ok (above ++ [str_repeat "    " level +:+ str_segment s] ++ below)
      end
  end.

Definition print_tree `{Stack} (self : RTree) : Result (list string) :=
  match root self with
  | None => Raise AttributeError
  | Some node => print_node (S print_frames) node 0
  end.

(** [RTree.contains] *)
Fixpoint contains_scan (L H : Z) (segments : list Segment) : bool :=
  match segments with
  | [] => false
  | (l, h) :: rest =>
      if (l <=? L) && (H <=? h) then true else contains_scan L H rest
  end.

Definition contains (seg : Segment) (self : RTree) : bool :=
  let '(L, H) := seg in contains_scan L H (segments self).

(** [RTree.search] *)
Definition search (query_type : option string) (params : Params) (self : RTree)
    : Result (list Segment) :=
  match query_type with
  | None => Ok (segments self)
  | Some q =>
      if decide (q = "CONTAINS") then search_contains (segments self) params
      else if decide (q = "INTERSECTS") then search_intersects (segments self) params
      else if decide (q = "LEFT_OF") then search_left_of (segments self) params
      else Ok []
  end.

End Lab.


(** ** The lexer: [re.findall(r'\w+|\[|\]|\d+|,', command)] *)

Module Lexer.

(** A matcher takes the text at the current position and gives the match
    and the text after it. *)
Definition Matcher : Type := string → option (string * string).

(** The longest run of characters of a class. *)
Fixpoint span (cls : ascii → bool) (s : string) : string * string :=
  match s with
  | EmptyString => (EmptyString, EmptyString)
  | String c r =>
      if cls c then let '(run, rest) := span cls r in (String c run, rest)
      else (EmptyString, s)
  end.

(** [cls+] *)
Definition re_plus (cls : ascii → bool) : Matcher := fun s =>
  match span cls s with
  | (EmptyString, _) => None
  | (run, rest) => Some (run, rest)
  end.

(** One literal character. *)
Definition re_char (c0 : ascii) : Matcher := fun s =>
  match s with
  | String c r => if decide (c = c0) then Some (String c EmptyString, r) else None
  | EmptyString => None
  end.

(** [p1|p2|...]: the first alternative that matches. *)
Fixpoint re_alt (ps : list Matcher) : Matcher := fun s =>
  match ps with
  | [] => None
  | p :: ps' =>
      match p s with
      | Some m => Some m
      | None => re_alt ps' s
      end
  end.

Definition pattern : Matcher :=
  re_alt [re_plus is_word; re_char "["; re_char "]"; re_plus is_digit; re_char ","].

(** [re.findall]: scan from the left; a match is taken and the scan goes
    on after it, a position with no match is skipped.  Every step consumes
    a character, so the length of the text is fuel enough. *)
Fixpoint findall (fuel : nat) (s : string) : list string :=
  match fuel with
  | O => []
  | S fuel' =>
      match s with
      | EmptyString => []
      | String _ r =>
          match pattern s with
          | Some (tok, rest) => tok :: findall fuel' rest
          | None => findall fuel' r
          end
      end
  end.

Definition tokenize (command : string) : list string :=
  findall (String.length command) command.

End Lexer.

(** ** The dispatcher: class [Parser]

    Its text is the same in both files; it only uses the five methods of
    [RTree] collected in [RTreeClass]. *)

Class RTreeClass (T : Type) : Type := {
  RTree_new : T;
  RTree_insert : Segment → T → Result T;
  RTree_print_tree : T → Result (list string);
  RTree_contains : Segment → T → bool;
  RTree_search : option string → Params → T → Result (list Segment)
}.

#[global] Instance Lab_RTree `{Stack} : RTreeClass Lab.RTree := {
  RTree_new := Lab.RTree_new;
  RTree_insert := Lab.insert;
  RTree_print_tree := Lab.print_tree;
  RTree_contains := Lab.contains;
  RTree_search := Lab.search
}.

#[global] Instance Var2_RTree : RTreeClass Var2.RTree := {
  RTree_new := Var2.RTree_new;
  RTree_insert := Var2.insert;
  RTree_print_tree := Var2.print_tree;
  RTree_contains := Var2.contains;
  RTree_search := Var2.search
}.

(** What [Parser.parse] returns: a string, or [None] when the chain of
    [elif]s is left without a [return]. *)
Inductive PyVal : Type :=
  | PyStr (s : string)
  | PyNone.

Definition COMMANDS : list string :=
  ["CREATE"; "INSERT"; "PRINT_TREE"; "CONTAINS"; "SEARCH"].

(** The state the commands act on: [Parser.trees] and what has been
    printed so far. *)
Record Machine (T : Type) : Type := mkMachine {
  trees : gmap string T;
  stdout : list string
}.
Arguments mkMachine {T} trees stdout.
Arguments trees {T} m.
Arguments stdout {T} m.

Definition set_tree {T : Type} (set_name : string) (tree : T) (m : Machine T)
    : Machine T :=
  mkMachine (<[set_name := tree]> (trees m)) (stdout m).

Definition print_lines {T : Type} (lines : list string) (m : Machine T)
    : Machine T :=
  mkMachine (trees m) (stdout m ++ lines).

(** A [try] block whose handler returns [handler]; the block changes the
    machine only in its last call, after everything that can raise one of
    the two exceptions caught, so the handler runs in the state [m]. *)
Definition try_return {T : Type} (body : Result (string * Machine T))
    (handler : string) (m : Machine T) : Result (string * Machine T) :=
  try_except body (handler, m).

Module Parser.
Section Parser.

Context {T : Type} `{RTreeClass T}.

Local Abbreviation Outcome := (Result (string * Machine T)).

Definition create (tokens : list string) (m : Machine T) : Outcome :=
  if decide (length tokens < 2)%nat then
    Ok ("Invalid CREATE command: missing set name", m)
  else
    set_name ← py_index tokens 1;
    match trees m !! set_name with
    | Some _ => Ok ("Set " +:+ set_name +:+ " already exists", m)
    | None =>
        Ok ("Set " +:+ set_name +:+ " has been created",
            set_tree set_name RTree_new m)
    end.

Definition insert (tokens : list string) (m : Machine T) : Outcome :=
  if decide (length tokens < 4)%nat then
    Ok ("Invalid INSERT command: missing parameters", m)
  else
    set_name ← py_index tokens 1;
    match trees m !! set_name with
    | None => Ok ("Set " +:+ set_name +:+ " does not exist", m)
    | Some tree =>
        try_return
          (l ← py_index tokens 3 ≫= py_int;
           h ← py_index tokens 5 ≫= py_int;
           if l >? h then
             Ok ("Invalid INSERT command: lower bound greater than upper bound", m)
           else
             tree' ← RTree_insert (l, h) tree;
             Ok ("Range [" +:+ str_int l +:+ ", " +:+ str_int h
                 +:+ "] has been added to " +:+ set_name,
                 set_tree set_name tree' m))
          "Invalid INSERT command: invalid segment format" m
    end.

Definition print_tree (tokens : list string) (m : Machine T) : Outcome :=
  if decide (length tokens < 2)%nat then
    Ok ("Invalid PRINT_TREE command: missing set name", m)
  else
    set_name ← py_index tokens 1;
    match trees m !! set_name with
    | None => Ok ("Set " +:+ set_name +:+ " does not exist", m)
    | Some tree =>
        lines ← RTree_print_tree tree;
        Ok ("Tree for " +:+ set_name +:+ " printed above", print_lines lines m)
    end.

Definition contains (tokens : list string) (m : Machine T) : Outcome :=
  if decide (length tokens < 4)%nat then
    Ok ("Invalid CONTAINS command: missing parameters", m)
  else
    set_name ← py_index tokens 1;
    match trees m !! set_name with
    | None => Ok ("Set " +:+ set_name +:+ " does not exist", m)
    | Some tree =>
        try_return
          (l ← py_index tokens 3 ≫= py_int;
           h ← py_index tokens 5 ≫= py_int;
           Ok (str_bool (RTree_contains (l, h) tree), m))
          "Invalid CONTAINS command: invalid segment format" m
    end.

Definition search (tokens : list string) (m : Machine T) : Outcome :=
  if decide (length tokens < 2)%nat then
    Ok ("Invalid SEARCH command: missing set name", m)
  else
    set_name ← py_index tokens 1;
    match trees m !! set_name with
    | None => Ok ("Set " +:+ set_name +:+ " does not exist", m)
    | Some tree =>
        if decide (length tokens = 2)%nat then
          results ← RTree_search None PNone tree;
          Ok ("Search results: " +:+ str_segments results, m)
        else if decide ((length tokens < 4)%nat
                        ∨ upper <$> tokens !! 2%nat ≠ Some "WHERE") then
          Ok ("Invalid SEARCH command: invalid WHERE clause", m)
        else
          token3 ← py_index tokens 3;
          let query_type := upper token3 in
          try_return
            (if decide (query_type ∈ ["CONTAINS"; "INTERSECTS"]) then
               l ← py_index tokens 5 ≫= py_int;
               h ← py_index tokens 7 ≫= py_int;
               results ← RTree_search (Some query_type) (PList [l; h]) tree;
               Ok ("Search results: " +:+ str_segments results, m)
             else if decide (query_type = "LEFT_OF") then
               x ← py_index tokens 4 ≫= py_int;
               results ← RTree_search (Some query_type) (PInt x) tree;
               Ok ("Search results: " +:+ str_segments results, m)
             else
               Ok ("Invalid SEARCH command: unknown search type", m))
            ("Invalid SEARCH command: invalid " +:+ query_type +:+ " parameters") m
    end.

Definition parse (command : string) (m : Machine T)
    : Result (PyVal * Machine T) :=
  let tokens := Lexer.tokenize command in
  match tokens with
  | [] => Ok (PyStr "Invalid command", m)
  | token0 :: _ =>
      let command_type := upper token0 in
      let returning (r : Outcome) : Result (PyVal * Machine T) :=
        '(s, m') ← r; Ok (PyStr s, m') in
      if decide (command_type ∈ COMMANDS) then
        if decide (command_type = "CREATE") then returning (create tokens m)
        else if decide (command_type = "INSERT") then returning (insert tokens m)
        else if decide (command_type = "PRINT_TREE") then returning (print_tree tokens m)
        else if decide (command_type = "CONTAINS") then returning (contains tokens m)
        else if decide (command_type = "SEARCH") then returning (search tokens m)
        else Ok (PyNone, m)
      else Ok (PyStr "Unknown command", m)
  end.

End Parser.
End Parser.

(** ** [main]

    [main] feeds its test commands to one [Parser] and prints each
    command and its result, followed by an empty line. *)
Definition str_val (v : PyVal) : string :=
  match v with
  | PyStr s => s
  | PyNone => "None"
  end.

Fixpoint run_commands {T : Type} `{RTreeClass T} (commands : list string)
    (m : Machine T) : Result (Machine T) :=
  match commands with
  | [] => Ok m
  | cmd :: rest =>
      '(result, m') ← Parser.parse cmd m;
      run_commands rest
        (print_lines ["Command: " +:+ cmd; "Parsed result: " +:+ str_val result; ""] m')
  end.

Definition Lab_main : Result (Machine Lab.RTree) :=
  run_commands
    ["CREATE segments";
     "INSERT segments [10, 20]";
     "INSERT segments [5, 15]";
     "PRINT_TREE segments";
     "CONTAINS segments [10, 20]";
     "SEARCH segments";
     "SEARCH segments WHERE CONTAINS [7, 12]";
     "SEARCH segments WHERE INTERSECTS [15, 25]";
     "SEARCH segments WHERE LEFT_OF 15"]
    (mkMachine ∅ []).

Definition Var2_main : Result (Machine Var2.RTree) :=
  run_commands
    ["CREATE segments";
     "INSERT segments [3, 4]";
     "INSERT segments [2, 7]";
     "INSERT segments [5, 8]";
     "INSERT segments [4, 6]";
     "INSERT segments [5, 10]";
     "PRINT_TREE segments";
     "CONTAINS segments [5, 8]";
     "CONTAINS segments [2, 5]";
     "CONTAINS segments [3, 11]";
     "SEARCH segments";
     "SEARCH segments WHERE CONTAINS [7, 8]";
     "SEARCH segments WHERE INTERSECTS [3, 9]";
     "SEARCH segments WHERE LEFT_OF 6"]
    (mkMachine ∅ []).

(** * Vocabulary of the properties *)

(** The order [list.sort] is asked to establish. *)
Definition lower_le (x y : Segment) : Prop := seg_l x ≤ seg_l y.

(** The invariant of the tree: a leaf wraps one segment and its box is
    that segment; the box of an internal node is the minimum of the lower
    and the maximum of the upper bounds of the boxes of its children. *)
Fixpoint bbox_consistent (node : Var2.RTreeNode) : Prop :=
  match node with
  | Var2.Leaf segment children b => children = [segment] ∧ b = segment
  | Var2.Internal child0 child1 b =>
      seg_l b = Z.min (seg_l (Var2.bbox child0)) (seg_l (Var2.bbox child1))
      ∧ seg_h b = Z.max (seg_h (Var2.bbox child0)) (seg_h (Var2.bbox child1))
      ∧ bbox_consistent child0 ∧ bbox_consistent child1
  end.


(** A sequence of [insert] calls on one index, in the order given. *)
Fixpoint insert_all {T : Type} `{RTreeClass T} (segs : list Segment) (self : T)
    : Result T :=
  match segs with
  | [] => Ok self
  | s :: rest => self' ← RTree_insert s self; insert_all rest self'
  end.

(** The three search predicates as the specification words them, for a
    stored segment [[l, h]]. *)
Definition nests_in (L H : Z) (stored : Segment) : Prop :=
  seg_l stored ≤ L ∧ H ≤ seg_h stored.

Definition overlaps (L H : Z) (stored : Segment) : Prop :=
  ¬ (seg_h stored < L ∨ H < seg_l stored).

Definition lies_left_of (X : Z) (stored : Segment) : Prop :=
  seg_h stored ≤ X.

#[global] Instance nests_in_dec L H stored : Decision (nests_in L H stored).
Proof. unfold nests_in. apply _. Defined.

#[global] Instance overlaps_dec L H stored : Decision (overlaps L H stored).
Proof. unfold overlaps. apply _. Defined.

#[global] Instance lies_left_of_dec X stored : Decision (lies_left_of X stored).
Proof. unfold lies_left_of. apply _. Defined.

(** An [int] of at most [max_str_digits] decimal digits: what [int] reads
    and [str] prints. *)
Definition within_digit_limit (n : Z) : Prop := Z.abs n < 10 ^ max_str_digits.

#[global] Instance within_digit_limit_dec n : Decision (within_digit_limit n).
Proof. unfold within_digit_limit. apply _. Defined.

(** A segment with both bounds within the digit limit, as every segment
    is that a command stores. *)
Definition segment_within_limit (s : Segment) : Prop :=
  within_digit_limit (seg_l s) ∧ within_digit_limit (seg_h s).

#[global] Instance segment_within_limit_dec s : Decision (segment_within_limit s).
Proof. unfold segment_within_limit. apply _. Defined.

(** A segment as the data model wants it: [l ≤ h]. *)
Definition valid_segment (s : Segment) : Prop := seg_l s ≤ seg_h s.

#[global] Instance valid_segment_dec s : Decision (valid_segment s).
Proof. unfold valid_segment. apply _. Defined.

(** Strings made of the characters of one class. *)
Fixpoint all_chars (cls : ascii → bool) (s : string) : bool :=
  match s with
  | EmptyString => true
  | String c r => cls c && all_chars cls r
  end.

(** What the lexer yields as one word token: one or more word characters.
    The name of a set is such a string. *)
Definition is_name (s : string) : Prop :=
  s ≠ EmptyString ∧ all_chars is_word s = true.

(** The three characters the pattern matches one at a time. *)
Definition is_punct (c : ascii) : bool :=
  bool_decide (c = "["%char) || bool_decide (c = "]"%char)
  || bool_decide (c = ","%char).

(** The characters the pattern of the lexer matches nowhere. *)
Definition is_separator (c : ascii) : bool :=
  negb (is_word c)
  && negb (bool_decide (c = "["%char))
  && negb (bool_decide (c = "]"%char))
  && negb (bool_decide (c = ","%char)).

(** The commands of the interface, with their bounds written in decimal,
    a minus sign before a negative one. *)
Definition INSERT_command (set_name : string) (l h : Z) : string :=
  "INSERT " +:+ set_name +:+ " [" +:+ str_int l +:+ ", " +:+ str_int h +:+ "]".

Definition CONTAINS_command (set_name : string) (l h : Z) : string :=
  "CONTAINS " +:+ set_name +:+ " [" +:+ str_int l +:+ ", " +:+ str_int h +:+ "]".

Definition SEARCH_WHERE_command (set_name query : string) (l h : Z) : string :=
  "SEARCH " +:+ set_name +:+ " WHERE " +:+ query
  +:+ " [" +:+ str_int l +:+ ", " +:+ str_int h +:+ "]".

Definition SEARCH_LEFT_OF_command (set_name : string) (x : Z) : string :=
  "SEARCH " +:+ set_name +:+ " WHERE LEFT_OF " +:+ str_int x.

(** A result that a handler for [(ValueError, IndexError)] turns into a
    value: it is a value already, or one of the two exceptions. *)
Definition handled {A : Type} (r : Result A) : Prop :=
  match r with
  | Ok _ => True
  | Raise e => e = ValueError ∨ e = IndexError
  end.


(** ** Vocabulary for the trees *)

(** The segments at the leaves of a bounding-box tree, from left to
    right. *)
Fixpoint leaves (node : Var2.RTreeNode) : list Segment :=
  match node with
  | Var2.Leaf segment _ _ => [segment]
  | Var2.Internal child0 child1 _ => leaves child0 ++ leaves child1
  end.

(** The number of edges on the longest path from a node to a leaf. *)
Fixpoint height (node : Var2.RTreeNode) : nat :=
  match node with
  | Var2.Leaf _ _ _ => 0
  | Var2.Internal child0 child1 _ => S (height child0 `max` height child1)
  end.

(** The number of nodes, leaves and internal ones. *)
Fixpoint node_count (node : Var2.RTreeNode) : nat :=
  match node with
  | Var2.Leaf _ _ _ => 1
  | Var2.Internal child0 child1 _ => S (node_count child0 + node_count child1)
  end.

(** At every internal node the right child has as many leaves as the
    left one, or one more. *)
Fixpoint median_split (node : Var2.RTreeNode) : Prop :=
  match node with
  | Var2.Leaf _ _ _ => True
  | Var2.Internal child0 child1 _ =>
      (length (leaves child0) ≤ length (leaves child1)
       ∧ length (leaves child1) ≤ S (length (leaves child0)))%nat
      ∧ median_split child0 ∧ median_split child1
  end.

(** The segments of a search tree of [aaf-lab.py] in order: left subtree,
    node, right subtree. *)
Fixpoint inorder (node : Lab.RTreeNode) : list Segment :=
  match node with
  | Lab.Node s l r =>
      match l with Some l' => inorder l' | None => [] end
      ++ s :: match r with Some r' => inorder r' | None => [] end
  end.

(** The order [_insert_node] keeps: lower bounds smaller than the node's
    on the left, the others on the right. *)
Fixpoint search_tree (node : Lab.RTreeNode) : Prop :=
  match node with
  | Lab.Node s l r =>
      match l with
      | Some l' => Forall (λ x, seg_l x < seg_l s) (inorder l') ∧ search_tree l'
      | None => True
      end
      ∧ match r with
        | Some r' => Forall (λ x, seg_l s ≤ seg_l x) (inorder r') ∧ search_tree r'
        | None => True
        end
  end.

(** Putting a segment into a list behind every segment whose lower bound
    is not larger. *)
Fixpoint insert_behind (x : Segment) (xs : list Segment) : list Segment :=
  match xs with
  | [] => [x]
  | y :: r =>
      if seg_l x <? seg_l y then x :: y :: r
      else y :: insert_behind x r
  end.

(** The search tree with one more segment: a new node below the last
    node of the path that goes left where the lower bound is smaller and
    right where it is not.  It is what [_insert_node] leaves when the
    stack has room for its calls. *)
Fixpoint Lab_placed (node : Lab.RTreeNode) (seg : Segment) : Lab.RTreeNode :=
  match node with
  | Lab.Node s l r =>
      if seg_l seg <? seg_l s then
        match l with
        | None => Lab.Node s (Some (Lab.Node seg None None)) r
        | Some l' => Lab.Node s (Some (Lab_placed l' seg)) r
        end
      else
        match r with
        | None => Lab.Node s l (Some (Lab.Node seg None None))
        | Some r' => Lab.Node s l (Some (Lab_placed r' seg))
        end
  end.

(** The number of nodes on the longest path from a node downwards. *)
Fixpoint Lab_depth (node : Lab.RTreeNode) : nat :=
  match node with
  | Lab.Node _ l r =>
      S (match l with Some l' => Lab_depth l' | None => 0 end
         `max` match r with Some r' => Lab_depth r' | None => 0 end)
  end.

(** The depth of the tree of a set, 0 when it has no root. *)
Definition Lab_root_depth (self : Lab.RTree) : nat :=
  match Lab.root self with
  | Some node => Lab_depth node
  | None => 0
  end.

(** The segments [[0, 0]], [[1, 1]], ... [[n - 1, n - 1]]: inserted in this
    order each goes to the right of the one before. *)
Definition ascending (n : nat) : list Segment :=
  (λ i, (Z.of_nat i, Z.of_nat i)) <$> seq 0 n.

(** One line of [print_tree] of [aaf-lab.py]. *)
Definition Lab_line (level : nat) (s : Segment) : string :=
  str_repeat "    " level +:+ str_segment s.

(** The lines of a search tree: those of the right subtree, the line of
    the node, those of the left subtree, each at its level.  It is what
    [print_tree] prints when the stack has room for its calls. *)
Fixpoint Lab_lines (node : Lab.RTreeNode) (level : nat) : list string :=
  match node with
  | Lab.Node s l r =>
      match r with Some r' => Lab_lines r' (S level) | None => [] end
      ++ [Lab_line level s]
      ++ match l with Some l' => Lab_lines l' (S level) | None => [] end
  end.

(** What [insert] of [aaf-lab.py] keeps: the tree is a search tree and
    read in order it is the sorted store. *)
Definition Lab_tree_of_store (self : Lab.RTree) : Prop :=
  match Lab.root self with
  | None => Lab.segments self = []
  | Some node =>
      search_tree node ∧ inorder node = sort_by_lower (Lab.segments self)
  end.

(** A set of [aaf-lab.py] whose segments, in the store and in the tree,
    are within the digit limit. *)
Definition Lab_within_limit (self : Lab.RTree) : Prop :=
  Forall segment_within_limit (Lab.segments self)
  ∧ match Lab.root self with
    | Some node => Forall segment_within_limit (inorder node)
    | None => True
    end.

(** ** Vocabulary for the lexer *)

(** The text with the characters the pattern matches nowhere left out. *)
Fixpoint drop_separators (s : string) : string :=
  match s with
  | EmptyString => EmptyString
  | String c r =>
      if is_separator c then drop_separators r else String c (drop_separators r)
  end.

(** [''.join(tokens)] and [' '.join(tokens)] *)
Fixpoint join_empty (tokens : list string) : string :=
  match tokens with
  | [] => EmptyString
  | t :: rest => t +:+ join_empty rest
  end.

Fixpoint join_blank (tokens : list string) : string :=
  match tokens with
  | [] => EmptyString
  | [t] => t
  | t :: rest => t +:+ String " " (join_blank rest)
  end.

(** The pattern without its fourth alternative, [\d+]. *)
Definition pattern_without_digits : Lexer.Matcher :=
  Lexer.re_alt
    [Lexer.re_plus is_word; Lexer.re_char "["; Lexer.re_char "]"; Lexer.re_char ","].

(** The unfiltered search, as the interface writes it. *)
Definition SEARCH_command (set_name : string) : string :=
  "SEARCH " +:+ set_name.
(** * Properties *)

(** ** The stable sort *)

Lemma insert_by_lower_Permutation x xs :
  insert_by_lower x xs ≡ₚ x :: xs.
Proof.
  induction xs as [|y r IH]; simpl; [done|].
  destruct (seg_l x <=? seg_l y); [done|].
  rewrite IH. apply Permutation_swap.
Qed.

Lemma sort_by_lower_Permutation xs : sort_by_lower xs ≡ₚ xs.
Proof.
  induction xs as [|x r IH]; simpl; [done|].
  by rewrite insert_by_lower_Permutation, IH.
Qed.

Lemma sort_by_lower_length xs : length (sort_by_lower xs) = length xs.
Proof. by rewrite sort_by_lower_Permutation. Qed.

Lemma insert_by_lower_Sorted x xs :
  Sorted lower_le xs → Sorted lower_le (insert_by_lower x xs).
Proof.
  induction 1 as [|y r Hr IH Hy]; simpl.
  - repeat constructor.
  - destruct (Z.leb_spec (seg_l x) (seg_l y)) as [Hle|Hgt].
    + constructor; [by constructor|]. by constructor.
    + constructor; [done|].
      destruct r as [|z r']; simpl in *.
      * constructor. unfold lower_le. lia.
      * destruct (seg_l x <=? seg_l z).
        -- constructor. unfold lower_le. lia.
        -- constructor. by inversion Hy.
Qed.

Lemma sort_by_lower_Sorted xs : Sorted lower_le (sort_by_lower xs).
Proof.
  induction xs as [|x r IH]; simpl; [constructor|].
  by apply insert_by_lower_Sorted.
Qed.

(** Stability: the segments of one lower bound keep their relative order. *)
Lemma insert_by_lower_stable k x xs :
  filter (λ s, seg_l s = k) (insert_by_lower x xs)
  = filter (λ s, seg_l s = k) (x :: xs).
Proof.
  induction xs as [|y r IH]; simpl; [done|].
  destruct (Z.leb_spec (seg_l x) (seg_l y)) as [Hle|Hgt]; [done|].
  rewrite (filter_cons _ y), IH, !filter_cons.
  destruct (decide (seg_l y = k)), (decide (seg_l x = k)); try done; lia.
Qed.

Lemma sort_by_lower_stable k xs :
  filter (λ s, seg_l s = k) (sort_by_lower xs) = filter (λ s, seg_l s = k) xs.
Proof.
  induction xs as [|x r IH]; simpl; [done|].
  rewrite insert_by_lower_stable, !filter_cons. by rewrite IH.
Qed.

(** A list that is already in order is left as it is. *)
Lemma sort_by_lower_sorted_id xs :
  Sorted lower_le xs → sort_by_lower xs = xs.
Proof.
  induction 1 as [|x r Hr IH Hx]; simpl; [done|].
  rewrite IH. destruct Hx as [|y r' Hxy]; simpl; [done|].
  unfold lower_le in Hxy. by destruct (Z.leb_spec (seg_l x) (seg_l y)); [|lia].
Qed.

Lemma sort_by_lower_idemp xs :
  sort_by_lower (sort_by_lower xs) = sort_by_lower xs.
Proof. apply sort_by_lower_sorted_id, sort_by_lower_Sorted. Qed.

Lemma sort_by_lower_nil_inv xs : sort_by_lower xs = [] → xs = [].
Proof.
  intros Hs. apply Permutation_nil_r. by rewrite <- Hs, sort_by_lower_Permutation.
Qed.

(** ** The [Result] monad *)

Lemma bind_Ok_inv {A B : Type} (m : Result A) (f : A → Result B) (b : B) :
  m ≫= f = Ok b → ∃ a, m = Ok a ∧ f a = Ok b.
Proof. destruct m as [a|e]; [by exists a | done]. Qed.

Lemma bind_Ok {A B : Type} (a : A) (f : A → Result B) : Ok a ≫= f = f a.
Proof. done. Qed.

Ltac bind_inv H :=
  let a := fresh "a" in
  let Ha := fresh "Ha" in
  apply bind_Ok_inv in H as (a & Ha & H).

(** ** The bounding-box tree of [aaf-lab-var2.py] *)

Lemma build_step_leaf fuel s :
  Var2._build_tree_recursive (S fuel) [s] = Ok (Var2.Leaf s [s] s, [s]).
Proof. by destruct s. Qed.

Lemma build_step_split fuel segs :
  length segs ≠ 1%nat →
  Var2._build_tree_recursive (S fuel) segs =
    let sorted := sort_by_lower segs in
    let mid := (length sorted `div` 2)%nat in
    '(left_node, _) ← Var2._build_tree_recursive fuel (take mid sorted);
    '(right_node, _) ← Var2._build_tree_recursive fuel (drop mid sorted);
    b ← Var2.update_bbox_internal [left_node; right_node];
    mret (Var2.Internal left_node right_node b, sorted).
Proof. by destruct segs as [|? [|? ?]]. Qed.

Lemma half_bounds (n : nat) :
  (2 ≤ n → 1 ≤ n `div` 2 ∧ n `div` 2 < n)%nat.
Proof.
  intros Hn. split.
  - apply Nat.div_str_pos. lia.
  - apply Nat.div_lt; lia.
Qed.

(** With fuel for the length of the list the builder returns, and the
    list it was given is left sorted. *)
Lemma build_enough_fuel fuel segs :
  segs ≠ [] → (length segs ≤ fuel)%nat →
  ∃ node, Var2._build_tree_recursive fuel segs = Ok (node, sort_by_lower segs).
Proof.
  revert segs. induction fuel as [|fuel IH]; intros segs Hne Hlen.
  { destruct segs; [done | simpl in Hlen; lia]. }
  destruct (decide (length segs = 1%nat)) as [H1|H1].
  - destruct segs as [|s [|? ?]]; try done.
    exists (Var2.Leaf s [s] s). by rewrite build_step_leaf.
  - rewrite build_step_split by done. cbv zeta.
    assert (2 ≤ length segs)%nat as H2.
    { destruct segs as [|? [|? ?]]; simpl in *; try done; lia. }
    rewrite sort_by_lower_length.
    pose proof (half_bounds _ H2) as [Hlo Hhi].
    pose proof (sort_by_lower_length segs) as Hsl.
    destruct (IH (take (length segs `div` 2) (sort_by_lower segs))) as [nl Hl].
    { intros Hnil. apply (f_equal length) in Hnil.
      rewrite length_take in Hnil. change (length (@nil Segment)) with 0%nat in Hnil. lia. }
    { rewrite length_take. lia. }
    destruct (IH (drop (length segs `div` 2) (sort_by_lower segs))) as [nr Hr].
    { intros Hnil. apply (f_equal length) in Hnil.
      rewrite length_drop in Hnil. change (length (@nil Segment)) with 0%nat in Hnil. lia. }
    { rewrite length_drop. lia. }
    rewrite Hl, Hr. simpl. eauto.
Qed.

(** More fuel does not change what the builder returns. *)
Lemma build_fuel_mono fuel fuel' segs r :
  (fuel ≤ fuel')%nat →
  Var2._build_tree_recursive fuel segs = Ok r →
  Var2._build_tree_recursive fuel' segs = Ok r.
Proof.
  revert fuel' segs r. induction fuel as [|fuel IH]; intros fuel' segs r Hle Hb.
  { done. }
  destruct fuel' as [|fuel']; [lia|].
  destruct (decide (length segs = 1%nat)) as [H1|H1].
  - by destruct segs as [|s [|? ?]].
  - rewrite build_step_split in * by done. cbv zeta in *.
    bind_inv Hb. destruct a as [nl sl].
    bind_inv Hb. destruct a as [nr sr].
    rewrite (IH fuel' _ _ ltac:(lia) Ha), (IH fuel' _ _ ltac:(lia) Ha0).
    done.
Qed.

(** On the empty list the recursion never ends, whatever the limit. *)
Lemma build_nil fuel :
  Var2._build_tree_recursive fuel [] = Raise RecursionError.
Proof.
  induction fuel as [|fuel IH]; [done|]. simpl. by rewrite IH.
Qed.

Lemma build_bbox_consistent fuel segs node segs' :
  Var2._build_tree_recursive fuel segs = Ok (node, segs') →
  bbox_consistent node.
Proof.
  revert segs node segs'. induction fuel as [|fuel IH]; intros segs node segs' Hb.
  { done. }
  destruct (decide (length segs = 1%nat)) as [H1|H1].
  - destruct segs as [|s [|? ?]]; try done.
    rewrite build_step_leaf in Hb. by simplify_eq.
  - rewrite build_step_split in Hb by done. cbv zeta in Hb.
    bind_inv Hb. destruct a as [nl sl].
    bind_inv Hb. destruct a as [nr sr].
    simpl in Hb. injection Hb as <- <-. simpl.
    split_and!; [done | done | by eapply IH | by eapply IH].
Qed.

Lemma insert_by_lower_swap x y xs :
  seg_l y < seg_l x →
  insert_by_lower y (insert_by_lower x xs) = insert_by_lower x (insert_by_lower y xs).
Proof.
  intros Hyx. induction xs as [|z r IH]; simpl.
  - destruct (Z.leb_spec (seg_l y) (seg_l x)), (Z.leb_spec (seg_l x) (seg_l y));
      try done; lia.
  - destruct (Z.leb_spec (seg_l x) (seg_l z)), (Z.leb_spec (seg_l y) (seg_l z));
      simpl;
      repeat match goal with
        | |- context [Z.leb ?a ?b] => destruct (Z.leb_spec a b)
        end; try done; try lia.
    by rewrite IH.
Qed.

Lemma foldr_insert_by_lower_insert acc x xs :
  foldr insert_by_lower acc (insert_by_lower x xs)
  = insert_by_lower x (foldr insert_by_lower acc xs).
Proof.
  induction xs as [|y r IH]; simpl; [done|].
  destruct (Z.leb_spec (seg_l x) (seg_l y)); simpl; [done|].
  rewrite IH. by apply insert_by_lower_swap.
Qed.

(** Sorting a list whose front part has been sorted before gives what
    sorting the list as it first was gives. *)
Lemma sort_by_lower_resort xs ys :
  sort_by_lower (sort_by_lower xs ++ ys) = sort_by_lower (xs ++ ys).
Proof.
  unfold sort_by_lower. rewrite !foldr_app.
  induction xs as [|x r IH]; simpl; [done|].
  by rewrite foldr_insert_by_lower_insert, IH.
Qed.

(** ** [RTree.insert] of [aaf-lab-var2.py] *)

Lemma Var2_insert_Ok s self :
  ∃ node, Var2.insert s self
          = Ok (Var2.mkRTree (Some node) (sort_by_lower (Var2.segments self ++ [s])))
          ∧ bbox_consistent node.
Proof.
  unfold Var2.insert. cbv zeta.
  destruct (build_enough_fuel (length (Var2.segments self ++ [s]))
              (Var2.segments self ++ [s])) as [node Hnode].
  { by destruct (Var2.segments self). }
  { done. }
  exists node. rewrite Hnode. split; [done|].
  by eapply build_bbox_consistent.
Qed.

Lemma Var2_insert_all_Ok segs self :
  ∃ self', insert_all segs self = Ok self'
           ∧ Var2.segments self' =
               match segs with
               | [] => Var2.segments self
               | _ :: _ => sort_by_lower (Var2.segments self ++ segs)
               end.
Proof.
  revert self. induction segs as [|s rest IH]; intros self; simpl.
  { by exists self. }
  destruct (Var2_insert_Ok s self) as (node & Hins & _).
  change (RTree_insert s self) with (Var2.insert s self). rewrite Hins. simpl.
  destruct (IH (Var2.mkRTree (Some node) (sort_by_lower (Var2.segments self ++ [s]))))
    as (self' & Hall & Hstore).
  exists self'. split; [done|]. rewrite Hstore. simpl.
  destruct rest as [|s' rest'].
  - done.
  - by rewrite sort_by_lower_resort, <- app_assoc.
Qed.

(** ** [RTree.insert] of [aaf-lab.py] *)

Lemma Lab_RTreeNode_ind (P : Lab.RTreeNode → Prop) :
  (∀ s l r,
     match l with Some l' => P l' | None => True end →
     match r with Some r' => P r' | None => True end →
     P (Lab.Node s l r)) →
  ∀ node, P node.
Proof.
  intros Hnode. fix IH 1. intros [s l r]. apply Hnode.
  - destruct l as [l'|]; [apply IH | exact I].
  - destruct r as [r'|]; [apply IH | exact I].
Qed.

(** [_insert_node] places the segment, or the tree is deeper than the
    stack has room. *)
Lemma Lab_insert_node_cases frames node s :
  Lab._insert_node frames node s = Ok (Lab_placed node s)
  ∨ (Lab._insert_node frames node s = Raise RecursionError
     ∧ (frames < Lab_depth node)%nat).
Proof.
  revert node. induction frames as [|frames IH]; intros [v l r]; simpl.
  { right. split; [done|lia]. }
  destruct (seg_l s <? seg_l v).
  - destruct l as [l'|]; [|by left].
    destruct (IH l') as [->|[-> Hdeep]]; simpl; [by left|].
    right. split; [done|lia].
  - destruct r as [r'|]; [|by left].
    destruct (IH r') as [->|[-> Hdeep]]; simpl; [by left|].
    right. split; [done|lia].
Qed.

Lemma Lab_insert_node_enough frames node s :
  (Lab_depth node ≤ frames)%nat →
  Lab._insert_node frames node s = Ok (Lab_placed node s).
Proof.
  intros Hroom. destruct (Lab_insert_node_cases frames node s) as [|[_ ?]]; [done|lia].
Qed.

(** Less room does not help. *)
Lemma Lab_insert_node_raises_mono frames frames' node s :
  (frames' ≤ frames)%nat →
  Lab._insert_node frames node s = Raise RecursionError →
  Lab._insert_node frames' node s = Raise RecursionError.
Proof.
  revert frames' node. induction frames as [|frames IH]; intros frames' [v l r] Hle.
  { by replace frames' with 0%nat by lia. }
  destruct frames' as [|frames'']; [done|]. simpl.
  destruct (seg_l s <? seg_l v).
  - destruct l as [l'|]; [|done].
    destruct (Lab._insert_node frames l' s) as [?|e] eqn:Hl; simpl; [done|].
    intros [= ->]. by rewrite (IH frames'' l') by (done || lia).
  - destruct r as [r'|]; [|done].
    destruct (Lab._insert_node frames r' s) as [?|e] eqn:Hr; simpl; [done|].
    intros [= ->]. by rewrite (IH frames'' r') by (done || lia).
Qed.

Lemma Lab_depth_inorder node : (Lab_depth node ≤ length (inorder node))%nat.
Proof.
  induction node as [v l r IHl IHr] using Lab_RTreeNode_ind. simpl.
  rewrite length_app. simpl. destruct l, r; simpl; lia.
Qed.

Lemma Lab_placed_length node s :
  length (inorder (Lab_placed node s)) = S (length (inorder node)).
Proof.
  induction node as [v l r IHl IHr] using Lab_RTreeNode_ind. simpl.
  destruct (seg_l s <? seg_l v).
  - destruct l as [l'|]; simpl; rewrite ?length_app; simpl; rewrite ?IHl; lia.
  - destruct r as [r'|]; simpl; rewrite ?length_app; simpl; rewrite ?IHr; lia.
Qed.

(** The number of nodes of the tree of a set. *)
Local Abbreviation Lab_nodes self :=
  (match Lab.root self with Some node => length (inorder node) | None => 0%nat end).

Section Lab_insert.

Context `{Stack}.

(** [insert] appends the segment and places it in the tree, or the tree
    is deeper than the stack has room. *)
Lemma Lab_insert_cases s self :
  Lab.insert s self
  = Ok (Lab.mkRTree
          (Some match Lab.root self with
                | Some node => Lab_placed node s
                | None => Lab.Node s None None
                end)
          (Lab.segments self ++ [s]))
  ∨ (Lab.insert s self = Raise RecursionError
     ∧ (insert_frames < Lab_root_depth self)%nat).
Proof.
  unfold Lab.insert, Lab_root_depth. destruct (Lab.root self) as [node|]; [|by left].
  destruct (Lab_insert_node_cases insert_frames node s) as [->|[-> Hdeep]]; simpl;
    [by left | by right].
Qed.

Lemma Lab_insert_inv s self self' :
  Lab.insert s self = Ok self' →
  self' = Lab.mkRTree
            (Some match Lab.root self with
                  | Some node => Lab_placed node s
                  | None => Lab.Node s None None
                  end)
            (Lab.segments self ++ [s]).
Proof.
  intros Hins. destruct (Lab_insert_cases s self) as [Hok|[Hraise _]]; congruence.
Qed.

Lemma Lab_insert_enough s self :
  (Lab_root_depth self ≤ insert_frames)%nat → ∃ self', Lab.insert s self = Ok self'.
Proof.
  intros Hroom. destruct (Lab_insert_cases s self) as [Hok|[_ ?]]; [by eexists|lia].
Qed.

Lemma Lab_insert_all_inv segs self self' :
  insert_all segs self = Ok self' →
  Lab.segments self' = Lab.segments self ++ segs.
Proof.
  revert self. induction segs as [|s rest IH]; intros self; simpl.
  { intros [= <-]. by rewrite app_nil_r. }
  change (RTree_insert s self) with (Lab.insert s self).
  destruct (Lab.insert s self) as [self1|e] eqn:Hins; simpl; [|done].
  intros Hrest. apply IH in Hrest. rewrite Hrest.
  apply Lab_insert_inv in Hins as ->. simpl. by rewrite <- app_assoc.
Qed.

(** A sequence of insertions returns, or it raises [RecursionError] and
    the tree would get more nodes than the stack has room for calls, and
    one. *)
Lemma Lab_insert_all_cases segs self :
  (∃ self', insert_all segs self = Ok self')
  ∨ (insert_all segs self = Raise RecursionError
     ∧ (S insert_frames < Lab_nodes self + length segs)%nat).
Proof.
  revert self. induction segs as [|s rest IH]; intros self; simpl.
  { left. by eexists. }
  change (RTree_insert s self) with (Lab.insert s self).
  destruct (Lab_insert_cases s self) as [->|[-> Hdeep]]; simpl.
  - destruct (IH (Lab.mkRTree
                    (Some match Lab.root self with
                          | Some node => Lab_placed node s
                          | None => Lab.Node s None None
                          end)
                    (Lab.segments self ++ [s]))) as [Hok|[Hraise Hmany]].
    + by left.
    + right. split; [done|]. simpl in Hmany.
      destruct (Lab.root self) as [node|]; simpl in *.
      * rewrite Lab_placed_length in Hmany. lia.
      * lia.
  - right. split; [done|]. unfold Lab_root_depth in Hdeep.
    destruct (Lab.root self) as [node|]; [|lia].
    pose proof (Lab_depth_inorder node). lia.
Qed.

Lemma Lab_insert_all_enough segs :
  (length segs ≤ S insert_frames)%nat →
  ∃ self, insert_all segs Lab.RTree_new = Ok self
          ∧ Lab.segments self = segs.
Proof.
  intros Hroom.
  destruct (Lab_insert_all_cases segs Lab.RTree_new) as [[self Hall]|[_ Hmany]].
  - exists self. split; [done|]. by apply Lab_insert_all_inv in Hall.
  - simpl in Hmany. lia.
Qed.

(** ** The store after a sequence of insertions *)

(** In [aaf-lab.py] the store is the sequence of the inserted segments,
    and the unfiltered search returns it. *)
Lemma Lab_store_is_insertion_order segs self :
  insert_all segs Lab.RTree_new = Ok self →
  Lab.search None PNone self = Ok segs.
Proof.
  intros Hall. apply Lab_insert_all_inv in Hall. simpl. by rewrite Hall.
Qed.

End Lab_insert.

(** With less room on the stack, what raised raises. *)
Lemma Lab_insert_raises_mono (big small : Stack) s self :
  (insert_frames (Stack := small) ≤ insert_frames (Stack := big))%nat →
  Lab.insert (H := big) s self = Raise RecursionError →
  Lab.insert (H := small) s self = Raise RecursionError.
Proof.
  intros Hle. unfold Lab.insert. destruct (Lab.root self) as [node|]; [|done].
  destruct (Lab._insert_node (insert_frames (Stack := big)) node s)
    as [node'|e] eqn:Hbig; simpl; [done|].
  intros [= ->]. by rewrite (Lab_insert_node_raises_mono _ _ _ _ Hle Hbig).
Qed.

Lemma Lab_insert_all_raises_mono (big small : Stack) segs self :
  (insert_frames (Stack := small) ≤ insert_frames (Stack := big))%nat →
  insert_all (H := Lab_RTree (H := big)) segs self = Raise RecursionError →
  insert_all (H := Lab_RTree (H := small)) segs self = Raise RecursionError.
Proof.
  intros Hle. revert self. induction segs as [|s rest IH]; intros self; simpl; [done|].
  change (RTree_insert (RTreeClass := Lab_RTree (H := big)) s self)
    with (Lab.insert (H := big) s self).
  change (RTree_insert (RTreeClass := Lab_RTree (H := small)) s self)
    with (Lab.insert (H := small) s self).
  destruct (Lab.insert (H := big) s self) as [self1|e] eqn:Hbig; simpl.
  - apply Lab_insert_inv in Hbig as ->.
    destruct (Lab_insert_cases (H := small) s self) as [-> | [-> _]]; simpl; [|done].
    apply IH.
  - intros [= ->]. by rewrite (Lab_insert_raises_mono big small s self Hle Hbig).
Qed.

(** X3: in [aaf-lab-var2.py] the builder sorts the store itself, so
    after any sequence of insertions into a new index the store, which
    the unfiltered search returns, is the inserted sequence sorted by
    lower bound, segments of equal lower bound in the order of
    insertion. *)
Lemma Var2_store_is_stable_sort segs :
  ∃ self, insert_all segs Var2.RTree_new = Ok self
          ∧ Var2.search None PNone self = Ok (sort_by_lower segs).
Proof.
  destruct (Var2_insert_all_Ok segs Var2.RTree_new) as (self & Hall & Hstore).
  exists self. split; [done|]. simpl. rewrite Hstore. by destruct segs.
Qed.

(** C1 (the code departs from it): after [insert([3, 4])] and
    [insert([2, 7])] on a new index of [aaf-lab-var2.py] the unfiltered
    search returns [[2, 7], [3, 4]], which is not the order of insertion:
    the builder has sorted the store itself, not a copy. *)
Theorem var2_search_not_insertion_order :
  (self ← insert_all [(3, 4); (2, 7)] Var2.RTree_new; Var2.search None PNone self)
    = Ok [(2, 7); (3, 4)]
  ∧ (self ← insert_all [(3, 4); (2, 7)] Var2.RTree_new; Var2.search None PNone self)
    ≠ Ok [(3, 4); (2, 7)].
Proof. split; [reflexivity | discriminate]. Qed.

(** C3: every tree that [insert] of [aaf-lab-var2.py] produces satisfies
    the bounding-box invariant: the box of an internal node is
    [min] of the lower and [max] of the upper bounds of its two children,
    down to the leaves, and the box of a leaf is the segment it wraps. *)
Theorem insert_tree_bbox_consistent (s : Segment) (self : Var2.RTree) :
  ∃ node store,
    Var2.insert s self = Ok (Var2.mkRTree (Some node) store)
    ∧ bbox_consistent node.
Proof.
  destruct (Var2_insert_Ok s self) as (node & Hins & Hbox). eauto.
Qed.

(** C4: on a non-empty list (and with fuel for its length) the builder
    returns a leaf when one segment is left; otherwise it sorts the list
    by lower bound, cuts it at [len / 2] and returns the internal node of
    the trees built from the part before and the part from the cut, in
    that order.  Building again from the store the first build left
    behind, or with more fuel, gives the same tree. *)
Theorem build_leaf_or_midpoint_split (fuel : nat) (segs : list Segment)
    (Hne : segs ≠ []) (Hfuel : (length segs ≤ fuel)%nat) :
  let sorted := sort_by_lower segs in
  let mid := (length sorted `div` 2)%nat in
  (∀ s, segs = [s] →
     Var2._build_tree_recursive fuel segs = Ok (Var2.Leaf s [s] s, [s]))
  ∧ (length segs ≠ 1%nat →
     ∃ left_node right_node,
       Var2._build_tree_recursive fuel (take mid sorted)
         = Ok (left_node, sort_by_lower (take mid sorted))
       ∧ Var2._build_tree_recursive fuel (drop mid sorted)
         = Ok (right_node, sort_by_lower (drop mid sorted))
       ∧ Var2._build_tree_recursive fuel segs
         = Ok (Var2.Internal left_node right_node
                 (Z.min (seg_l (Var2.bbox left_node)) (seg_l (Var2.bbox right_node)),
                  Z.max (seg_h (Var2.bbox left_node)) (seg_h (Var2.bbox right_node))),
               sorted))
  ∧ (∃ node,
       Var2._build_tree_recursive fuel segs = Ok (node, sorted)
       ∧ Var2._build_tree_recursive fuel sorted = Ok (node, sorted)
       ∧ ∀ fuel', (fuel ≤ fuel')%nat →
           Var2._build_tree_recursive fuel' segs = Ok (node, sorted)).
Proof.
  intros sorted mid. split_and!.
  - intros s ->. destruct fuel as [|fuel]; [simpl in Hfuel; lia|].
    apply build_step_leaf.
  - intros H1. destruct fuel as [|fuel].
    { destruct segs; [done | simpl in Hfuel; lia]. }
    assert (2 ≤ length segs)%nat as H2.
    { destruct segs as [|? [|? ?]]; simpl in *; try done; lia. }
    pose proof (sort_by_lower_length segs) as Hsl. fold sorted in Hsl.
    assert (1 ≤ mid ∧ mid < length segs)%nat as [Hlo Hhi].
    { unfold mid. rewrite Hsl. by apply half_bounds. }
    destruct (build_enough_fuel fuel (take mid sorted)) as [nl Hl].
    { intros Hnil. apply (f_equal length) in Hnil.
      rewrite length_take in Hnil. change (length (@nil Segment)) with 0%nat in Hnil. lia. }
    { rewrite length_take. lia. }
    destruct (build_enough_fuel fuel (drop mid sorted)) as [nr Hr].
    { intros Hnil. apply (f_equal length) in Hnil.
      rewrite length_drop in Hnil. change (length (@nil Segment)) with 0%nat in Hnil. lia. }
    { rewrite length_drop. lia. }
    exists nl, nr. split_and!.
    + eapply build_fuel_mono; [|exact Hl]. lia.
    + eapply build_fuel_mono; [|exact Hr]. lia.
    + rewrite build_step_split by done. cbv zeta. fold sorted. fold mid.
      by rewrite Hl, Hr.
  - destruct (build_enough_fuel fuel segs Hne Hfuel) as [node Hnode].
    exists node. split_and!; [done| |].
    + destruct (build_enough_fuel fuel sorted) as [node' Hnode'].
      { intros Hnil. by apply sort_by_lower_nil_inv in Hnil. }
      { unfold sorted. by rewrite sort_by_lower_length. }
      rewrite Hnode'. unfold sorted in *. rewrite sort_by_lower_idemp.
      do 2 f_equal.
      (* the two trees: both builds sort first, and the sorted lists agree *)
      destruct (decide (length segs = 1%nat)) as [H1|H1].
      * destruct segs as [|s [|? ?]]; try done. simpl in Hnode'.
        congruence.
      * destruct fuel as [|fuel]; [done|].
        rewrite build_step_split in Hnode by done.
        rewrite build_step_split in Hnode'
          by (by rewrite sort_by_lower_length).
        cbv zeta in *. rewrite sort_by_lower_idemp in Hnode'.
        rewrite Hnode in Hnode'. by injection Hnode'.
    + intros fuel' Hle. by eapply build_fuel_mono.
Qed.

Lemma build_leaf_or_midpoint_split_witness :
  [(3, 4); (2, 7); (5, 8)] ≠ [] ∧ (length [(3, 4); (2, 7); (5, 8)] ≤ 3)%nat
  ∧ ∃ node,
      Var2._build_tree_recursive 3 [(3, 4); (2, 7); (5, 8)]
        = Ok (node, [(2, 7); (3, 4); (5, 8)])
      ∧ Var2._build_tree_recursive 3 [(2, 7); (3, 4); (5, 8)]
        = Ok (node, [(2, 7); (3, 4); (5, 8)]).
Proof.
  split; [discriminate|]. split; [simpl; lia|].
  destruct (build_leaf_or_midpoint_split 3 [(3, 4); (2, 7); (5, 8)]
              ltac:(discriminate) ltac:(simpl; lia))
    as (_ & _ & node & H1 & H2 & _).
  exists node. split; [exact H1 | exact H2].
Defined.

(** ** [contains] and [search] *)

Lemma Var2_contains_scan_true L H segs :
  Var2.contains_scan L H segs = true ↔ ∃ stored, stored ∈ segs ∧ nests_in L H stored.
Proof.
  induction segs as [|[l h] rest IH]; simpl.
  - split; [done|]. intros (s & Hs & _). by apply elem_of_nil in Hs.
  - destruct (Z.leb_spec l L) as [HlL|HlL], (Z.leb_spec H h) as [HHh|HHh]; simpl;
      try (rewrite IH; split;
           [ intros (s & Hs & Hn); exists s; split; [by right | done]
           | intros (s & Hs & Hn); apply elem_of_cons in Hs as [->|Hs];
             [ unfold nests_in in Hn; simpl in Hn; lia | by exists s ] ]).
    split; [|done]. intros _. exists (l, h). split; [by left|].
    unfold nests_in. simpl. lia.
Qed.

Lemma Lab_contains_scan_true L H segs :
  Lab.contains_scan L H segs = true ↔ ∃ stored, stored ∈ segs ∧ nests_in L H stored.
Proof.
  induction segs as [|[l h] rest IH]; simpl.
  - split; [done|]. intros (s & Hs & _). by apply elem_of_nil in Hs.
  - destruct (Z.leb_spec l L) as [HlL|HlL], (Z.leb_spec H h) as [HHh|HHh]; simpl;
      try (rewrite IH; split;
           [ intros (s & Hs & Hn); exists s; split; [by right | done]
           | intros (s & Hs & Hn); apply elem_of_cons in Hs as [->|Hs];
             [ unfold nests_in in Hn; simpl in Hn; lia | by exists s ] ]).
    split; [|done]. intros _. exists (l, h). split; [by left|].
    unfold nests_in. simpl. lia.
Qed.

(** C5: in both files [contains([L, H])] is [True] exactly when some
    stored segment [[l, h]] has [l <= L] and [H <= h]; on an empty store
    it is [False]. *)
Theorem contains_iff_some_stored_segment_nests (L H : Z) :
  (∀ self : Var2.RTree,
     Var2.contains (L, H) self = true
     ↔ ∃ l h, (l, h) ∈ Var2.segments self ∧ l ≤ L ∧ H ≤ h)
  ∧ (∀ self : Lab.RTree,
     Lab.contains (L, H) self = true
     ↔ ∃ l h, (l, h) ∈ Lab.segments self ∧ l ≤ L ∧ H ≤ h)
  ∧ Var2.contains (L, H) Var2.RTree_new = false
  ∧ Lab.contains (L, H) Lab.RTree_new = false.
Proof.
  split_and!; [| |done|done].
  - intros self. unfold Var2.contains. rewrite Var2_contains_scan_true. split.
    + intros ([l h] & Hs & Hl & Hh). by exists l, h.
    + intros (l & h & Hs & Hl & Hh). by exists (l, h).
  - intros self. unfold Lab.contains. rewrite Lab_contains_scan_true. split.
    + intros ([l h] & Hs & Hl & Hh). by exists l, h.
    + intros (l & h & Hs & Hl & Hh). by exists (l, h).
Qed.

(** A comprehension with a boolean test keeps what the proposition the
    test decides keeps. *)
Lemma comprehension_filter {A : Type} (test : A → bool) (P : A → Prop)
    `{∀ x, Decision (P x)} (xs : list A) :
  (∀ x, test x = true ↔ P x) → List.filter test xs = filter P xs.
Proof.
  intros Htest. induction xs as [|x r IH]; simpl; [done|].
  rewrite filter_cons, IH. destruct (test x) eqn:Hx, (decide (P x)) as [HP|HP]; try done.
  - by apply Htest in Hx.
  - apply Htest in HP. congruence.
Qed.

Lemma search_contains_spec segs L H :
  search_contains segs (PList [L; H]) = Ok (filter (nests_in L H) segs).
Proof.
  unfold search_contains. simpl. f_equal. apply comprehension_filter.
  intros s. unfold nests_in. rewrite andb_true_iff, !Z.leb_le. done.
Qed.

Lemma search_intersects_spec segs L H :
  search_intersects segs (PList [L; H]) = Ok (filter (overlaps L H) segs).
Proof.
  unfold search_intersects. simpl. f_equal. apply comprehension_filter.
  intros s. unfold overlaps.
  rewrite negb_true_iff, orb_false_iff, !Z.ltb_ge. lia.
Qed.

Lemma search_left_of_spec segs X :
  search_left_of segs (PInt X) = Ok (filter (lies_left_of X) segs).
Proof.
  unfold search_left_of. f_equal. apply comprehension_filter.
  intros s. unfold lies_left_of. by rewrite Z.leb_le.
Qed.

(** C6: in both files a filtered search returns the stored segments that
    satisfy the predicate, in the order of the store: for [CONTAINS]
    those with [l <= L] and [H <= h], for [INTERSECTS] those with
    [not (h < L or H < l)], for [LEFT_OF] those with [h <= X]. *)
Theorem filtered_search_is_store_filter (L H X : Z) :
  (∀ self : Var2.RTree,
     Var2.search (Some "CONTAINS") (PList [L; H]) self
       = Ok (filter (λ s, seg_l s ≤ L ∧ H ≤ seg_h s) (Var2.segments self))
     ∧ Var2.search (Some "INTERSECTS") (PList [L; H]) self
       = Ok (filter (λ s, ¬ (seg_h s < L ∨ H < seg_l s)) (Var2.segments self))
     ∧ Var2.search (Some "LEFT_OF") (PInt X) self
       = Ok (filter (λ s, seg_h s ≤ X) (Var2.segments self)))
  ∧ (∀ self : Lab.RTree,
     Lab.search (Some "CONTAINS") (PList [L; H]) self
       = Ok (filter (λ s, seg_l s ≤ L ∧ H ≤ seg_h s) (Lab.segments self))
     ∧ Lab.search (Some "INTERSECTS") (PList [L; H]) self
       = Ok (filter (λ s, ¬ (seg_h s < L ∨ H < seg_l s)) (Lab.segments self))
     ∧ Lab.search (Some "LEFT_OF") (PInt X) self
       = Ok (filter (λ s, seg_h s ≤ X) (Lab.segments self))).
Proof.
  split; intros self; split_and!.
  - apply (search_contains_spec _ L H).
  - apply (search_intersects_spec _ L H).
  - apply (search_left_of_spec _ X).
  - apply (search_contains_spec _ L H).
  - apply (search_intersects_spec _ L H).
  - apply (search_left_of_spec _ X).
Qed.

(** C8: in [aaf-lab-var2.py], in every state of the index, [insert(s)] of
    a segment with [l <= h] returns, and right after it [contains(s)] is
    [True] and [s] is in the result of the unfiltered search. *)
Theorem inserted_segment_is_found (s : Segment) (Hs : valid_segment s)
    (self : Var2.RTree) :
  ∃ self', Var2.insert s self = Ok self'
    ∧ Var2.contains s self' = true
    ∧ ∃ results, Var2.search None PNone self' = Ok results ∧ s ∈ results.
Proof.
  destruct (Var2_insert_Ok s self) as (node & Hins & _).
  eexists. split; [exact Hins|].
  assert (s ∈ sort_by_lower (Var2.segments self ++ [s])) as Hin.
  { rewrite sort_by_lower_Permutation. apply elem_of_app. right. by left. }
  split.
  - destruct s as [l h]. unfold Var2.contains. simpl.
    apply Var2_contains_scan_true. exists (l, h). split; [done|].
    unfold nests_in. simpl. lia.
  - eexists. split; [reflexivity|]. done.
Qed.

Lemma inserted_segment_is_found_witness :
  valid_segment (2, 7)
  ∧ ∃ self', Var2.insert (2, 7) (Var2.mkRTree None [(3, 4)]) = Ok self'
      ∧ Var2.contains (2, 7) self' = true.
Proof.
  assert (valid_segment (2, 7)) as Hv by (unfold valid_segment; simpl; lia).
  split; [exact Hv|].
  destruct (inserted_segment_is_found (2, 7) Hv (Var2.mkRTree None [(3, 4)]))
    as (self' & Hins & Hc & _).
  exists self'. split; [exact Hins | exact Hc].
Defined.

(** ** The two files on the same insertions *)

Lemma ascending_valid n : Forall valid_segment (ascending n).
Proof.
  unfold ascending. apply Forall_fmap, Forall_forall. intros i _.
  unfold valid_segment. simpl. lia.
Qed.

(** 1100 segments of ascending lower bound make a path to the right that
    [_insert_node] walks call by call: with the whole of the default
    limit for these calls, and so with any part of it, [insert] raises
    [RecursionError] before the last segment is in. *)
Lemma ascending_exhausts_the_stack `{Stack} :
  (insert_frames ≤ sys_recursion_limit)%nat →
  insert_all (ascending 1100) Lab.RTree_new = Raise RecursionError.
Proof.
  intros Hle. apply (Lab_insert_all_raises_mono default_Stack); [exact Hle|].
  vm_compute. reflexivity.
Qed.




(** ** The lexer *)

Lemma string_app_cons c r t : String c r +:+ t = String c (r +:+ t).
Proof. done. Qed.

Lemma string_app_nil_l t : EmptyString +:+ t = t.
Proof. done. Qed.

Lemma string_app_nil_r s : s +:+ EmptyString = s.
Proof. induction s as [|c r IH]; [done|]. by rewrite string_app_cons, IH. Qed.

Lemma string_app_assoc s t u : (s +:+ t) +:+ u = s +:+ t +:+ u.
Proof. induction s as [|c r IH]; [done|]. by rewrite !string_app_cons, IH. Qed.

Lemma string_app_length s t :
  String.length (s +:+ t) = (String.length s + String.length t)%nat.
Proof. induction s as [|c r IH]; [done|]. rewrite string_app_cons. simpl. by rewrite IH. Qed.

Lemma all_chars_app cls s t :
  all_chars cls (s +:+ t) = all_chars cls s && all_chars cls t.
Proof.
  induction s as [|c r IH]; [done|]. rewrite string_app_cons. simpl.
  by rewrite IH, andb_assoc.
Qed.

Lemma span_rest_length cls s :
  (String.length (Lexer.span cls s).2 ≤ String.length s)%nat.
Proof.
  induction s as [|c r IH]; simpl; [done|].
  destruct (cls c); simpl; [|done].
  destruct (Lexer.span cls r) as [run rest]. simpl in *. lia.
Qed.

(** A run stops at a character that is not of the class. *)
Lemma span_app_stop cls s c t :
  cls c = false →
  Lexer.span cls (s +:+ String c t)
  = ((Lexer.span cls s).1, (Lexer.span cls s).2 +:+ String c t).
Proof.
  intros Hc. induction s as [|a r IH].
  - rewrite string_app_nil_l. simpl. by rewrite Hc.
  - rewrite string_app_cons. simpl. destruct (cls a); [|done].
    rewrite IH. by destruct (Lexer.span cls r).
Qed.

Lemma span_all cls s :
  all_chars cls s = true → Lexer.span cls s = (s, EmptyString).
Proof.
  induction s as [|c r IH]; simpl; [done|].
  intros [Hc Hr]%andb_true_iff. by rewrite Hc, IH.
Qed.

Lemma span_run_all cls s : all_chars cls (Lexer.span cls s).1 = true.
Proof.
  induction s as [|c r IH]; simpl; [done|].
  destruct (cls c) eqn:Hc; [|done].
  destruct (Lexer.span cls r) as [run rest]. simpl in *. by rewrite Hc.
Qed.

Lemma is_digit_is_word c : is_digit c = true → is_word c = true.
Proof. unfold is_word. by intros ->. Qed.

(** The pattern at a word character, at one of the three punctuation
    characters, and at any other character. *)
Lemma pattern_word c r :
  is_word c = true →
  Lexer.pattern (String c r)
  = Some (String c (Lexer.span is_word r).1, (Lexer.span is_word r).2).
Proof.
  intros Hc. unfold Lexer.pattern, Lexer.re_alt, Lexer.re_plus. simpl.
  rewrite Hc. by destruct (Lexer.span is_word r).
Qed.

Lemma pattern_punct c r :
  is_punct c = true →
  Lexer.pattern (String c r) = Some (String c EmptyString, r).
Proof.
  unfold is_punct. rewrite !orb_true_iff, !bool_decide_eq_true.
  by intros [[-> | ->] | ->].
Qed.

Lemma pattern_separator c r :
  is_separator c = true → Lexer.pattern (String c r) = None.
Proof.
  unfold is_separator. rewrite !andb_true_iff, !negb_true_iff, !bool_decide_eq_false.
  intros [[[Hw H1] H2] H3].
  assert (is_digit c = false) as Hd.
  { destruct (is_digit c) eqn:Hd; [|done]. apply is_digit_is_word in Hd. congruence. }
  unfold Lexer.pattern, Lexer.re_alt, Lexer.re_plus, Lexer.re_char. simpl.
  rewrite Hw, Hd. by rewrite !decide_False by done.
Qed.

Lemma char_classes c :
  is_word c = true ∨ is_punct c = true ∨ is_separator c = true.
Proof.
  unfold is_separator, is_punct.
  destruct (is_word c); [by left|right].
  destruct (bool_decide (c = "["%char)); [by left|].
  destruct (bool_decide (c = "]"%char)); [by left|].
  destruct (bool_decide (c = ","%char)); [by left|by right].
Qed.

Lemma is_punct_not_word c : is_punct c = true → is_word c = false.
Proof.
  unfold is_punct. rewrite !orb_true_iff, !bool_decide_eq_true.
  by intros [[-> | ->] | ->].
Qed.

Lemma is_separator_not_word c : is_separator c = true → is_word c = false.
Proof.
  unfold is_separator. rewrite !andb_true_iff, !negb_true_iff.
  by intros [[[Hw _] _] _].
Qed.

Lemma pattern_rest_length s tok rest :
  Lexer.pattern s = Some (tok, rest) →
  (String.length rest < String.length s)%nat.
Proof.
  destruct s as [|c r]; [done|].
  destruct (char_classes c) as [Hc|[Hc|Hc]].
  - rewrite pattern_word by done. intros [= <- <-].
    pose proof (span_rest_length is_word r). simpl. lia.
  - rewrite pattern_punct by done. intros [= <- <-]. simpl. lia.
  - by rewrite pattern_separator.
Qed.

(** The length of the text is fuel enough for [findall]. *)
Lemma findall_fuel fuel1 fuel2 s :
  (String.length s ≤ fuel1)%nat → (String.length s ≤ fuel2)%nat →
  Lexer.findall fuel1 s = Lexer.findall fuel2 s.
Proof.
  revert fuel2 s. induction fuel1 as [|fuel1 IH]; intros fuel2 s H1 H2.
  { destruct s; [by destruct fuel2 | simpl in H1; lia]. }
  destruct fuel2 as [|fuel2].
  { destruct s; [done | simpl in H2; lia]. }
  destruct s as [|c r]; [done|].
  cbn [Lexer.findall].
  destruct (Lexer.pattern (String c r)) as [[tok rest]|] eqn:Hp.
  - apply pattern_rest_length in Hp. simpl in *.
    f_equal. apply IH; lia.
  - simpl in *. apply IH; lia.
Qed.

Lemma tokenize_nil : Lexer.tokenize EmptyString = [].
Proof. done. Qed.

Lemma tokenize_step c r :
  Lexer.tokenize (String c r)
  = match Lexer.pattern (String c r) with
    | Some (tok, rest) => tok :: Lexer.tokenize rest
    | None => Lexer.tokenize r
    end.
Proof.
  unfold Lexer.tokenize. cbn [String.length Lexer.findall].
  destruct (Lexer.pattern (String c r)) as [[tok rest]|] eqn:Hp.
  - apply pattern_rest_length in Hp. simpl in Hp.
    f_equal. apply findall_fuel; lia.
  - apply findall_fuel; simpl; lia.
Qed.

Lemma tokenize_word c r :
  is_word c = true →
  Lexer.tokenize (String c r)
  = String c (Lexer.span is_word r).1 :: Lexer.tokenize (Lexer.span is_word r).2.
Proof. intros Hc. by rewrite tokenize_step, pattern_word. Qed.

Lemma tokenize_punct c r :
  is_punct c = true →
  Lexer.tokenize (String c r) = String c EmptyString :: Lexer.tokenize r.
Proof. intros Hc. by rewrite tokenize_step, pattern_punct. Qed.

Lemma tokenize_separator c r :
  is_separator c = true → Lexer.tokenize (String c r) = Lexer.tokenize r.
Proof. intros Hc. by rewrite tokenize_step, pattern_separator. Qed.

(** A character that is not a word character ends the token before it:
    the text before it and the text from it on are tokenized apart. *)
Lemma tokenize_boundary s c t :
  is_word c = false →
  Lexer.tokenize (s +:+ String c t) = Lexer.tokenize s ++ Lexer.tokenize (String c t).
Proof.
  intros Hc.
  remember (String.length s) as n eqn:Hn.
  revert s Hn. induction (lt_wf n) as [n _ IH]. intros s ->.
  destruct s as [|a r]; [done|].
  rewrite string_app_cons.
  destruct (char_classes a) as [Ha|[Ha|Ha]].
  - rewrite !tokenize_word by done. rewrite span_app_stop by done. simpl.
    f_equal. eapply IH; [|done].
    pose proof (span_rest_length is_word r). simpl. lia.
  - rewrite !tokenize_punct by done. simpl. f_equal.
    eapply IH; [|done]. simpl. lia.
  - rewrite !tokenize_separator by done.
    eapply IH; [|done]. simpl. lia.
Qed.

(** A name is one token. *)
Lemma tokenize_name s : is_name s → Lexer.tokenize s = [s].
Proof.
  intros [Hne Hall]. destruct s as [|c r]; [done|].
  simpl in Hall. apply andb_true_iff in Hall as [Hc Hr].
  rewrite tokenize_word by done. by rewrite span_all.
Qed.

(** Every token is a word or one punctuation character. *)
Lemma tokenize_tokens command token :
  token ∈ Lexer.tokenize command →
  is_name token ∨ token ∈ ["["; "]"; ","].
Proof.
  remember (String.length command) as n eqn:Hn.
  revert command Hn. induction (lt_wf n) as [n _ IH]. intros s ->.
  destruct s as [|a r]; [by rewrite tokenize_nil; intros ?%elem_of_nil|].
  destruct (char_classes a) as [Ha|[Ha|Ha]].
  - rewrite tokenize_word by done. intros [->|Hin]%elem_of_cons.
    + left. split; [done|]. simpl. by rewrite Ha, span_run_all.
    + eapply IH; [|done|done].
      pose proof (span_rest_length is_word r). simpl. lia.
  - rewrite tokenize_punct by done. intros [->|Hin]%elem_of_cons.
    + right. unfold is_punct in Ha.
      rewrite !orb_true_iff, !bool_decide_eq_true in Ha.
      destruct Ha as [[-> | ->] | ->]; set_solver.
    + eapply IH; [|done|done]. simpl. lia.
  - rewrite tokenize_separator by done. intros Hin.
    eapply IH; [|done|done]. simpl. lia.
Qed.

(** ** [str] and [int] *)

Lemma rev_app_rev_app s t u :
  String.rev_app (String.rev_app s t) u = String.rev_app t (s +:+ u).
Proof.
  revert t. induction s as [|a r IH]; intros t; [done|].
  simpl. by rewrite IH.
Qed.

Lemma string_rev_involutive s : String.rev (String.rev s) = s.
Proof.
  unfold String.rev. rewrite rev_app_rev_app. simpl. apply string_app_nil_r.
Qed.

Lemma all_chars_rev_app cls s t :
  all_chars cls (String.rev_app s t) = all_chars cls s && all_chars cls t.
Proof.
  revert t. induction s as [|a r IH]; intros t; [done|].
  simpl. rewrite IH. simpl. destruct (cls a), (all_chars cls r); done.
Qed.

Lemma all_chars_rev cls s : all_chars cls (String.rev s) = all_chars cls s.
Proof. unfold String.rev. rewrite all_chars_rev_app. simpl. apply andb_true_r. Qed.

Lemma all_chars_impl (cls1 cls2 : ascii → bool) s :
  (∀ c, cls1 c = true → cls2 c = true) →
  all_chars cls1 s = true → all_chars cls2 s = true.
Proof.
  intros Himpl. induction s as [|c r IH]; simpl; [done|].
  intros [Hc Hr]%andb_true_iff. by rewrite (Himpl c Hc), IH.
Qed.

Lemma lstrip_no_space s :
  all_chars (λ c, negb (is_space c)) s = true → lstrip s = s.
Proof.
  destruct s as [|c r]; simpl; [done|].
  intros [Hc _]%andb_true_iff. by apply negb_true_iff in Hc as ->.
Qed.

Lemma strip_no_space s :
  all_chars (λ c, negb (is_space c)) s = true → strip s = s.
Proof.
  intros Hs. unfold strip. rewrite (lstrip_no_space s) by done.
  rewrite lstrip_no_space by (by rewrite all_chars_rev).
  apply string_rev_involutive.
Qed.

Lemma is_word_not_space c : is_word c = true → negb (is_space c) = true.
Proof. by destruct c as [[] [] [] [] [] [] [] []]. Qed.

Lemma is_word_not_sign c : is_word c = true → c ≠ "-"%char ∧ c ≠ "+"%char.
Proof. by destruct c as [[] [] [] [] [] [] [] []]. Qed.

Lemma strip_name s : all_chars is_word s = true → strip s = s.
Proof.
  intros Hs. apply strip_no_space.
  revert Hs. apply all_chars_impl, is_word_not_space.
Qed.

(** [int] of a string that needs no stripping and starts with no sign. *)
Lemma py_int_unsigned c r :
  strip (String c r) = String c r → c ≠ "-"%char → c ≠ "+"%char →
  py_int (String c r)
  = match int_digits AtStart 0 (String c r) with
    | Some n =>
        if max_str_digits <? count_digits (String c r) then Raise ValueError
        else Ok n
    | None => Raise ValueError
    end.
Proof.
  intros Hstrip Hminus Hplus. unfold py_int. rewrite Hstrip.
  by destruct c as [[] [] [] [] [] [] [] []].
Qed.

(** [int] raises nothing but [ValueError]. *)
Lemma py_int_raises s e : py_int s = Raise e → e = ValueError.
Proof.
  unfold py_int. destruct (strip s) as [|c r].
  { simpl. congruence. }
  destruct c as [[] [] [] [] [] [] [] []];
    match goal with
    | |- context [int_digits ?st ?acc ?body] =>
        destruct (int_digits st acc body);
        [destruct (max_str_digits <? count_digits body)|]
    end; congruence.
Qed.

Lemma digit_value_bounds c d : digit_value c = Some d → 0 ≤ d ≤ 9.
Proof.
  unfold digit_value, is_digit.
  destruct (48 <=? code c)%N eqn:H1, (code c <=? 57)%N eqn:H2; simpl; try done.
  intros [= <-]. apply N.leb_le in H1, H2. lia.
Qed.

Lemma int_digits_nonneg st acc s n :
  0 ≤ acc → int_digits st acc s = Some n → 0 ≤ n.
Proof.
  revert st acc. induction s as [|c r IH]; intros st acc Hacc; simpl.
  - destruct st; try done. by intros [= <-].
  - destruct (digit_value c) as [d|] eqn:Hd.
    + apply digit_value_bounds in Hd. apply IH. lia.
    + case_decide; [|done]. destruct st; try done. by apply IH.
Qed.

(** No token of the lexer is read as a negative [int]. *)
Lemma py_int_name_nonneg s n : is_name s → py_int s = Ok n → 0 ≤ n.
Proof.
  intros [Hne Hall]. destruct s as [|c r]; [done|].
  pose proof Hall as Hall'. simpl in Hall'.
  apply andb_true_iff in Hall' as [Hc _].
  destruct (is_word_not_sign c Hc) as [Hminus Hplus].
  rewrite py_int_unsigned by (done || by apply strip_name).
  destruct (int_digits AtStart 0 (String c r)) as [k|] eqn:Hk; [|done].
  destruct (max_str_digits <? count_digits (String c r)); [done|].
  intros [= <-]. by eapply int_digits_nonneg.
Qed.

(** ** The digit limit *)

Lemma digit_value_is_digit c :
  match digit_value c with
  | Some d => is_digit c = true ∧ 0 ≤ d ≤ 9
  | None => is_digit c = false
  end.
Proof.
  pose proof (digit_value_bounds c) as Hb. unfold digit_value in *.
  destruct (is_digit c); [|done]. split; [done|]. by apply Hb.
Qed.

Lemma count_digits_nonneg s : 0 ≤ count_digits s.
Proof. induction s as [|c r IH]; simpl; [done|]. destruct (is_digit c); lia. Qed.

(** A literal of [k] digits is an [int] below [10 ^ k]. *)
Lemma int_digits_upper st acc s n :
  0 ≤ acc → int_digits st acc s = Some n → n < (acc + 1) * 10 ^ count_digits s.
Proof.
  revert st acc. induction s as [|c r IH]; intros st acc Hacc.
  { simpl. destruct st; try done. intros [= <-]. lia. }
  cbn [int_digits count_digits].
  pose proof (count_digits_nonneg r) as Hr.
  pose proof (digit_value_is_digit c) as Hc.
  destruct (digit_value c) as [d|].
  - destruct Hc as [-> Hd]. intros Hn. apply IH in Hn; [|lia].
    rewrite Z.pow_add_r, Z.pow_1_r by lia.
    assert (0 < 10 ^ count_digits r) by (apply Z.pow_pos_nonneg; lia). nia.
  - rewrite Hc, Z.add_0_l. case_decide; [|done].
    destruct st; try done. by apply IH.
Qed.

(** A literal of digits only is an [int] of at least its first digit
    times [10 ^ k], for the [k] digits behind the first. *)
Lemma int_digits_lower acc s n :
  0 ≤ acc → all_chars is_digit s = true →
  int_digits AfterDigit acc s = Some n → acc * 10 ^ count_digits s ≤ n.
Proof.
  revert acc. induction s as [|c r IH]; intros acc Hacc.
  { simpl. intros _ [= <-]. lia. }
  cbn [int_digits count_digits all_chars].
  intros [Hdigit Hall]%andb_true_iff.
  pose proof (count_digits_nonneg r) as Hr.
  pose proof (digit_value_is_digit c) as Hc.
  destruct (digit_value c) as [d|]; [|congruence].
  destruct Hc as [-> Hd]. intros Hn. apply IH in Hn; [|lia|done].
  rewrite Z.pow_add_r, Z.pow_1_r by lia.
  assert (0 < 10 ^ count_digits r) by (apply Z.pow_pos_nonneg; lia). nia.
Qed.

(** What [int] returns is within the digit limit. *)
Lemma py_int_within_limit s n : py_int s = Ok n → within_digit_limit n.
Proof.
  unfold py_int, within_digit_limit.
  assert (∀ body (negative : bool),
            match int_digits AtStart 0 body with
            | Some k =>
                if max_str_digits <? count_digits body then Raise ValueError
                else Ok (if negative then - k else k)
            | None => Raise ValueError
            end = Ok n → Z.abs n < 10 ^ max_str_digits) as Hbody.
  { intros body negative.
    destruct (int_digits AtStart 0 body) as [k|] eqn:Hk; [|done].
    destruct (Z.ltb_spec max_str_digits (count_digits body)) as [|Hcount]; [done|].
    intros [= <-].
    pose proof (int_digits_nonneg _ _ _ _ (Z.le_refl 0) Hk) as Hk0.
    apply int_digits_upper in Hk; [|done].
    pose proof (count_digits_nonneg body) as Hb.
    pose proof (Z.pow_le_mono_r 10 _ _ ltac:(lia) Hcount) as Hpow.
    destruct negative; lia. }
  destruct (strip s) as [|c r]; [apply (Hbody EmptyString false)|].
  destruct c as [[] [] [] [] [] [] [] []];
    first [apply (Hbody _ false) | apply (Hbody _ true)].
Qed.

(** The digits [str] prints are read back by [int]. *)
Lemma int_digits_of_uint_acc d acc :
  int_digits AfterDigit (Z.pos acc) (NilEmpty.string_of_uint d)
  = Some (Z.pos (Pos.of_uint_acc d acc)).
Proof.
  revert acc. induction d; intros acc; simpl; [done|..];
    match goal with
    | |- int_digits _ ?z _ = Some (Z.pos (Pos.of_uint_acc _ ?p)) =>
        replace z with (Z.pos p) by lia; apply IHd
    end.
Qed.

Lemma int_digits_of_uint d :
  int_digits AfterDigit 0 (NilEmpty.string_of_uint d)
  = Some (Z.of_N (Pos.of_uint d)).
Proof.
  induction d; simpl; [done| |..];
    try (match goal with
         | |- int_digits _ ?z _ = Some (Z.pos (Pos.of_uint_acc _ ?p)) =>
             replace z with (Z.pos p) by lia; apply int_digits_of_uint_acc
         end).
  exact IHd.
Qed.

Lemma int_digits_start d :
  d ≠ Decimal.Nil →
  int_digits AtStart 0 (NilEmpty.string_of_uint d)
  = int_digits AfterDigit 0 (NilEmpty.string_of_uint d).
Proof. by destruct d. Qed.

Lemma string_of_uint_digits d :
  all_chars is_digit (NilEmpty.string_of_uint d) = true.
Proof. induction d; simpl; done. Qed.

Lemma string_of_uint_nonempty d :
  d ≠ Decimal.Nil → NilEmpty.string_of_uint d ≠ EmptyString.
Proof. by destruct d. Qed.

Lemma str_int_pos p : str_int (Z.pos p) = NilEmpty.string_of_uint (Pos.to_uint p).
Proof.
  unfold str_int. simpl. unfold NilZero.string_of_uint.
  pose proof (DecimalPos.Unsigned.to_uint_nonnil p).
  by destruct (Pos.to_uint p).
Qed.

Lemma str_int_neg p : str_int (Z.neg p) = String "-" (str_int (Z.pos p)).
Proof. done. Qed.

Lemma str_int_digits n :
  0 ≤ n → all_chars is_digit (str_int n) = true ∧ str_int n ≠ EmptyString.
Proof.
  intros Hn. destruct n as [|p|p]; [done| |lia].
  rewrite str_int_pos. split; [apply string_of_uint_digits|].
  apply string_of_uint_nonempty, DecimalPos.Unsigned.to_uint_nonnil.
Qed.

Lemma str_int_is_name n : 0 ≤ n → is_name (str_int n).
Proof.
  intros Hn. destruct (str_int_digits n Hn) as [Hd Hne]. split; [done|].
  revert Hd. apply all_chars_impl, is_digit_is_word.
Qed.

(** The numeral of a positive [int] does not start with 0. *)
Lemma to_uint_leading_digit p :
  ∃ c r d, NilEmpty.string_of_uint (Pos.to_uint p) = String c r
           ∧ digit_value c = Some d ∧ 1 ≤ d.
Proof.
  pose proof (DecimalPos.Unsigned.to_uint_nonnil p) as Hnil.
  pose proof (DecimalPos.Unsigned.to_uint_nonzero p) as Hzero.
  pose proof (DecimalPos.Unsigned.to_of (Pos.to_uint p)) as Hnorm.
  rewrite DecimalPos.Unsigned.of_to in Hnorm. simpl in Hnorm.
  destruct (Pos.to_uint p) as [|d'|d'|d'|d'|d'|d'|d'|d'|d'|d'] eqn:Hp; [done|..];
    try (eexists _, _, _; split; [reflexivity|]; split;
         [reflexivity | vm_compute; discriminate]).
  exfalso. unfold Decimal.unorm in Hnorm. simpl in Hnorm.
  pose proof (DecimalFacts.nb_digits_nzhead d') as Hlen.
  destruct (Decimal.nzhead d') eqn:Hhead; try done.
  injection Hnorm as ->. simpl in Hlen. lia.
Qed.

(** The numeral of an [int] within the digit limit has no more digits
    than the limit. *)
Lemma str_int_count_digits n k :
  1 ≤ k → 0 ≤ n < 10 ^ k → count_digits (str_int n) ≤ k.
Proof.
  intros Hk [Hn Hnk]. destruct n as [|p|p]; [simpl; lia| |lia].
  rewrite str_int_pos.
  destruct (to_uint_leading_digit p) as (c & r & d & Hs & Hd & Hd1).
  pose proof (string_of_uint_digits (Pos.to_uint p)) as Hall.
  pose proof (int_digits_of_uint (Pos.to_uint p)) as Hvalue.
  rewrite <- int_digits_start in Hvalue by apply DecimalPos.Unsigned.to_uint_nonnil.
  rewrite DecimalPos.Unsigned.of_to in Hvalue.
  rewrite Hs in Hall, Hvalue |- *.
  cbn [int_digits count_digits all_chars] in *. rewrite Hd in Hvalue.
  apply andb_true_iff in Hall as [-> Hall].
  apply int_digits_lower in Hvalue; [|lia|done].
  pose proof (count_digits_nonneg r) as Hr.
  destruct (decide (count_digits r < k)) as [|Hlong]; [lia|].
  pose proof (Z.pow_le_mono_r 10 k (count_digits r) ltac:(lia) ltac:(lia)) as Hpow.
  simpl in Hvalue. nia.
Qed.

Lemma py_int_str_int n :
  0 ≤ n → within_digit_limit n → py_int (str_int n) = Ok n.
Proof.
  intros Hn Hlimit.
  assert (count_digits (str_int n) ≤ max_str_digits) as Hcount.
  { apply str_int_count_digits; [done|].
    unfold within_digit_limit in Hlimit. lia. }
  destruct n as [|p|p]; [done| |lia].
  pose proof (str_int_is_name (Z.pos p) Hn) as [Hne Hall].
  destruct (str_int (Z.pos p)) as [|c r] eqn:Hs; [done|].
  pose proof Hall as Hall'. simpl in Hall'.
  apply andb_true_iff in Hall' as [Hc _].
  destruct (is_word_not_sign c Hc) as [Hminus Hplus].
  rewrite py_int_unsigned by (done || by apply strip_name).
  destruct (Z.ltb_spec max_str_digits (count_digits (String c r))); [lia|].
  rewrite <- Hs, str_int_pos.
  rewrite int_digits_start by apply DecimalPos.Unsigned.to_uint_nonnil.
  rewrite int_digits_of_uint, DecimalPos.Unsigned.of_to. done.
Qed.

(** ** The dispatcher *)

Lemma py_index_lookup {A : Type} (xs : list A) i x :
  xs !! i = Some x → py_index xs i = Ok x.
Proof. unfold py_index. by intros ->. Qed.

Lemma py_index_in_range {A : Type} (xs : list A) i :
  (i < length xs)%nat → ∃ x, xs !! i = Some x ∧ py_index xs i = Ok x.
Proof.
  intros Hi. destruct (lookup_lt_is_Some_2 xs i Hi) as [x Hx].
  exists x. split; [done|]. by apply py_index_lookup.
Qed.

Lemma handled_Ok {A : Type} (a : A) : handled (Ok a).
Proof. done. Qed.

Lemma handled_bind {A B : Type} (m : Result A) (f : A → Result B) :
  handled m → (∀ a, m = Ok a → handled (f a)) → handled (m ≫= f).
Proof. destruct m as [a|e]; simpl; [|done]. intros _ Hf. by apply Hf. Qed.

Lemma handled_py_index {A : Type} (xs : list A) i : handled (py_index xs i).
Proof. unfold py_index. destruct (xs !! i); simpl; auto. Qed.

Lemma handled_py_int s : handled (py_int s).
Proof.
  destruct (py_int s) as [n|e] eqn:Hs; simpl; [done|].
  left. by eapply py_int_raises.
Qed.

Lemma handled_token_int tokens i : handled (py_index tokens i ≫= py_int).
Proof.
  apply handled_bind; [apply handled_py_index|]. intros. apply handled_py_int.
Qed.

Lemma try_return_handled {T : Type} (body : Result (string * Machine T)) handler m :
  handled body → ∃ r, try_return body handler m = Ok r.
Proof.
  destruct body as [r|e]; simpl; [by exists r|].
  intros [-> | ->]; by eexists.
Qed.

Lemma parse_tokens {T : Type} `{RTreeClass T} command1 command2 (m : Machine T) :
  Lexer.tokenize command1 = Lexer.tokenize command2 →
  Parser.parse command1 m = Parser.parse command2 m.
Proof. unfold Parser.parse. by intros ->. Qed.

Section parse_returns.

Context {T : Type} `{RTreeClass T}.

(** What the dispatcher needs of the index for its searches to return. *)
Hypothesis search_all_returns : ∀ tree : T, ∃ r, RTree_search None PNone tree = Ok r.
Hypothesis search_pair_returns : ∀ q l h (tree : T),
  q ∈ ["CONTAINS"; "INTERSECTS"] →
  ∃ r, RTree_search (Some q) (PList [l; h]) tree = Ok r.
Hypothesis search_left_of_returns : ∀ x (tree : T),
  ∃ r, RTree_search (Some "LEFT_OF") (PInt x) tree = Ok r.

Lemma create_returns tokens (m : Machine T) :
  ∃ r, Parser.create tokens m = Ok r.
Proof.
  unfold Parser.create. case_decide as Hlen; [by eexists|].
  destruct (py_index_in_range tokens 1) as (name & _ & ->); [lia|]. simpl.
  destruct (trees m !! name); by eexists.
Qed.

Lemma insert_command_returns tokens (m : Machine T) :
  (∃ r, Parser.insert tokens m = Ok r)
  ∨ (∃ set_name tree s e,
       tokens !! 1%nat = Some set_name ∧ trees m !! set_name = Some tree
       ∧ RTree_insert s tree = Raise e
       ∧ Parser.insert tokens m = Raise e).
Proof.
  unfold Parser.insert. case_decide as Hlen; [left; by eexists|].
  destruct (py_index_in_range tokens 1) as (name & Hname & ->); [lia|]. simpl.
  destruct (trees m !! name) as [tree|] eqn:Htree; [|left; by eexists].
  pose proof (handled_token_int tokens 3) as Hl.
  destruct (py_index tokens 3 ≫= py_int) as [l|e]; simpl in *;
    [|left; destruct Hl as [-> | ->]; by eexists].
  pose proof (handled_token_int tokens 5) as Hh.
  destruct (py_index tokens 5 ≫= py_int) as [h|e]; simpl in *;
    [|left; destruct Hh as [-> | ->]; by eexists].
  destruct (l >? h); [left; by eexists|].
  destruct (RTree_insert (l, h) tree) as [tree'|e] eqn:Hins; simpl.
  - left. by eexists.
  - destruct e; simpl; try (left; by eexists);
      right; by eexists name, tree, (l, h), _.
Qed.

Lemma contains_command_returns tokens (m : Machine T) :
  ∃ r, Parser.contains tokens m = Ok r.
Proof.
  unfold Parser.contains. case_decide as Hlen; [by eexists|].
  destruct (py_index_in_range tokens 1) as (name & _ & ->); [lia|]. simpl.
  destruct (trees m !! name) as [tree|]; [|by eexists].
  apply try_return_handled.
  apply handled_bind; [apply handled_token_int|]. intros l _.
  apply handled_bind; [apply handled_token_int|]. intros h _.
  done.
Qed.

Lemma search_command_returns tokens (m : Machine T) :
  ∃ r, Parser.search tokens m = Ok r.
Proof.
  unfold Parser.search. case_decide as Hlen; [by eexists|].
  destruct (py_index_in_range tokens 1) as (name & _ & ->); [lia|]. simpl.
  destruct (trees m !! name) as [tree|]; [|by eexists].
  case_decide as Hlen2.
  { destruct (search_all_returns tree) as [r ->]. by eexists. }
  case_decide as Hwhere; [by eexists|].
  destruct (py_index_in_range tokens 3) as (token3 & _ & ->).
  { destruct (decide (length tokens < 4)%nat); [|lia]. exfalso. apply Hwhere. by left. }
  simpl. apply try_return_handled.
  case_decide as Hq.
  - apply handled_bind; [apply handled_token_int|]. intros l _.
    apply handled_bind; [apply handled_token_int|]. intros h _.
    destruct (search_pair_returns (upper token3) l h tree Hq) as [r ->]. done.
  - case_decide as Hq'; [|done].
    apply handled_bind; [apply handled_token_int|]. intros x _.
    rewrite Hq'. destruct (search_left_of_returns x tree) as [r ->]. done.
Qed.

Lemma print_tree_command_returns tokens (m : Machine T) :
  (∃ r, Parser.print_tree tokens m = Ok r)
  ∨ (∃ set_name tree e,
       tokens !! 1%nat = Some set_name ∧ trees m !! set_name = Some tree
       ∧ RTree_print_tree tree = Raise e
       ∧ Parser.print_tree tokens m = Raise e).
Proof.
  unfold Parser.print_tree. case_decide as Hlen; [left; by eexists|].
  destruct (py_index_in_range tokens 1) as (name & Hname & ->); [lia|]. simpl.
  destruct (trees m !! name) as [tree|] eqn:Htree; [|left; by eexists].
  destruct (RTree_print_tree tree) as [lines|e] eqn:Hprint.
  - left. by eexists.
  - right. by exists name, tree, e.
Qed.

(** A command returns a string, unless it is a [PRINT_TREE] of a set
    whose [print_tree] raises, or an [INSERT] into a set whose [insert]
    raises. *)
Lemma parse_returns_or_index_raises command (m : Machine T) :
  (∃ s m', Parser.parse command m = Ok (PyStr s, m'))
  ∨ (∃ set_name tree e,
       Lexer.tokenize command !! 1%nat = Some set_name
       ∧ trees m !! set_name = Some tree
       ∧ (RTree_print_tree tree = Raise e ∨ ∃ s, RTree_insert s tree = Raise e)
       ∧ Parser.parse command m = Raise e).
Proof.
  unfold Parser.parse.
  destruct (Lexer.tokenize command) as [|token0 rest] eqn:Htok.
  { left. by eexists _, _. }
  case_decide as Hin; [|left; by eexists _, _].
  case_decide as H1.
  { destruct (create_returns (token0 :: rest) m) as [[s m'] ->]. left. by eexists _, _. }
  case_decide as H2.
  { destruct (insert_command_returns (token0 :: rest) m)
      as [[[s m'] ->] | (name & tree & seg & e & Hname & Htree & Hins & ->)].
    - left. by eexists _, _.
    - right. exists name, tree, e. split_and!; try done. right. by exists seg. }
  case_decide as H3.
  { destruct (print_tree_command_returns (token0 :: rest) m)
      as [[[s m'] ->] | (name & tree & e & Hname & Htree & Hprint & ->)].
    - left. by eexists _, _.
    - right. exists name, tree, e. split_and!; try done. by left. }
  case_decide as H4.
  { destruct (contains_command_returns (token0 :: rest) m) as [[s m'] ->].
    left. by eexists _, _. }
  case_decide as H5.
  { destruct (search_command_returns (token0 :: rest) m) as [[s m'] ->].
    left. by eexists _, _. }
  exfalso. unfold COMMANDS in Hin.
  repeat (apply elem_of_cons in Hin as [Hin|Hin]; [done|]).
  by apply elem_of_nil in Hin.
Qed.

End parse_returns.

(** ** The dispatcher of [aaf-lab-var2.py] never raises *)

Lemma Var2_search_pair_returns q l h (tree : Var2.RTree) :
  q ∈ ["CONTAINS"; "INTERSECTS"] →
  ∃ r, Var2.search (Some q) (PList [l; h]) tree = Ok r.
Proof.
  intros Hq. apply elem_of_cons in Hq as [->|Hq].
  { eexists. apply (search_contains_spec _ l h). }
  apply list_elem_of_singleton in Hq as ->.
  eexists. apply (search_intersects_spec _ l h).
Qed.

Lemma Lab_search_pair_returns q l h (tree : Lab.RTree) :
  q ∈ ["CONTAINS"; "INTERSECTS"] →
  ∃ r, Lab.search (Some q) (PList [l; h]) tree = Ok r.
Proof.
  intros Hq. apply elem_of_cons in Hq as [->|Hq].
  { eexists. apply (search_contains_spec _ l h). }
  apply list_elem_of_singleton in Hq as ->.
  eexists. apply (search_intersects_spec _ l h).
Qed.


(** [print_tree] of [aaf-lab.py] on a tree gives its lines, or the tree
    is deeper than the stack has room. *)
Lemma Lab_print_node_cases frames node level :
  Lab.print_node frames node level = Ok (Lab_lines node level)
  ∨ (Lab.print_node frames node level = Raise RecursionError
     ∧ (frames < Lab_depth node)%nat).
Proof.
  revert node level. induction frames as [|frames IH]; intros [v l r] level.
  { right. split; [done|simpl; lia]. }
  cbn [Lab.print_node Lab_lines Lab_depth].
  assert (match r with
          | Some r' => Lab.print_node frames r' (S level)
          | None => Ok []
          end = Ok match r with Some r' => Lab_lines r' (S level) | None => [] end
          ∨ (match r with
             | Some r' => Lab.print_node frames r' (S level)
             | None => Ok []
             end = Raise RecursionError
             ∧ (frames < match r with Some r' => Lab_depth r' | None => 0 end)%nat))
    as [-> | [-> Hdeep]].
  { destruct r as [r'|]; [apply IH | by left]. }
  2: { right. split; [done|lia]. }
  assert (match l with
          | Some l' => Lab.print_node frames l' (S level)
          | None => Ok []
          end = Ok match l with Some l' => Lab_lines l' (S level) | None => [] end
          ∨ (match l with
             | Some l' => Lab.print_node frames l' (S level)
             | None => Ok []
             end = Raise RecursionError
             ∧ (frames < match l with Some l' => Lab_depth l' | None => 0 end)%nat))
    as [-> | [-> Hdeep]].
  { destruct l as [l'|]; [apply IH | by left]. }
  - by left.
  - right. split; [done|lia].
Qed.

Lemma Lab_print_tree_cases `{Stack} self :
  match Lab.root self with
  | None => Lab.print_tree self = Raise AttributeError
  | Some node =>
      Lab.print_tree self = Ok (Lab_lines node 0)
      ∨ (Lab.print_tree self = Raise RecursionError
         ∧ (S print_frames < Lab_depth node)%nat)
  end.
Proof.
  unfold Lab.print_tree. destruct (Lab.root self) as [node|]; [|done].
  apply Lab_print_node_cases.
Qed.

(** X2: in [aaf-lab.py], on a machine whose sets hold segments within the
    digit limit, a command returns a string, or its second token names a
    registered set and it raises one of two exceptions: [AttributeError],
    and the set has no root, that is, no insertion yet; or
    [RecursionError], and the tree of the set is deeper than the stack
    has room for the calls of [_insert_node] or of [print_tree].  The
    dispatcher raises nothing else. *)
Lemma Lab_parse_raises_on_no_root_or_deep_tree `{Stack} command
    (m : Machine Lab.RTree)
    (Hlimit : map_Forall (λ _ tree, Lab_within_limit tree) (trees m)) :
  (∃ s m', Parser.parse command m = Ok (PyStr s, m'))
  ∨ (∃ set_name tree,
       Lexer.tokenize command !! 1%nat = Some set_name
       ∧ trees m !! set_name = Some tree
       ∧ ((Parser.parse command m = Raise AttributeError ∧ Lab.root tree = None)
          ∨ (Parser.parse command m = Raise RecursionError
             ∧ (insert_frames `min` print_frames < Lab_root_depth tree)%nat))).
Proof.
  destruct (parse_returns_or_index_raises (T := Lab.RTree)) with (command := command) (m := m)
    as [Hok | (name & tree & e & Hname & Htree & Hraise & Hparse)]; try done.
  - intros tree. by eexists.
  - apply Lab_search_pair_returns.
  - intros x tree. eexists. apply (search_left_of_spec _ x).
  - by left.
  - right. exists name, tree. split_and!; try done.
    destruct Hraise as [Hprint | [s Hins]].
    + change (RTree_print_tree tree) with (Lab.print_tree tree) in Hprint.
      pose proof (Lab_print_tree_cases tree) as Hcases.
      unfold Lab_root_depth. destruct (Lab.root tree) as [node|].
      * destruct Hcases as [Hok | [Hrec Hdeep]]; [congruence|].
        right. split; [congruence|lia].
      * left. split; [congruence|done].
    + change (RTree_insert s tree) with (Lab.insert s tree) in Hins.
      destruct (Lab_insert_cases s tree) as [Hok | [Hrec Hdeep]]; [congruence|].
      right. split; [congruence|lia].
Qed.

Lemma Lab_parse_raises_on_no_root_or_deep_tree_witness :
  map_Forall (λ _ tree, Lab_within_limit tree)
    (trees (mkMachine {[ "s" := Lab.RTree_new ]} []))
  ∧ ((∃ s m', Parser.parse "PRINT_TREE s" (mkMachine {[ "s" := Lab.RTree_new ]} [])
              = Ok (PyStr s, m'))
     ∨ (∃ set_name tree,
          Lexer.tokenize "PRINT_TREE s" !! 1%nat = Some set_name
          ∧ trees (mkMachine {[ "s" := Lab.RTree_new ]} []) !! set_name = Some tree
          ∧ ((Parser.parse "PRINT_TREE s" (mkMachine {[ "s" := Lab.RTree_new ]} [])
              = Raise AttributeError ∧ Lab.root tree = None)
             ∨ (Parser.parse "PRINT_TREE s" (mkMachine {[ "s" := Lab.RTree_new ]} [])
                = Raise RecursionError
                ∧ (insert_frames `min` print_frames < Lab_root_depth tree)%nat)))).
Proof.
  assert (map_Forall (λ _ tree, Lab_within_limit tree)
            (trees (mkMachine {[ "s" := Lab.RTree_new ]} []))) as Hlimit.
  { apply map_Forall_singleton. split; [constructor | exact I]. }
  split; [exact Hlimit|].
  exact (Lab_parse_raises_on_no_root_or_deep_tree "PRINT_TREE s" _ Hlimit).
Defined.

(** C2 (the code departs from it): in [aaf-lab.py], [PRINT_TREE s] right
    after [CREATE s] does not come back with a result string; it raises
    [AttributeError], which nothing catches.  In [aaf-lab-var2.py] the
    same two commands print ["Tree is empty"] and return. *)
Theorem lab_print_tree_of_new_set_raises :
  ('(_, m) ← Parser.parse "CREATE s" (mkMachine (T := Lab.RTree) ∅ []);
   Parser.parse "PRINT_TREE s" m) = Raise AttributeError
  ∧ ('(_, m) ← Parser.parse "CREATE s" (mkMachine (T := Var2.RTree) ∅ []);
     '(v, m') ← Parser.parse "PRINT_TREE s" m;
     Ok (v, stdout m'))
    = Ok (PyStr "Tree for s printed above", ["Tree is empty"]).
Proof. split; vm_compute; reflexivity. Qed.



(** ** Signed bounds in a command *)

Lemma minus_is_separator : is_separator "-" = true.
Proof. done. Qed.

Lemma space_is_separator : is_separator " " = true.
Proof. done. Qed.

(** A bound written by [str] is one token: its digits, without the sign. *)
Lemma tokenize_str_int n : Lexer.tokenize (str_int n) = [str_int (Z.abs n)].
Proof.
  destruct n as [|p|p].
  - done.
  - apply tokenize_name, str_int_is_name. lia.
  - rewrite str_int_neg, tokenize_separator by done.
    apply tokenize_name, str_int_is_name. lia.
Qed.

Lemma tokenize_str_int_then n c t :
  is_word c = false →
  Lexer.tokenize (str_int n +:+ String c t)
  = str_int (Z.abs n) :: Lexer.tokenize (String c t).
Proof. intros Hc. by rewrite tokenize_boundary, tokenize_str_int. Qed.

Lemma tokenize_bounds l h :
  Lexer.tokenize (" [" +:+ str_int l +:+ ", " +:+ str_int h +:+ "]")
  = ["["; str_int (Z.abs l); ","; str_int (Z.abs h); "]"].
Proof.
  change (" [" +:+ str_int l +:+ ", " +:+ str_int h +:+ "]")
    with (String " " (String "[" (str_int l +:+ String "," (String " "
            (str_int h +:+ String "]" EmptyString))))).
  rewrite tokenize_separator, tokenize_punct by done.
  rewrite tokenize_str_int_then by done.
  rewrite tokenize_punct, tokenize_separator by done.
  rewrite tokenize_str_int_then by done.
  by rewrite tokenize_punct.
Qed.

Lemma tokenize_keyword_then (keyword : string) rest :
  is_name keyword →
  Lexer.tokenize (keyword +:+ String " " rest) = keyword :: Lexer.tokenize rest.
Proof.
  intros Hk. rewrite tokenize_boundary by done.
  by rewrite tokenize_name, tokenize_separator.
Qed.

Lemma tokenize_INSERT_command set_name l h :
  Lexer.tokenize (INSERT_command set_name l h)
  = "INSERT" :: Lexer.tokenize set_name
    ++ ["["; str_int (Z.abs l); ","; str_int (Z.abs h); "]"].
Proof.
  unfold INSERT_command.
  change ("INSERT " +:+ ?r) with ("INSERT" +:+ String " " r).
  rewrite tokenize_keyword_then by done.
  change (set_name +:+ " [" +:+ ?r) with (set_name +:+ String " " ("[" +:+ r)).
  rewrite tokenize_boundary by done. f_equal. f_equal.
  apply tokenize_bounds.
Qed.

Lemma tokenize_CONTAINS_command set_name l h :
  Lexer.tokenize (CONTAINS_command set_name l h)
  = "CONTAINS" :: Lexer.tokenize set_name
    ++ ["["; str_int (Z.abs l); ","; str_int (Z.abs h); "]"].
Proof.
  unfold CONTAINS_command.
  change ("CONTAINS " +:+ ?r) with ("CONTAINS" +:+ String " " r).
  rewrite tokenize_keyword_then by done.
  change (set_name +:+ " [" +:+ ?r) with (set_name +:+ String " " ("[" +:+ r)).
  rewrite tokenize_boundary by done. f_equal. f_equal.
  apply tokenize_bounds.
Qed.

Lemma tokenize_SEARCH_WHERE_command set_name query l h :
  Lexer.tokenize (SEARCH_WHERE_command set_name query l h)
  = "SEARCH" :: Lexer.tokenize set_name
    ++ "WHERE" :: Lexer.tokenize query
    ++ ["["; str_int (Z.abs l); ","; str_int (Z.abs h); "]"].
Proof.
  unfold SEARCH_WHERE_command.
  change ("SEARCH " +:+ ?r) with ("SEARCH" +:+ String " " r).
  rewrite tokenize_keyword_then by done.
  change (set_name +:+ " WHERE " +:+ ?r)
    with (set_name +:+ String " " ("WHERE" +:+ String " " r)).
  rewrite tokenize_boundary by done. f_equal. f_equal.
  rewrite tokenize_separator by done.
  rewrite tokenize_keyword_then by done. f_equal.
  change (query +:+ " [" +:+ ?r) with (query +:+ String " " ("[" +:+ r)).
  rewrite tokenize_boundary by done. f_equal.
  apply tokenize_bounds.
Qed.

Lemma tokenize_SEARCH_LEFT_OF_command set_name x :
  Lexer.tokenize (SEARCH_LEFT_OF_command set_name x)
  = "SEARCH" :: Lexer.tokenize set_name
    ++ ["WHERE"; "LEFT_OF"; str_int (Z.abs x)].
Proof.
  unfold SEARCH_LEFT_OF_command.
  change ("SEARCH " +:+ ?r) with ("SEARCH" +:+ String " " r).
  rewrite tokenize_keyword_then by done.
  change (set_name +:+ " WHERE LEFT_OF " +:+ ?r)
    with (set_name +:+ String " " ("WHERE" +:+ String " " ("LEFT_OF" +:+ String " " r))).
  rewrite tokenize_boundary by done. f_equal. f_equal.
  rewrite tokenize_separator by done.
  rewrite !tokenize_keyword_then by done.
  by rewrite tokenize_str_int.
Qed.

(** An [INSERT] command on an existing set whose bounds read as [l <= h]
    stores [[l, h]]. *)
Lemma insert_command_accepted {T : Type} `{RTreeClass T}
    (command : string) (m : Machine T) token0 set_name token3 token5
    (tree tree' : T) (l h : Z) :
  Lexer.tokenize command !! 0%nat = Some token0 →
  upper token0 = "INSERT" →
  Lexer.tokenize command !! 1%nat = Some set_name →
  trees m !! set_name = Some tree →
  Lexer.tokenize command !! 3%nat = Some token3 → py_int token3 = Ok l →
  Lexer.tokenize command !! 5%nat = Some token5 → py_int token5 = Ok h →
  l ≤ h →
  RTree_insert (l, h) tree = Ok tree' →
  Parser.parse command m
  = Ok (PyStr ("Range [" +:+ str_int l +:+ ", " +:+ str_int h
               +:+ "] has been added to " +:+ set_name),
        set_tree set_name tree' m).
Proof.
  intros Hcommand Hinsert Hname Hset Htoken3 Hl Htoken5 Hh Hlh Htree'.
  unfold Parser.parse.
  destruct (Lexer.tokenize command) as [|token0' rest] eqn:Htok; [done|].
  injection Hcommand as ->. rewrite Hinsert.
  rewrite decide_True by (unfold COMMANDS; set_solver).
  rewrite decide_False by done. rewrite decide_True by done.
  unfold Parser.insert.
  rewrite decide_False by (apply lookup_lt_Some in Htoken5; lia).
  rewrite (py_index_lookup _ _ _ Hname). simpl. rewrite Hset.
  rewrite (py_index_lookup _ _ _ Htoken3). simpl. rewrite Hl. simpl.
  rewrite (py_index_lookup _ _ _ Htoken5). simpl. rewrite Hh. simpl.
  destruct (Z.gtb_spec l h); [lia|]. by rewrite Htree'.
Qed.

(** An [INSERT] command on an existing set whose bounds read as [l > h]
    is turned down. *)
Lemma insert_command_turned_down {T : Type} `{RTreeClass T}
    (command : string) (m : Machine T) token0 set_name token3 token5
    (tree : T) (l h : Z) :
  Lexer.tokenize command !! 0%nat = Some token0 →
  upper token0 = "INSERT" →
  Lexer.tokenize command !! 1%nat = Some set_name →
  trees m !! set_name = Some tree →
  Lexer.tokenize command !! 3%nat = Some token3 → py_int token3 = Ok l →
  Lexer.tokenize command !! 5%nat = Some token5 → py_int token5 = Ok h →
  l > h →
  Parser.parse command m
  = Ok (PyStr "Invalid INSERT command: lower bound greater than upper bound", m).
Proof.
  intros Hcommand Hinsert Hname Hset Htoken3 Hl Htoken5 Hh Hlh.
  unfold Parser.parse.
  destruct (Lexer.tokenize command) as [|token0' rest] eqn:Htok; [done|].
  injection Hcommand as ->. rewrite Hinsert.
  rewrite decide_True by (unfold COMMANDS; set_solver).
  rewrite decide_False by done. rewrite decide_True by done.
  unfold Parser.insert.
  rewrite decide_False by (apply lookup_lt_Some in Htoken5; lia).
  rewrite (py_index_lookup _ _ _ Hname). simpl. rewrite Hset.
  rewrite (py_index_lookup _ _ _ Htoken3). simpl. rewrite Hl. simpl.
  rewrite (py_index_lookup _ _ _ Htoken5). simpl. rewrite Hh. simpl.
  by destruct (Z.gtb_spec l h); [|lia].
Qed.

Lemma within_digit_limit_abs n : within_digit_limit n → within_digit_limit (Z.abs n).
Proof. unfold within_digit_limit. by rewrite Z.abs_idemp. Qed.

(** C9, as the claim has it, fails: [INSERT s [ -5 , 3 ]] has a bound
    written with a minus sign and its segment is in order, [-5 <= 3]; it
    is read as [[5, 3]] and turned down, and nothing is stored. *)
Lemma insert_minus_five_three_is_turned_down :
  Parser.parse "INSERT s [ -5 , 3 ]" (mkMachine {[ "s" := Var2.RTree_new ]} [])
  = Ok (PyStr "Invalid INSERT command: lower bound greater than upper bound",
        mkMachine {[ "s" := Var2.RTree_new ]} [])
  ∧ Parser.parse "INSERT s [ -5 , 3 ]" (mkMachine {[ "s" := Lab.RTree_new ]} [])
    = Ok (PyStr "Invalid INSERT command: lower bound greater than upper bound",
          mkMachine {[ "s" := Lab.RTree_new ]} []).
Proof. split; vm_compute; reflexivity. Qed.

(** C9, amended: the lexer matches a ['-'] nowhere, so a minus sign in a
    command is skipped like a blank, and a command reads as the command
    with the absolute values of its bounds.  An [INSERT] with signed
    bounds [l], [h] within the digit limit on a registered set is turned
    down when [|l| > |h|], whatever the order of [l] and [h]; when
    [|l| <= |h|] it stores the segment of the absolute values, provided
    [insert] returns.  No token is ever read as a negative [int].  The
    lexer and the dispatcher are the same in both files. *)
Theorem minus_sign_is_dropped {T : Type} `{RTreeClass T} (m : Machine T)
    (set_name : string) (l h : Z) :
  (∀ before after,
     Lexer.tokenize (before +:+ String "-" after)
     = Lexer.tokenize before ++ Lexer.tokenize after)
  ∧ (∀ before after,
     Parser.parse (before +:+ String "-" after) m
     = Parser.parse (before +:+ String " " after) m)
  ∧ Parser.parse (INSERT_command set_name l h) m
    = Parser.parse (INSERT_command set_name (Z.abs l) (Z.abs h)) m
  ∧ Parser.parse (CONTAINS_command set_name l h) m
    = Parser.parse (CONTAINS_command set_name (Z.abs l) (Z.abs h)) m
  ∧ (∀ query,
     Parser.parse (SEARCH_WHERE_command set_name query l h) m
     = Parser.parse (SEARCH_WHERE_command set_name query (Z.abs l) (Z.abs h)) m)
  ∧ Parser.parse (SEARCH_LEFT_OF_command set_name l) m
    = Parser.parse (SEARCH_LEFT_OF_command set_name (Z.abs l)) m
  ∧ (∀ tree,
     is_name set_name → trees m !! set_name = Some tree →
     within_digit_limit l → within_digit_limit h →
     Z.abs l > Z.abs h →
     Parser.parse (INSERT_command set_name l h) m
     = Ok (PyStr "Invalid INSERT command: lower bound greater than upper bound", m))
  ∧ (∀ tree tree',
     is_name set_name → trees m !! set_name = Some tree →
     within_digit_limit l → within_digit_limit h →
     Z.abs l ≤ Z.abs h →
     RTree_insert (Z.abs l, Z.abs h) tree = Ok tree' →
     Parser.parse (INSERT_command set_name l h) m
     = Ok (PyStr ("Range [" +:+ str_int (Z.abs l) +:+ ", " +:+ str_int (Z.abs h)
                  +:+ "] has been added to " +:+ set_name),
           set_tree set_name tree' m))
  ∧ (∀ command token n,
     token ∈ Lexer.tokenize command → py_int token = Ok n → 0 ≤ n).
Proof.
  split_and!.
  - intros before after.
    by rewrite tokenize_boundary, tokenize_separator.
  - intros before after. apply parse_tokens.
    by rewrite !tokenize_boundary, !tokenize_separator.
  - apply parse_tokens. by rewrite !tokenize_INSERT_command, !Z.abs_idemp.
  - apply parse_tokens. by rewrite !tokenize_CONTAINS_command, !Z.abs_idemp.
  - intros query. apply parse_tokens.
    by rewrite !tokenize_SEARCH_WHERE_command, !Z.abs_idemp.
  - apply parse_tokens. by rewrite !tokenize_SEARCH_LEFT_OF_command, !Z.abs_idemp.
  - intros tree Hname Hset Hl Hh Hlh.
    pose proof (tokenize_INSERT_command set_name l h) as Htok.
    rewrite (tokenize_name set_name Hname) in Htok.
    eapply (insert_command_turned_down _ m "INSERT" set_name
              (str_int (Z.abs l)) (str_int (Z.abs h)) tree);
      rewrite ?Htok; try done.
    + apply py_int_str_int; [lia | by apply within_digit_limit_abs].
    + apply py_int_str_int; [lia | by apply within_digit_limit_abs].
  - intros tree tree' Hname Hset Hl Hh Hlh Htree'.
    pose proof (tokenize_INSERT_command set_name l h) as Htok.
    rewrite (tokenize_name set_name Hname) in Htok.
    eapply (insert_command_accepted _ m "INSERT" set_name
              (str_int (Z.abs l)) (str_int (Z.abs h)) tree tree');
      rewrite ?Htok; try done.
    + apply py_int_str_int; [lia | by apply within_digit_limit_abs].
    + apply py_int_str_int; [lia | by apply within_digit_limit_abs].
  - intros command token n Htoken Hn.
    apply tokenize_tokens in Htoken as [Hname|Hpunct].
    + by eapply py_int_name_nonneg.
    + repeat (apply elem_of_cons in Hpunct as [->|Hpunct]; [done|]).
      by apply elem_of_nil in Hpunct.
Qed.

Lemma minus_sign_is_dropped_witness :
  is_name "s"
  ∧ trees (mkMachine {[ "s" := Var2.RTree_new ]} []) !! "s" = Some Var2.RTree_new
  ∧ within_digit_limit (-5) ∧ within_digit_limit 10 ∧ within_digit_limit 3
  ∧ Z.abs (-5) ≤ Z.abs 10 ∧ Z.abs (-5) > Z.abs 3
  ∧ Parser.parse (INSERT_command "s" (-5) 10) (mkMachine {[ "s" := Var2.RTree_new ]} [])
    = Ok (PyStr "Range [5, 10] has been added to s",
          set_tree "s"
            (Var2.mkRTree (Some (Var2.Leaf (5, 10) [(5, 10)] (5, 10))) [(5, 10)])
            (mkMachine {[ "s" := Var2.RTree_new ]} []))
  ∧ Parser.parse (INSERT_command "s" (-5) 3) (mkMachine {[ "s" := Var2.RTree_new ]} [])
    = Ok (PyStr "Invalid INSERT command: lower bound greater than upper bound",
          mkMachine {[ "s" := Var2.RTree_new ]} []).
Proof.
  assert (is_name "s") as Hname by (split; [discriminate | reflexivity]).
  assert (within_digit_limit (-5)) as H5 by (vm_compute; reflexivity).
  assert (within_digit_limit 10) as H10 by (vm_compute; reflexivity).
  assert (within_digit_limit 3) as H3 by (vm_compute; reflexivity).
  assert (Z.abs (-5) ≤ Z.abs 10) as Hle by (simpl; lia).
  assert (Z.abs (-5) > Z.abs 3) as Hgt by (simpl; lia).
  split_and!; [exact Hname | reflexivity | exact H5 | exact H10 | exact H3
               | exact Hle | exact Hgt | |].
  - destruct (minus_sign_is_dropped (mkMachine {[ "s" := Var2.RTree_new ]} []) "s" (-5) 10)
      as (_ & _ & _ & _ & _ & _ & _ & Hstore & _).
    exact (Hstore Var2.RTree_new
             (Var2.mkRTree (Some (Var2.Leaf (5, 10) [(5, 10)] (5, 10))) [(5, 10)])
             Hname eq_refl H5 H10 Hle eq_refl).
  - destruct (minus_sign_is_dropped (mkMachine {[ "s" := Var2.RTree_new ]} []) "s" (-5) 3)
      as (_ & _ & _ & _ & _ & _ & Hdown & _).
    exact (Hdown Var2.RTree_new Hname eq_refl H5 H3 Hgt).
Defined.

(** The command of the claim as it is written there, in both files. *)
Example insert_minus_five_ten :
  (∃ m', Parser.parse "INSERT s [ -5 , 10 ]" (mkMachine {[ "s" := Var2.RTree_new ]} [])
         = Ok (PyStr "Range [5, 10] has been added to s", m')
         ∧ Var2.segments <$> trees m' !! "s" = Some [(5, 10)])
  ∧ (∃ m', Parser.parse "INSERT s [ -5 , 10 ]" (mkMachine {[ "s" := Lab.RTree_new ]} [])
           = Ok (PyStr "Range [5, 10] has been added to s", m')
           ∧ Lab.segments <$> trees m' !! "s" = Some [(5, 10)]).
Proof.
  split; eexists; split; vm_compute; reflexivity.
Qed.

(** With the signs the other way round the bounds read in order, and a
    segment that was written with [l > h] is stored. *)
Example insert_minus_three_minus_five :
  ∃ m', Parser.parse "INSERT s [-3, -5]" (mkMachine {[ "s" := Var2.RTree_new ]} [])
        = Ok (PyStr "Range [3, 5] has been added to s", m')
        ∧ Var2.segments <$> trees m' !! "s" = Some [(3, 5)].
Proof.
  eexists; split; vm_compute; reflexivity.
Qed.

(** ** The test commands of [main] *)

(** [aaf-lab.py] lists the store in the order of insertion. *)
Example Lab_main_search_line :
  ∃ m, Lab_main = Ok m
       ∧ "Parsed result: Search results: [[10, 20], [5, 15]]" ∈ stdout m.
Proof. eexists. split; [vm_compute; reflexivity|]. set_solver. Qed.

(** [aaf-lab-var2.py] lists it sorted by lower bound, though [[3, 4]] was
    inserted first. *)
Example Var2_main_search_line :
  ∃ m, Var2_main = Ok m
       ∧ "Parsed result: Search results: [[2, 7], [3, 4], [4, 6], [5, 8], [5, 10]]"
         ∈ stdout m.
Proof. eexists. split; [vm_compute; reflexivity|]. set_solver. Qed.

(** Membership in an explicit list. *)
Ltac in_list := repeat first [apply list_elem_of_here | apply list_elem_of_further].

Ltac not_in_list :=
  let Hin := fresh "Hin" in
  intros Hin;
  repeat (apply elem_of_cons in Hin as [Hin|Hin]; [done|]);
  by apply elem_of_nil in Hin.

(** * Further properties of the code *)

(** ** The bounding-box tree and the store *)

#[global] Instance lower_le_trans : Transitive lower_le.
Proof. intros x y z. unfold lower_le. lia. Qed.

Lemma Sorted_lower_take n xs : Sorted lower_le xs → Sorted lower_le (take n xs).
Proof.
  intros Hs%Sorted_StronglySorted; [|apply _].
  apply StronglySorted_Sorted. rewrite <- (take_drop n xs) in Hs.
  by apply StronglySorted_app_1_l in Hs.
Qed.

Lemma Sorted_lower_drop n xs : Sorted lower_le xs → Sorted lower_le (drop n xs).
Proof.
  intros Hs%Sorted_StronglySorted; [|apply _].
  apply StronglySorted_Sorted. rewrite <- (take_drop n xs) in Hs.
  by apply StronglySorted_app_1_r in Hs.
Qed.

Lemma build_leaves fuel segs node segs' :
  Var2._build_tree_recursive fuel segs = Ok (node, segs') →
  leaves node = sort_by_lower segs ∧ segs' = sort_by_lower segs.
Proof.
  revert segs node segs'. induction fuel as [|fuel IH]; intros segs node segs' Hb.
  { done. }
  destruct (decide (length segs = 1%nat)) as [H1|H1].
  - destruct segs as [|s [|? ?]]; try done.
    rewrite build_step_leaf in Hb. by injection Hb as <- <-.
  - rewrite build_step_split in Hb by done. cbv zeta in Hb.
    bind_inv Hb. destruct a as [nl sl].
    bind_inv Hb. destruct a as [nr sr].
    simpl in Hb. injection Hb as <- <-. simpl. split; [|done].
    apply IH in Ha as [-> _]. apply IH in Ha0 as [-> _].
    rewrite (sort_by_lower_sorted_id (take _ _))
      by apply Sorted_lower_take, sort_by_lower_Sorted.
    rewrite (sort_by_lower_sorted_id (drop _ _))
      by apply Sorted_lower_drop, sort_by_lower_Sorted.
    apply take_drop.
Qed.

Lemma build_median_split fuel segs node segs' :
  Var2._build_tree_recursive fuel segs = Ok (node, segs') → median_split node.
Proof.
  revert segs node segs'. induction fuel as [|fuel IH]; intros segs node segs' Hb.
  { done. }
  destruct (decide (length segs = 1%nat)) as [H1|H1].
  - destruct segs as [|s [|? ?]]; try done.
    rewrite build_step_leaf in Hb. by injection Hb as <- <-.
  - rewrite build_step_split in Hb by done. cbv zeta in Hb.
    bind_inv Hb. destruct a as [nl sl].
    bind_inv Hb. destruct a as [nr sr].
    simpl in Hb. injection Hb as <- <-. simpl.
    split; [|split; by eapply IH].
    apply build_leaves in Ha as [-> _]. apply build_leaves in Ha0 as [-> _].
    rewrite !sort_by_lower_length, length_take, length_drop, !sort_by_lower_length.
    set (n := length segs).
    pose proof (Nat.div_mod_eq n 2) as Hdm.
    pose proof (Nat.mod_upper_bound n 2 ltac:(lia)) as Hm.
    lia.
Qed.

Lemma leaves_nonempty node : (1 ≤ length (leaves node))%nat.
Proof.
  induction node as [| c0 IH0 c1 IH1 b]; simpl; [lia|].
  rewrite length_app. lia.
Qed.

(** In a median-split tree the height is the logarithm of the number of
    leaves, rounded up. *)
Lemma median_split_height node :
  median_split node →
  (height node = 0 ∧ length (leaves node) = 1)%nat
  ∨ (1 ≤ height node ∧ 2 ^ height node + 2 ≤ 2 * length (leaves node))%nat.
Proof.
  induction node as [| c0 IH0 c1 IH1 b]; simpl; [by left|].
  intros ([Hle Hge] & H0 & H1). right. split; [lia|].
  rewrite length_app.
  pose proof (Nat.pow_nonzero 2 (height c0) ltac:(lia)) as Hp0.
  pose proof (Nat.pow_nonzero 2 (height c1) ltac:(lia)) as Hp1.
  destruct (IH0 H0) as [[Hh0 Hn0]|[Hh0 Hn0]], (IH1 H1) as [[Hh1 Hn1]|[Hh1 Hn1]];
    destruct (Nat.max_spec (height c0) (height c1)) as [[_ ->]|[_ ->]];
    rewrite ?Nat.pow_succ_r';
    try (rewrite Hh0 in Hp0 |- *); try (rewrite Hh1 in Hp1 |- *);
    rewrite ?Nat.pow_0_r; lia.
Qed.

(** ** The search tree of [aaf-lab.py] *)

Lemma insert_behind_Permutation x xs : insert_behind x xs ≡ₚ x :: xs.
Proof.
  induction xs as [|y r IH]; simpl; [done|].
  destruct (seg_l x <? seg_l y); [done|].
  rewrite IH. apply Permutation_swap.
Qed.

Lemma insert_behind_app_before x xs v ys :
  seg_l x < seg_l v →
  insert_behind x (xs ++ v :: ys) = insert_behind x xs ++ v :: ys.
Proof.
  intros Hxv. induction xs as [|y r IH]; simpl.
  - by destruct (Z.ltb_spec (seg_l x) (seg_l v)); [|lia].
  - destruct (seg_l x <? seg_l y); [done|]. by rewrite IH.
Qed.

Lemma insert_behind_app_after x xs v ys :
  Forall (λ y, seg_l y < seg_l v) xs → seg_l v ≤ seg_l x →
  insert_behind x (xs ++ v :: ys) = xs ++ v :: insert_behind x ys.
Proof.
  intros Hxs Hvx. induction Hxs as [|y r Hy Hr IH]; simpl.
  - by destruct (Z.ltb_spec (seg_l x) (seg_l v)); [lia|].
  - destruct (Z.ltb_spec (seg_l x) (seg_l y)); [lia|]. by rewrite IH.
Qed.

Lemma insert_node_inorder node s :
  search_tree node →
  inorder (Lab_placed node s) = insert_behind s (inorder node).
Proof.
  induction node as [v l r IHl IHr] using Lab_RTreeNode_ind.
  intros [Hl Hr]. simpl.
  destruct (Z.ltb_spec (seg_l s) (seg_l v)) as [Hlt|Hge].
  - rewrite insert_behind_app_before by done.
    destruct l as [l'|]; simpl; [|done].
    destruct Hl as [_ Hl]. by rewrite (IHl Hl).
  - rewrite insert_behind_app_after; [| |done].
    + destruct r as [r'|]; simpl; [|done].
      destruct Hr as [_ Hr]. by rewrite (IHr Hr).
    + destruct l as [l'|]; [by destruct Hl|constructor].
Qed.

Lemma insert_node_search_tree node s :
  search_tree node → search_tree (Lab_placed node s).
Proof.
  induction node as [v l r IHl IHr] using Lab_RTreeNode_ind.
  intros [Hl Hr]. simpl.
  destruct (Z.ltb_spec (seg_l s) (seg_l v)) as [Hlt|Hge].
  - destruct l as [l'|]; simpl.
    + destruct Hl as [Hall Hl]. split; [|done]. split; [|by apply IHl].
      rewrite insert_node_inorder by done.
      rewrite insert_behind_Permutation. by constructor.
    + split; [|done]. split; [|done]. by repeat constructor.
  - destruct r as [r'|]; simpl.
    + destruct Hr as [Hall Hr]. split; [done|]. split; [|by apply IHr].
      rewrite insert_node_inorder by done.
      rewrite insert_behind_Permutation. by constructor.
    + split; [done|]. split; [|done]. by repeat constructor.
Qed.

Lemma insert_by_lower_insert_behind x s xs :
  insert_by_lower x (insert_behind s xs) = insert_behind s (insert_by_lower x xs).
Proof.
  induction xs as [|y r IH]; simpl.
  - destruct (Z.leb_spec (seg_l x) (seg_l s)), (Z.ltb_spec (seg_l s) (seg_l x));
      try done; lia.
  - destruct (Z.ltb_spec (seg_l s) (seg_l y)), (Z.leb_spec (seg_l x) (seg_l y));
      simpl;
      repeat match goal with
        | |- context [Z.leb ?a ?b] => destruct (Z.leb_spec a b)
        | |- context [Z.ltb ?a ?b] => destruct (Z.ltb_spec a b)
        end; try done; try lia.
    by rewrite IH.
Qed.

(** Sorting a list with one more segment at its end puts the segment
    behind the segments of the same lower bound. *)
Lemma sort_by_lower_snoc xs s :
  sort_by_lower (xs ++ [s]) = insert_behind s (sort_by_lower xs).
Proof.
  induction xs as [|x r IH]; simpl; [done|].
  fold (sort_by_lower (r ++ [s])). fold (sort_by_lower r).
  by rewrite IH, insert_by_lower_insert_behind.
Qed.

Lemma Lab_insert_tree_of_store `{Stack} s self self' :
  Lab_tree_of_store self → Lab.insert s self = Ok self' → Lab_tree_of_store self'.
Proof.
  intros Hinv Hins. apply Lab_insert_inv in Hins as ->.
  unfold Lab_tree_of_store in *. simpl. destruct (Lab.root self) as [node|].
  - destruct Hinv as [Hst Hin]. split; [by apply insert_node_search_tree|].
    by rewrite insert_node_inorder, Hin, sort_by_lower_snoc.
  - by rewrite Hinv.
Qed.

Lemma Lab_insert_all_tree_of_store `{Stack} segs self self' :
  Lab_tree_of_store self → insert_all segs self = Ok self' → Lab_tree_of_store self'.
Proof.
  revert self. induction segs as [|s rest IH]; intros self Hinv; simpl.
  { by intros [= <-]. }
  change (RTree_insert s self) with (Lab.insert s self).
  destruct (Lab.insert s self) as [self1|e] eqn:Hins; simpl; [|done].
  apply IH. by eapply Lab_insert_tree_of_store.
Qed.

(** The lines of [print_tree]: one for each segment, read from the right
    of the tree to the left. *)
Lemma Lab_lines_of_inorder node level :
  ∃ levels, length levels = length (inorder node)
    ∧ Lab_lines node level = zip_with Lab_line levels (reverse (inorder node)).
Proof.
  revert level. induction node as [v l r IHl IHr] using Lab_RTreeNode_ind.
  intros level. simpl.
  assert (∃ levels_r, length levels_r = length (match r with Some r' => inorder r' | None => [] end)
            ∧ match r with Some r' => Lab_lines r' (S level) | None => [] end
              = zip_with Lab_line levels_r
                  (reverse (match r with Some r' => inorder r' | None => [] end)))
    as (levels_r & Hlen_r & ->).
  { destruct r as [r'|]; [apply IHr|by exists []]. }
  assert (∃ levels_l, length levels_l = length (match l with Some l' => inorder l' | None => [] end)
            ∧ match l with Some l' => Lab_lines l' (S level) | None => [] end
              = zip_with Lab_line levels_l
                  (reverse (match l with Some l' => inorder l' | None => [] end)))
    as (levels_l & Hlen_l & ->).
  { destruct l as [l'|]; [apply IHl|by exists []]. }
  exists (levels_r ++ level :: levels_l). split.
  - rewrite !length_app. simpl. lia.
  - rewrite reverse_app, reverse_cons, <- app_assoc.
    rewrite zip_with_app by (by rewrite length_reverse). done.
Qed.

(** ** More on the lexer *)

Lemma span_split cls s :
  s = (Lexer.span cls s).1 +:+ (Lexer.span cls s).2.
Proof.
  induction s as [|c r IH]; simpl; [done|].
  destruct (cls c); [|done].
  destruct (Lexer.span cls r) as [run rest]. simpl in *.
  by rewrite string_app_cons, <- IH.
Qed.

Lemma drop_separators_words s t :
  all_chars is_word s = true →
  drop_separators (s +:+ t) = s +:+ drop_separators t.
Proof.
  induction s as [|c r IH]; simpl; [done|].
  intros [Hc Hr]%andb_true_iff. rewrite string_app_cons. simpl.
  unfold is_separator at 1. rewrite Hc. simpl. by rewrite IH.
Qed.

Lemma tokenize_join_empty command :
  join_empty (Lexer.tokenize command) = drop_separators command.
Proof.
  remember (String.length command) as n eqn:Hn.
  revert command Hn. induction (lt_wf n) as [n _ IH]. intros s ->.
  destruct s as [|a r]; [done|].
  destruct (char_classes a) as [Ha|[Ha|Ha]].
  - rewrite tokenize_word by done. simpl.
    unfold is_separator. rewrite Ha. simpl. f_equal.
    rewrite (IH (String.length (Lexer.span is_word r).2)); [|
      pose proof (span_rest_length is_word r); simpl; lia | done].
    rewrite (span_split is_word r) at 3.
    by rewrite drop_separators_words by apply span_run_all.
  - rewrite tokenize_punct by done. simpl.
    assert (is_separator a = false) as ->.
    { unfold is_punct in Ha. unfold is_separator.
      rewrite !orb_true_iff, !bool_decide_eq_true in Ha.
      by destruct Ha as [[-> | ->] | ->]. }
    f_equal. eapply IH; [|done]. simpl. lia.
  - rewrite tokenize_separator by done. simpl. rewrite Ha.
    eapply IH; [|done]. simpl. lia.
Qed.

Lemma pattern_digits_dead s : Lexer.pattern s = pattern_without_digits s.
Proof.
  destruct s as [|c r]; [done|].
  destruct (char_classes c) as [Hc|[Hc|Hc]].
  - rewrite pattern_word by done.
    unfold pattern_without_digits, Lexer.re_alt, Lexer.re_plus. simpl.
    rewrite Hc. by destruct (Lexer.span is_word r).
  - rewrite pattern_punct by done.
    unfold is_punct in Hc. rewrite !orb_true_iff, !bool_decide_eq_true in Hc.
    by destruct Hc as [[-> | ->] | ->].
  - rewrite pattern_separator by done.
    pose proof (is_separator_not_word c Hc) as Hw.
    unfold is_separator in Hc.
    rewrite !andb_true_iff, !negb_true_iff, !bool_decide_eq_false in Hc.
    destruct Hc as [[[_ H1] H2] H3].
    unfold pattern_without_digits, Lexer.re_alt, Lexer.re_plus, Lexer.re_char. simpl.
    rewrite Hw. by rewrite !decide_False by done.
Qed.

Lemma tokenize_token_then_blank t rest :
  is_name t ∨ t ∈ ["["; "]"; ","] →
  Lexer.tokenize (t +:+ String " " rest) = t :: Lexer.tokenize rest.
Proof.
  intros [Hname|Hpunct].
  - by apply tokenize_keyword_then.
  - repeat (apply elem_of_cons in Hpunct as [->|Hpunct];
            [by rewrite string_app_cons, tokenize_punct, string_app_nil_l,
                  tokenize_separator by done|]).
    by apply elem_of_nil in Hpunct.
Qed.

Lemma tokenize_single_token t :
  is_name t ∨ t ∈ ["["; "]"; ","] → Lexer.tokenize t = [t].
Proof.
  intros [Hname|Hpunct].
  - by apply tokenize_name.
  - repeat (apply elem_of_cons in Hpunct as [->|Hpunct]; [done|]).
    by apply elem_of_nil in Hpunct.
Qed.

Lemma tokenize_join_blank tokens :
  Forall (λ t, is_name t ∨ t ∈ ["["; "]"; ","]) tokens →
  Lexer.tokenize (join_blank tokens) = tokens.
Proof.
  induction 1 as [|t rest Ht Hrest IH]; [done|].
  destruct rest as [|t' rest'].
  - by apply tokenize_single_token.
  - change (join_blank (t :: t' :: rest'))
      with (t +:+ String " " (join_blank (t' :: rest'))).
    by rewrite tokenize_token_then_blank, IH.
Qed.

(** ** More on the dispatcher *)

Section dispatch.

Context {T : Type} `{RTreeClass T}.

Lemma parse_to_create command (m : Machine T) token0 :
  Lexer.tokenize command !! 0%nat = Some token0 → upper token0 = "CREATE" →
  Parser.parse command m
  = '(s, m') ← Parser.create (Lexer.tokenize command) m; Ok (PyStr s, m').
Proof.
  intros Htok Hup. unfold Parser.parse.
  destruct (Lexer.tokenize command) as [|t rest]; [done|].
  injection Htok as ->. by rewrite Hup.
Qed.

Lemma parse_to_insert command (m : Machine T) token0 :
  Lexer.tokenize command !! 0%nat = Some token0 → upper token0 = "INSERT" →
  Parser.parse command m
  = '(s, m') ← Parser.insert (Lexer.tokenize command) m; Ok (PyStr s, m').
Proof.
  intros Htok Hup. unfold Parser.parse.
  destruct (Lexer.tokenize command) as [|t rest]; [done|].
  injection Htok as ->. by rewrite Hup.
Qed.

Lemma parse_to_print_tree command (m : Machine T) token0 :
  Lexer.tokenize command !! 0%nat = Some token0 → upper token0 = "PRINT_TREE" →
  Parser.parse command m
  = '(s, m') ← Parser.print_tree (Lexer.tokenize command) m; Ok (PyStr s, m').
Proof.
  intros Htok Hup. unfold Parser.parse.
  destruct (Lexer.tokenize command) as [|t rest]; [done|].
  injection Htok as ->. by rewrite Hup.
Qed.

Lemma parse_to_contains command (m : Machine T) token0 :
  Lexer.tokenize command !! 0%nat = Some token0 → upper token0 = "CONTAINS" →
  Parser.parse command m
  = '(s, m') ← Parser.contains (Lexer.tokenize command) m; Ok (PyStr s, m').
Proof.
  intros Htok Hup. unfold Parser.parse.
  destruct (Lexer.tokenize command) as [|t rest]; [done|].
  injection Htok as ->. by rewrite Hup.
Qed.

Lemma parse_to_search command (m : Machine T) token0 :
  Lexer.tokenize command !! 0%nat = Some token0 → upper token0 = "SEARCH" →
  Parser.parse command m
  = '(s, m') ← Parser.search (Lexer.tokenize command) m; Ok (PyStr s, m').
Proof.
  intros Htok Hup. unfold Parser.parse.
  destruct (Lexer.tokenize command) as [|t rest]; [done|].
  injection Htok as ->. by rewrite Hup.
Qed.

Lemma parse_unknown command (m : Machine T) token0 :
  Lexer.tokenize command !! 0%nat = Some token0 → upper token0 ∉ COMMANDS →
  Parser.parse command m = Ok (PyStr "Unknown command", m).
Proof.
  intros Htok Hup. unfold Parser.parse.
  destruct (Lexer.tokenize command) as [|t rest]; [done|].
  injection Htok as ->. by rewrite decide_False.
Qed.

Lemma try_return_inv (body : Result (string * Machine T)) handler m r :
  try_return body handler m = Ok r → body = Ok r ∨ r = (handler, m).
Proof.
  destruct body as [r'|e]; simpl.
  - intros [= ->]. by left.
  - destruct e; intros [= <-]; by right.
Qed.

(** The machine a handler returns. *)
Lemma create_machine tokens (m : Machine T) s m' :
  Parser.create tokens m = Ok (s, m') →
  m' = m
  ∨ ∃ name, tokens !! 1%nat = Some name ∧ trees m !! name = None
            ∧ m' = set_tree name RTree_new m.
Proof.
  unfold Parser.create. case_decide as Hlen; [intros [= _ <-]; by left|].
  destruct (py_index_in_range tokens 1) as (name & Hname & ->); [lia|]. simpl.
  destruct (trees m !! name) eqn:Hset; intros [= _ <-]; [by left|].
  right. by exists name.
Qed.

Lemma insert_machine tokens (m : Machine T) s m' :
  Parser.insert tokens m = Ok (s, m') →
  m' = m
  ∨ ∃ name tree tree', tokens !! 1%nat = Some name ∧ trees m !! name = Some tree
                       ∧ m' = set_tree name tree' m.
Proof.
  unfold Parser.insert. case_decide as Hlen; [intros [= _ <-]; by left|].
  destruct (py_index_in_range tokens 1) as (name & Hname & ->); [lia|]. simpl.
  destruct (trees m !! name) as [tree|] eqn:Hset; [|intros [= _ <-]; by left].
  intros [Hbody|[= _ <-]]%try_return_inv; [|by left].
  bind_inv Hbody. bind_inv Hbody.
  destruct (a >? a0); [injection Hbody as _ <-; by left|].
  bind_inv Hbody. injection Hbody as _ <-.
  right. by exists name, tree, a1.
Qed.

Lemma print_tree_machine tokens (m : Machine T) s m' :
  Parser.print_tree tokens m = Ok (s, m') →
  ∃ lines, m' = print_lines lines m.
Proof.
  unfold Parser.print_tree. case_decide as Hlen.
  { intros [= _ <-]. exists []. destruct m. unfold print_lines. simpl.
    by rewrite app_nil_r. }
  destruct (py_index_in_range tokens 1) as (name & Hname & ->); [lia|]. simpl.
  destruct (trees m !! name) as [tree|] eqn:Hset.
  - intros Hp. bind_inv Hp. injection Hp as _ <-. by exists a.
  - intros [= _ <-]. exists []. destruct m. unfold print_lines. simpl.
    by rewrite app_nil_r.
Qed.

Lemma contains_machine tokens (m : Machine T) s m' :
  Parser.contains tokens m = Ok (s, m') → m' = m.
Proof.
  unfold Parser.contains. case_decide as Hlen; [by intros [= _ <-]|].
  destruct (py_index_in_range tokens 1) as (name & Hname & ->); [lia|]. simpl.
  destruct (trees m !! name) as [tree|] eqn:Hset; [|by intros [= _ <-]].
  intros [Hbody|[= _ <-]]%try_return_inv; [|done].
  bind_inv Hbody. bind_inv Hbody. by injection Hbody as _ <-.
Qed.

Lemma search_machine tokens (m : Machine T) s m' :
  Parser.search tokens m = Ok (s, m') → m' = m.
Proof.
  unfold Parser.search. case_decide as Hlen; [by intros [= _ <-]|].
  destruct (py_index_in_range tokens 1) as (name & Hname & ->); [lia|]. simpl.
  destruct (trees m !! name) as [tree|] eqn:Hset; [|by intros [= _ <-]].
  case_decide as Hlen2.
  { intros Hs. bind_inv Hs. by injection Hs as _ <-. }
  case_decide as Hwhere; [by intros [= _ <-]|].
  intros Hs. bind_inv Hs.
  apply try_return_inv in Hs as [Hbody|[= _ <-]]; [|done].
  case_decide as Hq.
  - bind_inv Hbody. bind_inv Hbody. bind_inv Hbody. by injection Hbody as _ <-.
  - case_decide as Hq'; [|by injection Hbody as _ <-].
    bind_inv Hbody. bind_inv Hbody. by injection Hbody as _ <-.
Qed.

End dispatch.

(** ** The tree of [aaf-lab-var2.py] after an insertion *)

Lemma bbox_consistent_cover node :
  bbox_consistent node →
  Forall (λ x, seg_l (Var2.bbox node) ≤ seg_l x ∧ seg_h x ≤ seg_h (Var2.bbox node))
    (leaves node)
  ∧ (∃ x, x ∈ leaves node ∧ seg_l x = seg_l (Var2.bbox node))
  ∧ (∃ x, x ∈ leaves node ∧ seg_h x = seg_h (Var2.bbox node)).
Proof.
  induction node as [s children b | c0 IH0 c1 IH1 b]; simpl.
  - intros [_ ->]. split_and!.
    + repeat constructor; lia.
    + exists s. split; [by left|done].
    + exists s. split; [by left|done].
  - intros (Hl & Hh & H0 & H1).
    destruct (IH0 H0) as (Hc0 & (x0 & Hx0 & Hlo0) & (y0 & Hy0 & Hhi0)).
    destruct (IH1 H1) as (Hc1 & (x1 & Hx1 & Hlo1) & (y1 & Hy1 & Hhi1)).
    rewrite Hl, Hh. split_and!.
    + apply Forall_app. split.
      * eapply Forall_impl; [exact Hc0|]. simpl. intros x [? ?]. lia.
      * eapply Forall_impl; [exact Hc1|]. simpl. intros x [? ?]. lia.
    + destruct (Z.min_spec (seg_l (Var2.bbox c0)) (seg_l (Var2.bbox c1)))
        as [[_ ->]|[_ ->]].
      * exists x0. split; [apply elem_of_app; by left|done].
      * exists x1. split; [apply elem_of_app; by right|done].
    + destruct (Z.max_spec (seg_h (Var2.bbox c0)) (seg_h (Var2.bbox c1)))
        as [[_ ->]|[_ ->]].
      * exists y1. split; [apply elem_of_app; by right|done].
      * exists y0. split; [apply elem_of_app; by left|done].
Qed.

Lemma node_count_leaves node :
  node_count node = (2 * length (leaves node) - 1)%nat.
Proof.
  induction node as [| c0 IH0 c1 IH1 b]; simpl; [done|].
  pose proof (leaves_nonempty c0). pose proof (leaves_nonempty c1).
  rewrite length_app. lia.
Qed.

Lemma Var2_print_node_length node level position :
  length (Var2.print_node node level position) = node_count node.
Proof.
  revert level position. induction node as [| c0 IH0 c1 IH1 b];
    intros level position; simpl; [done|].
  by rewrite length_app, IH0, IH1.
Qed.

(** What [RTree.insert] builds, with the store it leaves. *)
Lemma Var2_insert_built s self :
  ∃ node,
    Var2.insert s self = Ok (Var2.mkRTree (Some node) (leaves node))
    ∧ leaves node = sort_by_lower (Var2.segments self ++ [s])
    ∧ bbox_consistent node ∧ median_split node.
Proof.
  unfold Var2.insert. cbv zeta.
  destruct (build_enough_fuel (length (Var2.segments self ++ [s]))
              (Var2.segments self ++ [s])) as [node Hnode].
  { by destruct (Var2.segments self). }
  { done. }
  exists node. rewrite Hnode. simpl.
  destruct (build_leaves _ _ _ _ Hnode) as [Hleaves _]. rewrite Hleaves.
  split_and!; [done | done | by eapply build_bbox_consistent
              | by eapply build_median_split].
Qed.

(** X5: the builder of [aaf-lab-var2.py] never comes back from the empty
    list: whatever the recursion limit, the call ends in
    [RecursionError].  [RTree.insert] appends before it builds, so it
    never hands the builder an empty list and always returns. *)
Theorem build_on_empty_list_exhausts_any_limit :
  (∀ fuel, Var2._build_tree_recursive fuel [] = Raise RecursionError)
  ∧ (∀ s self, ∃ self', Var2.insert s self = Ok self').
Proof.
  split; [apply build_nil|].
  intros s self. destruct (Var2_insert_built s self) as (node & Hins & _).
  by eexists.
Qed.

(** X6: after [insert] of [aaf-lab-var2.py] the leaves of the tree, read
    from left to right, are the store, and the store is the old store
    with the new segment, sorted by lower bound. *)
Theorem var2_tree_leaves_are_the_store (s : Segment) (self : Var2.RTree) :
  ∃ node self',
    Var2.insert s self = Ok self'
    ∧ Var2.root self' = Some node
    ∧ leaves node = Var2.segments self'
    ∧ Var2.segments self' = sort_by_lower (Var2.segments self ++ [s])
    ∧ Var2.segments self' ≡ₚ Var2.segments self ++ [s].
Proof.
  destruct (Var2_insert_built s self) as (node & Hins & Hleaves & _).
  exists node, (Var2.mkRTree (Some node) (leaves node)).
  split_and!; [done | done | done | done |]. simpl.
  rewrite Hleaves. apply sort_by_lower_Permutation.
Qed.

(** X7: the box at the root of the tree [insert] builds is the tight
    cover of the store: every stored segment lies within it, its lower
    bound is the lower bound of a stored segment and its upper bound is
    the upper bound of a stored segment. *)
Theorem var2_root_bbox_is_tight_cover (s : Segment) (self : Var2.RTree) :
  ∃ node self',
    Var2.insert s self = Ok self'
    ∧ Var2.root self' = Some node
    ∧ (∀ x, x ∈ Var2.segments self' →
         seg_l (Var2.bbox node) ≤ seg_l x ∧ seg_h x ≤ seg_h (Var2.bbox node))
    ∧ (∃ x, x ∈ Var2.segments self' ∧ seg_l x = seg_l (Var2.bbox node))
    ∧ (∃ x, x ∈ Var2.segments self' ∧ seg_h x = seg_h (Var2.bbox node)).
Proof.
  destruct (Var2_insert_built s self) as (node & Hins & _ & Hbox & _).
  destruct (bbox_consistent_cover node Hbox) as (Hcover & Hlo & Hhi).
  exists node, (Var2.mkRTree (Some node) (leaves node)).
  split_and!; [done | done | | done | done].
  simpl. by apply Forall_forall.
Qed.

(** X8: the tree [insert] builds is balanced: at every internal node the
    right subtree has as many leaves as the left one or one more, and the
    height [h] of the tree over a store of [n] segments satisfies
    [2 ^ h < 2 * n]. *)
Theorem var2_tree_is_balanced (s : Segment) (self : Var2.RTree) :
  ∃ node self',
    Var2.insert s self = Ok self'
    ∧ Var2.root self' = Some node
    ∧ median_split node
    ∧ (2 ^ height node < 2 * length (Var2.segments self'))%nat.
Proof.
  destruct (Var2_insert_built s self) as (node & Hins & _ & _ & Hsplit).
  exists node, (Var2.mkRTree (Some node) (leaves node)).
  split_and!; [done | done | done |]. simpl.
  destruct (median_split_height node Hsplit) as [[-> ->]|[_ Hh]]; simpl; lia.
Qed.


(** ** The tree of [aaf-lab.py] after a sequence of insertions *)

Lemma insert_all_app {T : Type} `{RTreeClass T} xs ys (self : T) :
  insert_all (xs ++ ys) self = insert_all xs self ≫= insert_all ys.
Proof.
  revert self. induction xs as [|x r IH]; intros self; simpl; [done|].
  destruct (RTree_insert x self) as [self'|e]; simpl; [apply IH | done].
Qed.

Lemma Lab_new_tree_of_store : Lab_tree_of_store Lab.RTree_new.
Proof. done. Qed.

Section Lab_after_insert_all.

Context `{Stack}.

Lemma Lab_root_after_insert_all segs self self' :
  segs ≠ [] → insert_all segs self = Ok self' → is_Some (Lab.root self').
Proof.
  revert self. induction segs as [|s rest IH]; intros self Hne; [done|]. simpl.
  change (RTree_insert s self) with (Lab.insert s self).
  destruct (Lab.insert s self) as [self1|e] eqn:Hins; simpl; [|done].
  apply Lab_insert_inv in Hins as ->.
  destruct rest as [|s' rest'].
  - intros [= <-]. by eexists.
  - by apply IH.
Qed.

(** After insertions into a new index that returned: the store, and the
    tree read in order. *)
Lemma Lab_after_insert_all segs self :
  insert_all segs Lab.RTree_new = Ok self →
  Lab.segments self = segs
  ∧ match Lab.root self with
    | None => segs = []
    | Some node => search_tree node ∧ inorder node = sort_by_lower segs
    end.
Proof.
  intros Hall. pose proof (Lab_insert_all_inv _ _ _ Hall) as Hstore.
  simpl in Hstore. split; [done|].
  pose proof (Lab_insert_all_tree_of_store _ _ _ Lab_new_tree_of_store Hall) as Hinv.
  unfold Lab_tree_of_store in Hinv. by rewrite Hstore in Hinv.
Qed.

Lemma Lab_depth_after_insert_all segs self :
  insert_all segs Lab.RTree_new = Ok self →
  (Lab_root_depth self ≤ length segs)%nat.
Proof.
  intros Hall. destruct (Lab_after_insert_all _ _ Hall) as [_ Hroot].
  unfold Lab_root_depth. destruct (Lab.root self) as [node|]; [|lia].
  destruct Hroot as [_ Hin]. pose proof (Lab_depth_inorder node) as Hdepth.
  by rewrite Hin, sort_by_lower_length in Hdepth.
Qed.

End Lab_after_insert_all.

(** X10: in [aaf-lab.py] a sequence of insertions into a new index
    returns when it is no longer than the stack has room for calls of
    [_insert_node], and one.  Whenever it returns, the store is the
    sequence inserted, and the tree, when there is one, is a search tree
    on the lower bound (smaller lower bounds to the left, the others to
    the right) whose segments read in order are the store sorted by lower
    bound, equal lower bounds in the order of insertion. *)
Theorem lab_tree_is_search_tree_of_store `{Stack} (segs : list Segment) :
  ((length segs ≤ S insert_frames)%nat →
   ∃ self, insert_all segs Lab.RTree_new = Ok self)
  ∧ (∀ self,
       insert_all segs Lab.RTree_new = Ok self →
       Lab.segments self = segs
       ∧ match Lab.root self with
         | None => segs = []
         | Some node => search_tree node ∧ inorder node = sort_by_lower segs
         end).
Proof.
  split.
  - intros Hroom. destruct (Lab_insert_all_enough segs Hroom) as (self & Hall & _).
    by exists self.
  - apply Lab_after_insert_all.
Qed.

Lemma lab_tree_is_search_tree_of_store_witness :
  ∃ self node,
    insert_all [(10, 20); (5, 15); (10, 12)] Lab.RTree_new = Ok self
    ∧ Lab.segments self = [(10, 20); (5, 15); (10, 12)]
    ∧ Lab.root self = Some node
    ∧ inorder node = [(5, 15); (10, 20); (10, 12)].
Proof.
  destruct (lab_tree_is_search_tree_of_store [(10, 20); (5, 15); (10, 12)])
    as [Hreturns Hafter].
  destruct Hreturns as [self Hall]; [vm_compute; lia|].
  destruct (Hafter self Hall) as [Hstore Hroot].
  destruct (Lab.root self) as [node|] eqn:Hnode; [|discriminate Hroot].
  exists self, node. split_and!; [exact Hall | exact Hstore | exact Hnode |].
  exact (proj2 Hroot).
Defined.

(** X11: in [aaf-lab.py], a non-empty sequence of insertions of segments
    within the digit limit into a new index that is no longer than the
    stack has room for calls of
    [_insert_node] and of [print_tree] returns, and [print_tree] after it
    prints one line per stored segment, each the segment behind four
    blanks per level, the segments from the largest lower bound down to
    the smallest: the lines list the sorted store backwards.  After a
    longer sequence that returned, [print_tree] prints these lines or
    raises [RecursionError]. *)
Theorem lab_print_tree_lists_store_backwards `{Stack} (segs : list Segment)
    (Hne : segs ≠ []) (Hlimit : Forall segment_within_limit segs) :
  ((length segs ≤ insert_frames `min` print_frames)%nat →
   ∃ self levels,
     insert_all segs Lab.RTree_new = Ok self
     ∧ length levels = length segs
     ∧ Lab.print_tree self
       = Ok (zip_with Lab_line levels (reverse (sort_by_lower segs))))
  ∧ (∀ self,
       insert_all segs Lab.RTree_new = Ok self →
       (∃ levels,
          length levels = length segs
          ∧ Lab.print_tree self
            = Ok (zip_with Lab_line levels (reverse (sort_by_lower segs))))
       ∨ (Lab.print_tree self = Raise RecursionError
          ∧ (print_frames < length segs)%nat)).
Proof.
  assert (∀ self,
            insert_all segs Lab.RTree_new = Ok self →
            (∃ levels,
               length levels = length segs
               ∧ Lab.print_tree self
                 = Ok (zip_with Lab_line levels (reverse (sort_by_lower segs))))
            ∨ (Lab.print_tree self = Raise RecursionError
               ∧ (print_frames < length segs)%nat)) as Hcases.
  { intros self Hall.
    pose proof (Lab_depth_after_insert_all _ _ Hall) as Hdepth.
    destruct (Lab_after_insert_all _ _ Hall) as [_ Hroot].
    destruct (Lab_root_after_insert_all _ _ _ Hne Hall) as [node Hnode].
    pose proof (Lab_print_tree_cases self) as Hprint.
    unfold Lab_root_depth in Hdepth. rewrite Hnode in Hroot, Hprint, Hdepth.
    destruct Hroot as [_ Hin].
    destruct Hprint as [Hlines | [Hraise Hdeep]].
    - left. destruct (Lab_lines_of_inorder node 0) as (levels & Hlen & Heq).
      exists levels. split.
      + by rewrite Hlen, Hin, sort_by_lower_length.
      + by rewrite Hlines, Heq, Hin.
    - right. split; [done|lia]. }
  split; [|exact Hcases].
  intros Hroom.
  destruct (Lab_insert_all_enough segs) as (self & Hall & _); [lia|].
  destruct (Hcases self Hall) as [(levels & Hlen & Hlines) | [_ Hdeep]]; [|lia].
  by exists self, levels.
Qed.

Lemma lab_print_tree_lists_store_backwards_witness :
  [(10, 20); (5, 15)] ≠ []
  ∧ Forall segment_within_limit [(10, 20); (5, 15)]
  ∧ ∃ self levels,
      insert_all [(10, 20); (5, 15)] Lab.RTree_new = Ok self
      ∧ length levels = 2%nat
      ∧ Lab.print_tree self = Ok (zip_with Lab_line levels [(10, 20); (5, 15)]).
Proof.
  assert ([(10, 20); (5, 15)] ≠ []) as Hne by discriminate.
  assert (Forall segment_within_limit [(10, 20); (5, 15)]) as Hlimit.
  { repeat constructor; vm_compute; reflexivity. }
  split_and!; [exact Hne | exact Hlimit |].
  destruct (lab_print_tree_lists_store_backwards [(10, 20); (5, 15)] Hne Hlimit)
    as [Hroom _].
  apply Hroom. vm_compute. lia.
Defined.

(** X12: after the same non-empty sequence of insertions, the leaves of
    the bounding-box tree of [aaf-lab-var2.py] read from left to right are
    its store, and whenever the insertions into [aaf-lab.py] returned, as
    they do when the sequence is no longer than the stack has room for
    calls of [_insert_node], and one, the search tree of [aaf-lab.py]
    read in order is that same list. *)
Theorem lab_inorder_is_var2_store `{Stack} (segs : list Segment) (Hne : segs ≠ []) :
  ∃ var2 var2_root,
    insert_all segs Var2.RTree_new = Ok var2
    ∧ Var2.root var2 = Some var2_root
    ∧ leaves var2_root = Var2.segments var2
    ∧ (∀ lab : Lab.RTree,
         insert_all segs Lab.RTree_new = Ok lab →
         ∃ lab_root,
           Lab.root lab = Some lab_root ∧ inorder lab_root = Var2.segments var2)
    ∧ ((length segs ≤ S insert_frames)%nat →
       ∃ lab : Lab.RTree, insert_all segs Lab.RTree_new = Ok lab).
Proof.
  destruct (exists_last Hne) as (front & s & Hsegs).
  destruct (Var2_insert_all_Ok front Var2.RTree_new) as (mid & Hmid & _).
  destruct (Var2_insert_built s mid) as (var2_root & Hins & Hleaves & _).
  destruct (Var2_insert_all_Ok segs Var2.RTree_new) as (var2 & Hvar2 & Hstore2).
  assert (var2 = Var2.mkRTree (Some var2_root) (leaves var2_root)) as ->.
  { rewrite Hsegs, insert_all_app, Hmid in Hvar2. simpl in Hvar2.
    change (RTree_insert s mid) with (Var2.insert s mid) in Hvar2.
    rewrite Hins in Hvar2. simpl in Hvar2. congruence. }
  exists (Var2.mkRTree (Some var2_root) (leaves var2_root)), var2_root.
  split_and!; try done.
  - intros lab Hlab.
    destruct (Lab_after_insert_all _ _ Hlab) as [_ Hroot].
    destruct (Lab_root_after_insert_all _ _ _ Hne Hlab) as [lab_root Hnode].
    rewrite Hnode in Hroot. destruct Hroot as [_ Hin].
    exists lab_root. split; [done|]. rewrite Hin.
    simpl in Hstore2. rewrite Hstore2. by destruct segs.
  - intros Hroom. destruct (Lab_insert_all_enough segs Hroom) as (lab & Hlab & _).
    by exists lab.
Qed.

Lemma lab_inorder_is_var2_store_witness :
  [(3, 4); (2, 7); (3, 1)] ≠ []
  ∧ ∃ lab var2 lab_root var2_root,
      insert_all [(3, 4); (2, 7); (3, 1)] Lab.RTree_new = Ok lab
      ∧ insert_all [(3, 4); (2, 7); (3, 1)] Var2.RTree_new = Ok var2
      ∧ Lab.root lab = Some lab_root
      ∧ Var2.root var2 = Some var2_root
      ∧ inorder lab_root = Var2.segments var2
      ∧ leaves var2_root = Var2.segments var2.
Proof.
  assert ([(3, 4); (2, 7); (3, 1)] ≠ []) as Hne by discriminate.
  split; [exact Hne|].
  destruct (lab_inorder_is_var2_store [(3, 4); (2, 7); (3, 1)] Hne)
    as (var2 & var2_root & Hvar2 & Hroot2 & Hleaves & Hlab & Hroom).
  destruct Hroom as [lab Hall]; [vm_compute; lia|].
  destruct (Hlab lab Hall) as (lab_root & Hroot & Hin).
  exists lab, var2, lab_root, var2_root.
  split_and!; [exact Hall | exact Hvar2 | exact Hroot | exact Hroot2 | exact Hin
               | exact Hleaves].
Defined.

(** ** What the lexer yields *)

(** X13: the fourth alternative of the pattern, [\d+], never matches: a
    digit is a word character and is taken by [\w+] before.  The pattern
    without it matches the same at every position, so the tokens are the
    same. *)
Theorem digit_alternative_is_dead (s : string) :
  Lexer.pattern s = pattern_without_digits s
  ∧ (∀ c r, s = String c r → is_digit c = true →
       Lexer.pattern s = Lexer.re_plus is_word s).
Proof.
  split; [apply pattern_digits_dead|].
  intros c r -> Hd. rewrite pattern_word by (by apply is_digit_is_word).
  unfold Lexer.re_plus. simpl. rewrite (is_digit_is_word c Hd).
  by destruct (Lexer.span is_word r).
Qed.

(** X14: every token is a non-empty run of word characters or one of
    ["["], ["]"] and [","]; no token is empty and no token holds a blank,
    a sign or any other character. *)
Theorem tokens_are_words_or_punctuation (command token : string) :
  token ∈ Lexer.tokenize command →
  token ≠ EmptyString
  ∧ (all_chars is_word token = true ∨ token ∈ ["["; "]"; ","])
  ∧ all_chars (λ c, negb (is_separator c)) token = true.
Proof.
  intros [[Hne Hall]|Hpunct]%tokenize_tokens.
  - split_and!; [done | by left |].
    revert Hall. apply all_chars_impl. intros c Hc.
    unfold is_separator. by rewrite Hc.
  - repeat (apply elem_of_cons in Hpunct as [->|Hpunct];
            [split_and!; [done | right; in_list | done]|]).
    by apply elem_of_nil in Hpunct.
Qed.

Lemma tokens_are_words_or_punctuation_witness :
  "seg_1" ∈ Lexer.tokenize "INSERT seg_1 [5, 3]"
  ∧ "seg_1" ≠ EmptyString
  ∧ (all_chars is_word "seg_1" = true ∨ "seg_1" ∈ ["["; "]"; ","]).
Proof.
  assert ("seg_1" ∈ Lexer.tokenize "INSERT seg_1 [5, 3]") as Hin.
  { vm_compute. apply elem_of_cons. right. apply elem_of_cons. by left. }
  split; [exact Hin|].
  destruct (tokens_are_words_or_punctuation "INSERT seg_1 [5, 3]" "seg_1" Hin)
    as (Hne & Hshape & _).
  split; [exact Hne | exact Hshape].
Defined.

(** X15: the lexer loses nothing but the characters its pattern matches
    nowhere: the tokens put together in order are the command without
    those characters. *)
Theorem tokens_concatenate_to_the_command (command : string) :
  join_empty (Lexer.tokenize command) = drop_separators command.
Proof. apply tokenize_join_empty. Qed.

(** X16: the tokens of a command, joined by single blanks, are tokenized
    into the same tokens again. *)
Theorem tokenize_joined_tokens (command : string) :
  Lexer.tokenize (join_blank (Lexer.tokenize command)) = Lexer.tokenize command.
Proof.
  apply tokenize_join_blank, Forall_forall. intros t Ht.
  by apply tokenize_tokens in Ht.
Qed.

(** X17: a character that is not a word character ends the token before
    it, so the text before it and the text from it on are tokenized
    independently; if the pattern matches it nowhere it leaves no trace
    at all. *)
Theorem tokenize_splits_at_non_word_character (before after : string) (c : ascii)
    (Hc : is_word c = false) :
  Lexer.tokenize (before +:+ String c after)
  = Lexer.tokenize before ++ Lexer.tokenize (String c after)
  ∧ (is_separator c = true →
     Lexer.tokenize (before +:+ String c after)
     = Lexer.tokenize before ++ Lexer.tokenize after)
  ∧ (is_punct c = true →
     Lexer.tokenize (before +:+ String c after)
     = Lexer.tokenize before ++ String c EmptyString :: Lexer.tokenize after).
Proof.
  split_and!.
  - by apply tokenize_boundary.
  - intros Hsep. by rewrite tokenize_boundary, tokenize_separator.
  - intros Hp. by rewrite tokenize_boundary, tokenize_punct.
Qed.

Lemma tokenize_splits_at_non_word_character_witness :
  is_word "[" = false
  ∧ Lexer.tokenize ("INSERT seg" +:+ String "[" "5,3]")
    = Lexer.tokenize "INSERT seg" ++ Lexer.tokenize (String "[" "5,3]").
Proof.
  split; [reflexivity|].
  destruct (tokenize_splits_at_non_word_character "INSERT seg" "5,3]" "[" eq_refl)
    as [Hsplit _].
  exact Hsplit.
Defined.

Lemma tokenize_separators command :
  all_chars is_separator command = true → Lexer.tokenize command = [].
Proof.
  induction command as [|c r IH]; simpl; [done|].
  intros [Hc Hr]%andb_true_iff. rewrite tokenize_separator by done. by apply IH.
Qed.

(** ** The answers of the dispatcher *)

Section answers.

Context {T : Type} `{RTreeClass T}.

(** X18: a command with no token, that is, an empty one or one made of
    characters the pattern matches nowhere (blanks, signs, dots, ...),
    gets the answer ['Invalid command']; a command whose first token is
    none of the five keywords, whatever the case of its letters, gets
    ['Unknown command'].  Both leave the machine as it is. *)
Theorem commands_that_are_no_commands (command : string) (m : Machine T) :
  (all_chars is_separator command = true →
   Parser.parse command m = Ok (PyStr "Invalid command", m))
  ∧ (∀ token0,
       Lexer.tokenize command !! 0%nat = Some token0 →
       upper token0 ∉ COMMANDS →
       Parser.parse command m = Ok (PyStr "Unknown command", m)).
Proof.
  split.
  - intros Hsep. unfold Parser.parse. by rewrite tokenize_separators.
  - intros token0 Htok Hup. by eapply parse_unknown.
Qed.


Lemma parse_missing_set command (m : Machine T) token0 name :
  Lexer.tokenize command !! 0%nat = Some token0 →
  Lexer.tokenize command !! 1%nat = Some name →
  trees m !! name = None →
  upper token0 ∈ ["PRINT_TREE"; "SEARCH"]
  ∨ (upper token0 ∈ ["INSERT"; "CONTAINS"] ∧ (4 ≤ length (Lexer.tokenize command))%nat) →
  Parser.parse command m
  = Ok (PyStr ("Set " +:+ name +:+ " does not exist"), m).
Proof.
  intros Htok Hname Hset Hkey.
  pose proof (lookup_lt_Some _ _ _ Hname) as Hlen.
  destruct Hkey as [Hkey|[Hkey Hlen4]];
    repeat (apply elem_of_cons in Hkey as [Hkey|Hkey]);
    try (by apply elem_of_nil in Hkey).
  - rewrite (parse_to_print_tree _ _ _ Htok Hkey). unfold Parser.print_tree.
    rewrite decide_False by lia. rewrite (py_index_lookup _ _ _ Hname). simpl.
    by rewrite Hset.
  - rewrite (parse_to_search _ _ _ Htok Hkey). unfold Parser.search.
    rewrite decide_False by lia. rewrite (py_index_lookup _ _ _ Hname). simpl.
    by rewrite Hset.
  - rewrite (parse_to_insert _ _ _ Htok Hkey). unfold Parser.insert.
    rewrite decide_False by lia. rewrite (py_index_lookup _ _ _ Hname). simpl.
    by rewrite Hset.
  - rewrite (parse_to_contains _ _ _ Htok Hkey). unfold Parser.contains.
    rewrite decide_False by lia. rewrite (py_index_lookup _ _ _ Hname). simpl.
    by rewrite Hset.
Qed.

(** X19: [CREATE name] on a name that is not registered registers a new,
    empty index under it and reports the creation; on a registered name
    it changes nothing and reports that the set exists.  So whatever the
    first [CREATE name] did, the same command again finds the set. *)
Theorem create_registers_a_name_once (command : string) (m : Machine T)
    (token0 name : string)
    (Htoken0 : Lexer.tokenize command !! 0%nat = Some token0)
    (Hcreate : upper token0 = "CREATE")
    (Hname : Lexer.tokenize command !! 1%nat = Some name) :
  (trees m !! name = None →
   Parser.parse command m
   = Ok (PyStr ("Set " +:+ name +:+ " has been created"),
         set_tree name RTree_new m))
  ∧ (is_Some (trees m !! name) →
     Parser.parse command m
     = Ok (PyStr ("Set " +:+ name +:+ " already exists"), m))
  ∧ ∃ v m', Parser.parse command m = Ok (v, m')
      ∧ Parser.parse command m'
        = Ok (PyStr ("Set " +:+ name +:+ " already exists"), m').
Proof.
  pose proof (lookup_lt_Some _ _ _ Hname) as Hlen.
  assert (∀ m0 : Machine T,
            Parser.parse command m0
            = match trees m0 !! name with
              | Some _ => Ok (PyStr ("Set " +:+ name +:+ " already exists"), m0)
              | None => Ok (PyStr ("Set " +:+ name +:+ " has been created"),
                            set_tree name RTree_new m0)
              end) as Hparse.
  { intros m0. rewrite (parse_to_create _ _ _ Htoken0 Hcreate). unfold Parser.create.
    rewrite decide_False by lia. rewrite (py_index_lookup _ _ _ Hname). simpl.
    by destruct (trees m0 !! name). }
  split_and!.
  - intros Hnone. by rewrite Hparse, Hnone.
  - intros [tree Hsome]. by rewrite Hparse, Hsome.
  - destruct (trees m !! name) as [tree|] eqn:Hset.
    + eexists _, m. rewrite !Hparse, Hset. done.
    + eexists _, (set_tree name RTree_new m). rewrite !Hparse, Hset.
      split; [done|]. simpl. by rewrite lookup_insert_eq.
Qed.

(** X20: [PRINT_TREE] and [SEARCH] on a name that is not registered, and
    [INSERT] and [CONTAINS] with at least four tokens on such a name,
    answer ['Set <name> does not exist'] and leave the machine as it is;
    the name is looked up before any bound is read. *)
Theorem command_on_unknown_set (command : string) (m : Machine T)
    (token0 name : string)
    (Htoken0 : Lexer.tokenize command !! 0%nat = Some token0)
    (Hname : Lexer.tokenize command !! 1%nat = Some name)
    (Hset : trees m !! name = None)
    (Hkey : upper token0 ∈ ["PRINT_TREE"; "SEARCH"]
            ∨ (upper token0 ∈ ["INSERT"; "CONTAINS"]
               ∧ (4 ≤ length (Lexer.tokenize command))%nat)) :
  Parser.parse command m
  = Ok (PyStr ("Set " +:+ name +:+ " does not exist"), m).
Proof. by eapply parse_missing_set. Qed.

(** X21: a command that is too short is answered before the registry is
    looked at: a lone [CREATE], [PRINT_TREE] or [SEARCH] misses the set
    name, and an [INSERT] or [CONTAINS] with fewer than four tokens
    misses parameters, whether the set exists or not. *)
Theorem short_command_is_reported (command : string) (m : Machine T)
    (token0 : string)
    (Htoken0 : Lexer.tokenize command !! 0%nat = Some token0) :
  (upper token0 ∈ ["CREATE"; "PRINT_TREE"; "SEARCH"] →
   length (Lexer.tokenize command) = 1%nat →
   Parser.parse command m
   = Ok (PyStr ("Invalid " +:+ upper token0 +:+ " command: missing set name"), m))
  ∧ (upper token0 ∈ ["INSERT"; "CONTAINS"] →
     (length (Lexer.tokenize command) < 4)%nat →
     Parser.parse command m
     = Ok (PyStr ("Invalid " +:+ upper token0 +:+ " command: missing parameters"), m)).
Proof.
  split; intros Hkey Hlen;
    repeat (apply elem_of_cons in Hkey as [Hkey|Hkey]);
    try (by apply elem_of_nil in Hkey).
  - rewrite (parse_to_create _ _ _ Htoken0 Hkey), Hkey. unfold Parser.create.
    by rewrite decide_True by lia.
  - rewrite (parse_to_print_tree _ _ _ Htoken0 Hkey), Hkey. unfold Parser.print_tree.
    by rewrite decide_True by lia.
  - rewrite (parse_to_search _ _ _ Htoken0 Hkey), Hkey. unfold Parser.search.
    by rewrite decide_True by lia.
  - rewrite (parse_to_insert _ _ _ Htoken0 Hkey), Hkey. unfold Parser.insert.
    by rewrite decide_True by lia.
  - rewrite (parse_to_contains _ _ _ Htoken0 Hkey), Hkey. unfold Parser.contains.
    by rewrite decide_True by lia.
Qed.

Lemma token_int_cases tokens i :
  (∃ t n, tokens !! i = Some t ∧ py_int t = Ok n
          ∧ py_index tokens i ≫= py_int = Ok n)
  ∨ ((tokens !! i = None ∨ ∃ t, tokens !! i = Some t ∧ py_int t = Raise ValueError)
     ∧ ∃ e, py_index tokens i ≫= py_int = Raise e ∧ (e = ValueError ∨ e = IndexError)).
Proof.
  unfold py_index. destruct (tokens !! i) as [t|] eqn:Ht; simpl.
  - pose proof (handled_py_int t) as Hh.
    destruct (py_int t) as [n|e] eqn:Hn; simpl in *.
    + left. by exists t, n.
    + right. apply py_int_raises in Hn as Hvalue. subst e.
      split; [right; by exists t | exists ValueError; auto].
  - right. split; [by left | exists IndexError; auto].
Qed.

(** X22: an [INSERT] or [CONTAINS] on a registered set whose token 3 or
    token 5 is missing or is not an integer literal answers
    ['invalid segment format'] and leaves the machine as it is: the
    [IndexError] and the [ValueError] are both caught. *)
Theorem malformed_bounds_are_reported (command : string) (m : Machine T)
    (token0 name : string) (tree : T)
    (Htoken0 : Lexer.tokenize command !! 0%nat = Some token0)
    (Hkey : upper token0 ∈ ["INSERT"; "CONTAINS"])
    (Hlen : (4 ≤ length (Lexer.tokenize command))%nat)
    (Hname : Lexer.tokenize command !! 1%nat = Some name)
    (Hset : trees m !! name = Some tree)
    (Hbad : ∃ i, (i = 3 ∨ i = 5)%nat
              ∧ ∀ t, Lexer.tokenize command !! i = Some t → py_int t = Raise ValueError) :
  Parser.parse command m
  = Ok (PyStr ("Invalid " +:+ upper token0 +:+ " command: invalid segment format"), m).
Proof.
  destruct Hbad as (i & Hi & Hbad).
  assert (∀ k : Z → Z → Result (string * Machine T),
            try_return
              (l ← py_index (Lexer.tokenize command) 3 ≫= py_int;
               h ← py_index (Lexer.tokenize command) 5 ≫= py_int;
               k l h)
              ("Invalid " +:+ upper token0 +:+ " command: invalid segment format") m
            = Ok ("Invalid " +:+ upper token0 +:+ " command: invalid segment format", m))
    as Htry.
  { intros k.
    destruct (token_int_cases (Lexer.tokenize command) 3)
      as [(t3 & l & Ht3 & Hl & ->)|(_ & e & -> & He)].
    - destruct (token_int_cases (Lexer.tokenize command) 5)
        as [(t5 & h & Ht5 & Hh & ->)|(_ & e & -> & He)].
      + destruct Hi as [-> | ->].
        * specialize (Hbad t3 Ht3). congruence.
        * specialize (Hbad t5 Ht5). congruence.
      + simpl. by destruct He as [-> | ->].
    - simpl. by destruct He as [-> | ->]. }
  repeat (apply elem_of_cons in Hkey as [Hkey|Hkey]);
    try (by apply elem_of_nil in Hkey).
  - rewrite (parse_to_insert _ _ _ Htoken0 Hkey). unfold Parser.insert.
    rewrite decide_False by lia. rewrite (py_index_lookup _ _ _ Hname). simpl.
    rewrite Hset. rewrite Hkey in Htry |- *. by rewrite Htry.
  - rewrite (parse_to_contains _ _ _ Htoken0 Hkey). unfold Parser.contains.
    rewrite decide_False by lia. rewrite (py_index_lookup _ _ _ Hname). simpl.
    rewrite Hset. rewrite Hkey in Htry |- *. by rewrite Htry.
Qed.

End answers.

Section positions.

Context {T : Type} `{RTreeClass T}.

(** X23: [INSERT] and [CONTAINS] take the name from token 1 and the
    bounds from tokens 3 and 5 and look at nothing else: two commands
    with the same keyword that agree on these tokens get the same answer
    from the same machine, whatever stands where the brackets and the
    comma are expected and whatever follows. *)
Theorem bounds_are_read_by_position (command1 command2 : string) (m : Machine T)
    (token0 : string)
    (Htoken0 : Lexer.tokenize command1 !! 0%nat = Some token0)
    (Hkey : upper token0 ∈ ["INSERT"; "CONTAINS"])
    (Hlen : (4 ≤ length (Lexer.tokenize command1))%nat)
    (Hsame : ∀ i, i ∈ [0; 1; 3; 5]%nat →
               Lexer.tokenize command1 !! i = Lexer.tokenize command2 !! i) :
  Parser.parse command1 m = Parser.parse command2 m.
Proof.
  pose proof (Hsame 0%nat ltac:(in_list)) as H0.
  pose proof (Hsame 1%nat ltac:(in_list)) as H1.
  pose proof (Hsame 3%nat ltac:(in_list)) as H3.
  pose proof (Hsame 5%nat ltac:(in_list)) as H5.
  assert (4 ≤ length (Lexer.tokenize command2))%nat as Hlen2.
  { destruct (lookup_lt_is_Some_2 (Lexer.tokenize command1) 3 ltac:(lia)) as [t Ht].
    rewrite H3 in Ht. apply lookup_lt_Some in Ht. lia. }
  assert (Lexer.tokenize command2 !! 0%nat = Some token0) as Htoken0' by congruence.
  repeat (apply elem_of_cons in Hkey as [Hkey|Hkey]);
    try (by apply elem_of_nil in Hkey).
  - rewrite (parse_to_insert _ _ _ Htoken0 Hkey), (parse_to_insert _ _ _ Htoken0' Hkey).
    unfold Parser.insert, py_index. rewrite !decide_False by lia.
    by rewrite H1, H3, H5.
  - rewrite (parse_to_contains _ _ _ Htoken0 Hkey), (parse_to_contains _ _ _ Htoken0' Hkey).
    unfold Parser.contains, py_index. rewrite !decide_False by lia.
    by rewrite H1, H3, H5.
Qed.

(** X24: what a command can change.  No command removes a set or touches
    a set other than the one it names; only [CREATE] and [INSERT] change
    the registry; only [PRINT_TREE] prints, and printing only adds lines
    at the end. *)
Theorem command_frame (command : string) (m m' : Machine T) (v : PyVal)
    (Hparse : Parser.parse command m = Ok (v, m')) :
  (∀ name, is_Some (trees m !! name) → is_Some (trees m' !! name))
  ∧ (∀ name, Lexer.tokenize command !! 1%nat ≠ Some name →
       trees m' !! name = trees m !! name)
  ∧ (∀ token0, Lexer.tokenize command !! 0%nat = Some token0 →
       upper token0 ∉ ["CREATE"; "INSERT"] → trees m' = trees m)
  ∧ stdout m `prefix_of` stdout m'
  ∧ (∀ token0, Lexer.tokenize command !! 0%nat = Some token0 →
       upper token0 ≠ "PRINT_TREE" → stdout m' = stdout m).
Proof.
  assert (∀ P : Machine T → Prop, P m → m' = m → P m') as Hsame by (by intros P HP ->).
  assert ((m' = m
           ∧ ∀ token0, Lexer.tokenize command !! 0%nat = Some token0 → True)
          ∨ (∃ name tree, Lexer.tokenize command !! 1%nat = Some name
               ∧ m' = set_tree name tree m
               ∧ ∃ token0, Lexer.tokenize command !! 0%nat = Some token0
                   ∧ upper token0 ∈ ["CREATE"; "INSERT"])
          ∨ (∃ lines, m' = print_lines lines m
               ∧ ∃ token0, Lexer.tokenize command !! 0%nat = Some token0
                   ∧ upper token0 = "PRINT_TREE")) as Hcases.
  { revert Hparse. unfold Parser.parse.
    destruct (Lexer.tokenize command) as [|token0 rest] eqn:Htok.
    { intros [= _ <-]. by left. }
    case_decide as Hin; [|intros [= _ <-]; by left].
    case_decide as H1.
    { intros Hp. bind_inv Hp. destruct a as [s m0]. injection Hp as _ <-.
      apply create_machine in Ha as [->|(name & Hname & _ & ->)]; [by left|].
      right. left. exists name, RTree_new. split_and!; [done|done|].
      exists token0. split; [done|]. rewrite H1. in_list. }
    case_decide as H2.
    { intros Hp. bind_inv Hp. destruct a as [s m0]. injection Hp as _ <-.
      apply insert_machine in Ha as [->|(name & tree & tree' & Hname & _ & ->)];
        [by left|].
      right. left. exists name, tree'. split_and!; [done|done|].
      exists token0. split; [done|]. rewrite H2. in_list. }
    case_decide as H3.
    { intros Hp. bind_inv Hp. destruct a as [s m0]. injection Hp as _ <-.
      apply print_tree_machine in Ha as [lines ->].
      right. right. exists lines. split; [done|]. by exists token0. }
    case_decide as H4.
    { intros Hp. bind_inv Hp. destruct a as [s m0]. injection Hp as _ <-.
      apply contains_machine in Ha as ->. by left. }
    case_decide as H5; [|intros [= _ <-]; by left].
    intros Hp. bind_inv Hp. destruct a as [s m0]. injection Hp as _ <-.
    apply search_machine in Ha as ->. by left. }
  destruct Hcases as [[-> _]|[(name & tree & Hname & -> & token0 & Htok & Hkey)
                             |(lines & -> & token0 & Htok & Hkey)]].
  - split_and!; try done.
  - split_and!; simpl.
    + intros name' Hsome. destruct (decide (name = name')) as [->|Hne].
      * rewrite lookup_insert_eq. by eexists.
      * by rewrite lookup_insert_ne.
    + intros name' Hne. rewrite lookup_insert_ne; [done|congruence].
    + intros token0' Htok' Hnot. exfalso. apply Hnot. congruence.
    + done.
    + done.
  - split_and!; simpl; try done.
    + by apply prefix_app_r.
    + intros token0' Htok' Hnot. exfalso. apply Hnot. congruence.
Qed.

Lemma contains_command_result (command : string) (m : Machine T)
    (token0 name token3 token5 : string) (tree : T) (l h : Z) :
  Lexer.tokenize command !! 0%nat = Some token0 → upper token0 = "CONTAINS" →
  Lexer.tokenize command !! 1%nat = Some name → trees m !! name = Some tree →
  Lexer.tokenize command !! 3%nat = Some token3 → py_int token3 = Ok l →
  Lexer.tokenize command !! 5%nat = Some token5 → py_int token5 = Ok h →
  Parser.parse command m = Ok (PyStr (str_bool (RTree_contains (l, h) tree)), m).
Proof.
  intros Htoken0 Hkey Hname Hset Htoken3 Hl Htoken5 Hh.
  rewrite (parse_to_contains _ _ _ Htoken0 Hkey). unfold Parser.contains.
  rewrite decide_False by (apply lookup_lt_Some in Htoken5; lia).
  rewrite (py_index_lookup _ _ _ Hname). simpl. rewrite Hset.
  rewrite (py_index_lookup _ _ _ Htoken3). simpl. rewrite Hl. simpl.
  rewrite (py_index_lookup _ _ _ Htoken5). simpl. by rewrite Hh.
Qed.

(** X25: a [CONTAINS] command on a registered set whose tokens 3 and 5
    read as integers [l] and [h] answers ['True'] or ['False'] as
    [contains([l, h])] of the index says, bounds in any order, and leaves
    the machine as it is. *)
Theorem contains_command_answers (command : string) (m : Machine T)
    (token0 name token3 token5 : string) (tree : T) (l h : Z)
    (Htoken0 : Lexer.tokenize command !! 0%nat = Some token0)
    (Hkey : upper token0 = "CONTAINS")
    (Hname : Lexer.tokenize command !! 1%nat = Some name)
    (Hset : trees m !! name = Some tree)
    (Htoken3 : Lexer.tokenize command !! 3%nat = Some token3)
    (Hl : py_int token3 = Ok l)
    (Htoken5 : Lexer.tokenize command !! 5%nat = Some token5)
    (Hh : py_int token5 = Ok h) :
  Parser.parse command m = Ok (PyStr (str_bool (RTree_contains (l, h) tree)), m).
Proof. by eapply contains_command_result. Qed.

Lemma search_plain_answer command (m : Machine T) token0 name tree r :
  Lexer.tokenize command = [token0; name] → upper token0 = "SEARCH" →
  trees m !! name = Some tree →
  RTree_search None PNone tree = Ok r →
  Parser.parse command m = Ok (PyStr ("Search results: " +:+ str_segments r), m).
Proof.
  intros Htok Hkey Hset Hr.
  rewrite (parse_to_search command m token0) by (by rewrite ?Htok).
  rewrite Htok. unfold Parser.search. simpl. rewrite Hset.
  by rewrite Hr.
Qed.

Lemma search_where_pair_answer command (m : Machine T)
    token0 name token2 token3 token5 token7 tree l h r :
  Lexer.tokenize command !! 0%nat = Some token0 → upper token0 = "SEARCH" →
  Lexer.tokenize command !! 1%nat = Some name → trees m !! name = Some tree →
  Lexer.tokenize command !! 2%nat = Some token2 → upper token2 = "WHERE" →
  Lexer.tokenize command !! 3%nat = Some token3 →
  upper token3 ∈ ["CONTAINS"; "INTERSECTS"] →
  Lexer.tokenize command !! 5%nat = Some token5 → py_int token5 = Ok l →
  Lexer.tokenize command !! 7%nat = Some token7 → py_int token7 = Ok h →
  RTree_search (Some (upper token3)) (PList [l; h]) tree = Ok r →
  Parser.parse command m = Ok (PyStr ("Search results: " +:+ str_segments r), m).
Proof.
  intros Htok0 Hkey Hname Hset Htok2 Hwhere Htok3 Hq Htok5 Hl Htok7 Hh Hr.
  pose proof (lookup_lt_Some _ _ _ Htok7) as Hlen.
  rewrite (parse_to_search _ _ _ Htok0 Hkey). unfold Parser.search.
  rewrite decide_False by lia.
  rewrite (py_index_lookup _ _ _ Hname). simpl. rewrite Hset.
  rewrite decide_False by lia.
  rewrite decide_False.
  2:{ intros [?|Hw]; [lia|]. rewrite Htok2 in Hw. simpl in Hw. congruence. }
  rewrite (py_index_lookup _ _ _ Htok3). simpl.
  rewrite decide_True by done.
  rewrite (py_index_lookup _ _ _ Htok5). simpl. rewrite Hl. simpl.
  rewrite (py_index_lookup _ _ _ Htok7). simpl. rewrite Hh. simpl.
  by rewrite Hr.
Qed.

Lemma search_where_left_of_answer command (m : Machine T)
    token0 name token2 token3 token4 tree x r :
  Lexer.tokenize command !! 0%nat = Some token0 → upper token0 = "SEARCH" →
  Lexer.tokenize command !! 1%nat = Some name → trees m !! name = Some tree →
  Lexer.tokenize command !! 2%nat = Some token2 → upper token2 = "WHERE" →
  Lexer.tokenize command !! 3%nat = Some token3 → upper token3 = "LEFT_OF" →
  Lexer.tokenize command !! 4%nat = Some token4 → py_int token4 = Ok x →
  RTree_search (Some "LEFT_OF") (PInt x) tree = Ok r →
  Parser.parse command m = Ok (PyStr ("Search results: " +:+ str_segments r), m).
Proof.
  intros Htok0 Hkey Hname Hset Htok2 Hwhere Htok3 Hq Htok4 Hx Hr.
  pose proof (lookup_lt_Some _ _ _ Htok4) as Hlen.
  rewrite (parse_to_search _ _ _ Htok0 Hkey). unfold Parser.search.
  rewrite decide_False by lia.
  rewrite (py_index_lookup _ _ _ Hname). simpl. rewrite Hset.
  rewrite decide_False by lia.
  rewrite decide_False.
  2:{ intros [?|Hw]; [lia|]. rewrite Htok2 in Hw. simpl in Hw. congruence. }
  rewrite (py_index_lookup _ _ _ Htok3). simpl. rewrite Hq.
  rewrite decide_False by not_in_list. rewrite decide_True by done.
  rewrite (py_index_lookup _ _ _ Htok4). simpl. rewrite Hx. simpl.
  by rewrite Hr.
Qed.

Lemma search_where_errors command (m : Machine T) token0 name tree :
  Lexer.tokenize command !! 0%nat = Some token0 → upper token0 = "SEARCH" →
  Lexer.tokenize command !! 1%nat = Some name → trees m !! name = Some tree →
  (length (Lexer.tokenize command) = 3%nat
   ∨ ∃ token2, Lexer.tokenize command !! 2%nat = Some token2 ∧ upper token2 ≠ "WHERE") →
  Parser.parse command m
  = Ok (PyStr "Invalid SEARCH command: invalid WHERE clause", m).
Proof.
  intros Htok0 Hkey Hname Hset Hbad.
  rewrite (parse_to_search _ _ _ Htok0 Hkey). unfold Parser.search.
  rewrite decide_False by (apply lookup_lt_Some in Hname; lia).
  rewrite (py_index_lookup _ _ _ Hname). simpl. rewrite Hset.
  rewrite decide_False.
  2:{ destruct Hbad as [?|(t2 & Ht2 & _)]; [lia|]. apply lookup_lt_Some in Ht2. lia. }
  rewrite decide_True; [done|].
  destruct Hbad as [?|(t2 & Ht2 & Hne)]; [left; lia|].
  right. rewrite Ht2. simpl. congruence.
Qed.

Lemma search_where_unknown_type command (m : Machine T)
    token0 name token2 token3 tree :
  Lexer.tokenize command !! 0%nat = Some token0 → upper token0 = "SEARCH" →
  Lexer.tokenize command !! 1%nat = Some name → trees m !! name = Some tree →
  Lexer.tokenize command !! 2%nat = Some token2 → upper token2 = "WHERE" →
  Lexer.tokenize command !! 3%nat = Some token3 →
  upper token3 ∉ ["CONTAINS"; "INTERSECTS"; "LEFT_OF"] →
  Parser.parse command m
  = Ok (PyStr "Invalid SEARCH command: unknown search type", m).
Proof.
  intros Htok0 Hkey Hname Hset Htok2 Hwhere Htok3 Hq.
  pose proof (lookup_lt_Some _ _ _ Htok3) as Hlen.
  rewrite (parse_to_search _ _ _ Htok0 Hkey). unfold Parser.search.
  rewrite decide_False by lia.
  rewrite (py_index_lookup _ _ _ Hname). simpl. rewrite Hset.
  rewrite decide_False by lia.
  rewrite decide_False.
  2:{ intros [?|Hw]; [lia|]. rewrite Htok2 in Hw. simpl in Hw. congruence. }
  rewrite (py_index_lookup _ _ _ Htok3). simpl.
  rewrite decide_False by (intros Hin; apply Hq;
    apply elem_of_cons in Hin as [->|Hin]; [in_list|];
    apply list_elem_of_singleton in Hin as ->; in_list).
  rewrite decide_False by (intros Heq; apply Hq; rewrite Heq; in_list).
  done.
Qed.

(** X26: how [SEARCH] on a registered set goes wrong.  With three tokens,
    or with a third token that is not [WHERE] in any case of letters, the
    answer is ['invalid WHERE clause']; with [WHERE] and a fourth token
    that is none of the three query types, it is ['unknown search type'].
    The machine is left as it is. *)
Theorem search_clause_errors (command : string) (m : Machine T)
    (token0 name : string) (tree : T)
    (Htoken0 : Lexer.tokenize command !! 0%nat = Some token0)
    (Hkey : upper token0 = "SEARCH")
    (Hname : Lexer.tokenize command !! 1%nat = Some name)
    (Hset : trees m !! name = Some tree) :
  (length (Lexer.tokenize command) = 3%nat
   ∨ (∃ token2, Lexer.tokenize command !! 2%nat = Some token2 ∧ upper token2 ≠ "WHERE") →
   Parser.parse command m
   = Ok (PyStr "Invalid SEARCH command: invalid WHERE clause", m))
  ∧ (∀ token2 token3,
       Lexer.tokenize command !! 2%nat = Some token2 → upper token2 = "WHERE" →
       Lexer.tokenize command !! 3%nat = Some token3 →
       upper token3 ∉ ["CONTAINS"; "INTERSECTS"; "LEFT_OF"] →
       Parser.parse command m
       = Ok (PyStr "Invalid SEARCH command: unknown search type", m)).
Proof.
  split.
  - intros Hbad. by eapply search_where_errors.
  - intros token2 token3 Htok2 Hwhere Htok3 Hq. by eapply search_where_unknown_type.
Qed.

End positions.

(** ** Worked instances of the answers *)

Lemma commands_that_are_no_commands_witness :
  all_chars is_separator " - . " = true
  ∧ Parser.parse " - . " (mkMachine (T := Var2.RTree) ∅ [])
    = Ok (PyStr "Invalid command", mkMachine ∅ [])
  ∧ Lexer.tokenize "DROP seg" !! 0%nat = Some "DROP"
  ∧ (upper "DROP" ∉ COMMANDS)
  ∧ Parser.parse "DROP seg" (mkMachine (T := Var2.RTree) ∅ [])
    = Ok (PyStr "Unknown command", mkMachine ∅ []).
Proof.
  assert (upper "DROP" ∉ COMMANDS) as Hnot by (unfold COMMANDS; not_in_list).
  destruct (commands_that_are_no_commands " - . " (mkMachine (T := Var2.RTree) ∅ []))
    as [Hinvalid _].
  destruct (commands_that_are_no_commands "DROP seg" (mkMachine (T := Var2.RTree) ∅ []))
    as [_ Hunknown].
  split_and!; [reflexivity | exact (Hinvalid eq_refl) | reflexivity | exact Hnot
              | exact (Hunknown "DROP" eq_refl Hnot)].
Defined.

Lemma create_registers_a_name_once_witness :
  Lexer.tokenize "create seg" !! 0%nat = Some "create"
  ∧ upper "create" = "CREATE"
  ∧ Lexer.tokenize "create seg" !! 1%nat = Some "seg"
  ∧ trees (mkMachine (T := Lab.RTree) ∅ []) !! "seg" = None
  ∧ Parser.parse "create seg" (mkMachine (T := Lab.RTree) ∅ [])
    = Ok (PyStr "Set seg has been created",
          set_tree "seg" Lab.RTree_new (mkMachine ∅ [])).
Proof.
  destruct (create_registers_a_name_once "create seg" (mkMachine (T := Lab.RTree) ∅ [])
              "create" "seg" ltac:(reflexivity) ltac:(reflexivity) ltac:(reflexivity))
    as [Hnew _].
  split_and!; [reflexivity | reflexivity | reflexivity | reflexivity
              | exact (Hnew eq_refl)].
Defined.

Lemma command_on_unknown_set_witness :
  Lexer.tokenize "INSERT seg [1, 2]" !! 0%nat = Some "INSERT"
  ∧ Lexer.tokenize "INSERT seg [1, 2]" !! 1%nat = Some "seg"
  ∧ trees (mkMachine (T := Var2.RTree) ∅ []) !! "seg" = None
  ∧ (4 ≤ length (Lexer.tokenize "INSERT seg [1, 2]"))%nat
  ∧ Parser.parse "INSERT seg [1, 2]" (mkMachine (T := Var2.RTree) ∅ [])
    = Ok (PyStr "Set seg does not exist", mkMachine ∅ []).
Proof.
  assert (4 ≤ length (Lexer.tokenize "INSERT seg [1, 2]"))%nat as Hlen
    by (vm_compute; lia).
  split_and!; [reflexivity | reflexivity | reflexivity | exact Hlen |].
  apply (command_on_unknown_set "INSERT seg [1, 2]" (mkMachine (T := Var2.RTree) ∅ [])
           "INSERT" "seg" ltac:(reflexivity) ltac:(reflexivity) ltac:(reflexivity)).
  right. split; [in_list | exact Hlen].
Defined.

Lemma short_command_is_reported_witness :
  Lexer.tokenize "INSERT seg [" !! 0%nat = Some "INSERT"
  ∧ (length (Lexer.tokenize "INSERT seg [") < 4)%nat
  ∧ Parser.parse "INSERT seg [" (mkMachine (T := Var2.RTree) ∅ [])
    = Ok (PyStr "Invalid INSERT command: missing parameters", mkMachine ∅ []).
Proof.
  assert (length (Lexer.tokenize "INSERT seg [") < 4)%nat as Hlen
    by (vm_compute; lia).
  split_and!; [reflexivity | exact Hlen |].
  destruct (short_command_is_reported "INSERT seg [" (mkMachine (T := Var2.RTree) ∅ [])
              "INSERT" ltac:(reflexivity)) as [_ Hshort].
  apply Hshort; [in_list | exact Hlen].
Defined.

Lemma malformed_bounds_are_reported_witness :
  Lexer.tokenize "INSERT seg [1, x]" !! 0%nat = Some "INSERT"
  ∧ Lexer.tokenize "INSERT seg [1, x]" !! 1%nat = Some "seg"
  ∧ trees (mkMachine {[ "seg" := Var2.RTree_new ]} []) !! "seg" = Some Var2.RTree_new
  ∧ Lexer.tokenize "INSERT seg [1, x]" !! 5%nat = Some "x"
  ∧ py_int "x" = Raise ValueError
  ∧ Parser.parse "INSERT seg [1, x]" (mkMachine {[ "seg" := Var2.RTree_new ]} [])
    = Ok (PyStr "Invalid INSERT command: invalid segment format",
          mkMachine {[ "seg" := Var2.RTree_new ]} []).
Proof.
  split_and!; [reflexivity | reflexivity | reflexivity | reflexivity | reflexivity |].
  apply (malformed_bounds_are_reported "INSERT seg [1, x]"
           (mkMachine {[ "seg" := Var2.RTree_new ]} []) "INSERT" "seg" Var2.RTree_new
           ltac:(reflexivity) ltac:(in_list) ltac:(vm_compute; lia)
           ltac:(reflexivity) ltac:(reflexivity)).
  exists 5%nat. split; [by right|]. intros t [= <-]. reflexivity.
Defined.

Lemma bounds_are_read_by_position_witness :
  Lexer.tokenize "INSERT seg [5, 9]" !! 0%nat = Some "INSERT"
  ∧ (4 ≤ length (Lexer.tokenize "INSERT seg [5, 9]"))%nat
  ∧ Parser.parse "INSERT seg [5, 9]" (mkMachine {[ "seg" := Var2.RTree_new ]} [])
    = Parser.parse "INSERT seg ] 5 [ 9 , and so on"
        (mkMachine {[ "seg" := Var2.RTree_new ]} []).
Proof.
  assert (4 ≤ length (Lexer.tokenize "INSERT seg [5, 9]"))%nat as Hlen
    by (vm_compute; lia).
  split_and!; [reflexivity | exact Hlen |].
  apply (bounds_are_read_by_position "INSERT seg [5, 9]"
           "INSERT seg ] 5 [ 9 , and so on"
           (mkMachine {[ "seg" := Var2.RTree_new ]} []) "INSERT"
           ltac:(reflexivity) ltac:(in_list) Hlen).
  intros i Hi.
  repeat (apply elem_of_cons in Hi as [->|Hi]; [reflexivity|]).
  by apply elem_of_nil in Hi.
Defined.

Lemma command_frame_witness :
  Parser.parse "INSERT a [1, 2]"
    (mkMachine {[ "a" := Lab.RTree_new; "b" := Lab.RTree_new ]} [])
  = Ok (PyStr "Range [1, 2] has been added to a",
        set_tree "a" (Lab.mkRTree (Some (Lab.Node (1, 2) None None)) [(1, 2)])
          (mkMachine {[ "a" := Lab.RTree_new; "b" := Lab.RTree_new ]} []))
  ∧ trees (set_tree "a" (Lab.mkRTree (Some (Lab.Node (1, 2) None None)) [(1, 2)])
             (mkMachine {[ "a" := Lab.RTree_new; "b" := Lab.RTree_new ]} [])) !! "b"
    = Some Lab.RTree_new.
Proof.
  assert (Parser.parse "INSERT a [1, 2]"
            (mkMachine {[ "a" := Lab.RTree_new; "b" := Lab.RTree_new ]} [])
          = Ok (PyStr "Range [1, 2] has been added to a",
                set_tree "a" (Lab.mkRTree (Some (Lab.Node (1, 2) None None)) [(1, 2)])
                  (mkMachine {[ "a" := Lab.RTree_new; "b" := Lab.RTree_new ]} [])))
    as Hparse by (vm_compute; reflexivity).
  split; [exact Hparse|].
  destruct (command_frame _ _ _ _ Hparse) as (_ & Hother & _).
  rewrite (Hother "b"); [reflexivity|]. vm_compute. discriminate.
Defined.

Lemma contains_command_answers_witness :
  Lexer.tokenize "contains seg [4, 5]" !! 0%nat = Some "contains"
  ∧ upper "contains" = "CONTAINS"
  ∧ py_int "4" = Ok 4 ∧ py_int "5" = Ok 5
  ∧ Parser.parse "contains seg [4, 5]"
      (mkMachine {[ "seg" := Lab.mkRTree (Some (Lab.Node (2, 7) None None)) [(2, 7)] ]} [])
    = Ok (PyStr "True",
          mkMachine {[ "seg" := Lab.mkRTree (Some (Lab.Node (2, 7) None None)) [(2, 7)] ]} []).
Proof.
  split_and!; [reflexivity | reflexivity | reflexivity | reflexivity |].
  exact (contains_command_answers "contains seg [4, 5]"
           (mkMachine {[ "seg" := Lab.mkRTree (Some (Lab.Node (2, 7) None None)) [(2, 7)] ]} [])
           "contains" "seg" "4" "5"
           (Lab.mkRTree (Some (Lab.Node (2, 7) None None)) [(2, 7)]) 4 5
           ltac:(reflexivity) ltac:(reflexivity) ltac:(reflexivity) ltac:(reflexivity)
           ltac:(reflexivity) ltac:(reflexivity) ltac:(reflexivity) ltac:(reflexivity)).
Defined.

Lemma search_clause_errors_witness :
  Lexer.tokenize "SEARCH seg WHEN LEFT_OF 6" !! 2%nat = Some "WHEN"
  ∧ upper "WHEN" ≠ "WHERE"
  ∧ Parser.parse "SEARCH seg WHEN LEFT_OF 6" (mkMachine {[ "seg" := Var2.RTree_new ]} [])
    = Ok (PyStr "Invalid SEARCH command: invalid WHERE clause",
          mkMachine {[ "seg" := Var2.RTree_new ]} []).
Proof.
  assert (upper "WHEN" ≠ "WHERE") as Hne by discriminate.
  split_and!; [reflexivity | exact Hne |].
  destruct (search_clause_errors "SEARCH seg WHEN LEFT_OF 6"
              (mkMachine {[ "seg" := Var2.RTree_new ]} []) "SEARCH" "seg" Var2.RTree_new
              ltac:(reflexivity) ltac:(reflexivity) ltac:(reflexivity) ltac:(reflexivity))
    as [Hwhere _].
  apply Hwhere. right. exists "WHEN". split; [reflexivity | exact Hne].
Defined.

(** ** What [SEARCH] answers *)

Section search_answers.

Context {T : Type} `{RTreeClass T}.

Variable store : T → list Segment.

Hypothesis search_plain : ∀ tree, RTree_search None PNone tree = Ok (store tree).
Hypothesis search_contains_eq : ∀ tree params,
  RTree_search (Some "CONTAINS") params tree = search_contains (store tree) params.
Hypothesis search_intersects_eq : ∀ tree params,
  RTree_search (Some "INTERSECTS") params tree = search_intersects (store tree) params.
Hypothesis search_left_of_eq : ∀ tree params,
  RTree_search (Some "LEFT_OF") params tree = search_left_of (store tree) params.

Lemma search_commands_answer (m : Machine T) name tree l h :
  is_name name → trees m !! name = Some tree →
  within_digit_limit l → within_digit_limit h →
  Parser.parse (SEARCH_command name) m
  = Ok (PyStr ("Search results: " +:+ str_segments (store tree)), m)
  ∧ Parser.parse (SEARCH_WHERE_command name "CONTAINS" l h) m
    = Ok (PyStr ("Search results: "
                 +:+ str_segments (filter (nests_in (Z.abs l) (Z.abs h)) (store tree))), m)
  ∧ Parser.parse (SEARCH_WHERE_command name "INTERSECTS" l h) m
    = Ok (PyStr ("Search results: "
                 +:+ str_segments (filter (overlaps (Z.abs l) (Z.abs h)) (store tree))), m)
  ∧ Parser.parse (SEARCH_LEFT_OF_command name l) m
    = Ok (PyStr ("Search results: "
                 +:+ str_segments (filter (lies_left_of (Z.abs l)) (store tree))), m).
Proof.
  intros Hname Hset Hl%within_digit_limit_abs Hh%within_digit_limit_abs.
  apply py_int_str_int in Hl; [|lia]. apply py_int_str_int in Hh; [|lia].
  split_and!.
  - apply (search_plain_answer _ m "SEARCH" name tree); try done.
    unfold SEARCH_command.
    change ("SEARCH " +:+ name) with ("SEARCH" +:+ String " " name).
    by rewrite tokenize_keyword_then, tokenize_name.
  - pose proof (tokenize_SEARCH_WHERE_command name "CONTAINS" l h) as Htok.
    rewrite (tokenize_name name Hname) in Htok.
    eapply (search_where_pair_answer _ m "SEARCH" name "WHERE" "CONTAINS"
              (str_int (Z.abs l)) (str_int (Z.abs h)) tree (Z.abs l) (Z.abs h));
      rewrite ?Htok; try done; [in_list|].
    change (upper "CONTAINS") with "CONTAINS".
    by rewrite search_contains_eq, search_contains_spec.
  - pose proof (tokenize_SEARCH_WHERE_command name "INTERSECTS" l h) as Htok.
    rewrite (tokenize_name name Hname) in Htok.
    eapply (search_where_pair_answer _ m "SEARCH" name "WHERE" "INTERSECTS"
              (str_int (Z.abs l)) (str_int (Z.abs h)) tree (Z.abs l) (Z.abs h));
      rewrite ?Htok; try done; [in_list|].
    change (upper "INTERSECTS") with "INTERSECTS".
    by rewrite search_intersects_eq, search_intersects_spec.
  - pose proof (tokenize_SEARCH_LEFT_OF_command name l) as Htok.
    rewrite (tokenize_name name Hname) in Htok.
    eapply (search_where_left_of_answer _ m "SEARCH" name "WHERE" "LEFT_OF"
              (str_int (Z.abs l)) tree (Z.abs l));
      rewrite ?Htok; try done.
    by rewrite search_left_of_eq, search_left_of_spec.
Qed.

End search_answers.

(** X27: what the four forms of [SEARCH] answer on a registered set, in
    both files, for bounds within the digit limit, written and stored:
    the whole store, or
    the stored segments that nest the query, that overlap it, or that end
    at or before the bound, printed in the order of the store; a bound
    written with a sign counts with its absolute value.  The machine is
    left as it is. *)
Theorem search_commands_list_the_store (name : string) (l h : Z)
    (Hname : is_name name)
    (Hl : within_digit_limit l) (Hh : within_digit_limit h) :
  (∀ (m : Machine Var2.RTree) tree, trees m !! name = Some tree →
     Forall segment_within_limit (Var2.segments tree) →
     Parser.parse (SEARCH_command name) m
     = Ok (PyStr ("Search results: " +:+ str_segments (Var2.segments tree)), m)
     ∧ Parser.parse (SEARCH_WHERE_command name "CONTAINS" l h) m
       = Ok (PyStr ("Search results: " +:+ str_segments
               (filter (nests_in (Z.abs l) (Z.abs h)) (Var2.segments tree))), m)
     ∧ Parser.parse (SEARCH_WHERE_command name "INTERSECTS" l h) m
       = Ok (PyStr ("Search results: " +:+ str_segments
               (filter (overlaps (Z.abs l) (Z.abs h)) (Var2.segments tree))), m)
     ∧ Parser.parse (SEARCH_LEFT_OF_command name l) m
       = Ok (PyStr ("Search results: " +:+ str_segments
               (filter (lies_left_of (Z.abs l)) (Var2.segments tree))), m))
  ∧ (∀ (m : Machine Lab.RTree) tree, trees m !! name = Some tree →
     Forall segment_within_limit (Lab.segments tree) →
     Parser.parse (SEARCH_command name) m
     = Ok (PyStr ("Search results: " +:+ str_segments (Lab.segments tree)), m)
     ∧ Parser.parse (SEARCH_WHERE_command name "CONTAINS" l h) m
       = Ok (PyStr ("Search results: " +:+ str_segments
               (filter (nests_in (Z.abs l) (Z.abs h)) (Lab.segments tree))), m)
     ∧ Parser.parse (SEARCH_WHERE_command name "INTERSECTS" l h) m
       = Ok (PyStr ("Search results: " +:+ str_segments
               (filter (overlaps (Z.abs l) (Z.abs h)) (Lab.segments tree))), m)
     ∧ Parser.parse (SEARCH_LEFT_OF_command name l) m
       = Ok (PyStr ("Search results: " +:+ str_segments
               (filter (lies_left_of (Z.abs l)) (Lab.segments tree))), m)).
Proof.
  split; intros m tree Hset _.
  - by apply (search_commands_answer Var2.segments).
  - by apply (search_commands_answer Lab.segments).
Qed.

Lemma search_commands_list_the_store_witness :
  is_name "seg" ∧ within_digit_limit 6 ∧ within_digit_limit 0
  ∧ Forall segment_within_limit [(3, 4); (5, 8); (4, 6)]
  ∧ Parser.parse (SEARCH_LEFT_OF_command "seg" 6)
      (mkMachine {[ "seg" := Var2.mkRTree None [(3, 4); (5, 8); (4, 6)] ]} [])
    = Ok (PyStr "Search results: [[3, 4], [4, 6]]",
          mkMachine {[ "seg" := Var2.mkRTree None [(3, 4); (5, 8); (4, 6)] ]} []).
Proof.
  assert (is_name "seg") as Hname by (split; [discriminate | reflexivity]).
  assert (within_digit_limit 6) as H6 by (vm_compute; reflexivity).
  assert (within_digit_limit 0) as H0 by (vm_compute; reflexivity).
  assert (Forall segment_within_limit [(3, 4); (5, 8); (4, 6)]) as Hstore.
  { repeat constructor; vm_compute; reflexivity. }
  split_and!; [exact Hname | exact H6 | exact H0 | exact Hstore |].
  assert (trees (mkMachine {[ "seg" := Var2.mkRTree None [(3, 4); (5, 8); (4, 6)] ]} [])
            !! "seg" = Some (Var2.mkRTree None [(3, 4); (5, 8); (4, 6)])) as Hset
    by reflexivity.
  destruct (search_commands_list_the_store "seg" 6 0 Hname H6 H0) as [Hvar2 _].
  destruct (Hvar2 _ _ Hset Hstore) as (_ & _ & _ & Hleft).
  exact Hleft.
Defined.

(** ** [contains], [search] and [insert] together *)

(** X28: in both files [contains([L, H])] is [True] exactly when the
    search for [CONTAINS] with the same bounds finds something. *)
Theorem contains_iff_search_finds (L H : Z) :
  (∀ self : Var2.RTree,
     Var2.contains (L, H) self = true
     ↔ ∃ results, Var2.search (Some "CONTAINS") (PList [L; H]) self = Ok results
                  ∧ results ≠ [])
  ∧ (∀ self : Lab.RTree,
     Lab.contains (L, H) self = true
     ↔ ∃ results, Lab.search (Some "CONTAINS") (PList [L; H]) self = Ok results
                  ∧ results ≠ []).
Proof.
  assert (∀ segs, (∃ stored, stored ∈ segs ∧ nests_in L H stored)
                  ↔ ∃ results, search_contains segs (PList [L; H]) = Ok results
                               ∧ results ≠ []) as Hkey.
  { intros segs. rewrite search_contains_spec. split.
    - intros (stored & Hin & Hnest). eexists. split; [done|].
      intros Hnil. assert (stored ∈ filter (nests_in L H) segs) as Hf
        by (by apply list_elem_of_filter).
      rewrite Hnil in Hf. by apply elem_of_nil in Hf.
    - intros (results & [= <-] & Hne).
      destruct (filter (nests_in L H) segs) as [|stored rest] eqn:Hf; [done|].
      assert (stored ∈ filter (nests_in L H) segs) as Hin by (rewrite Hf; by left).
      apply list_elem_of_filter in Hin as [Hnest Hin]. by exists stored. }
  split; intros self.
  - unfold Var2.contains. rewrite Var2_contains_scan_true. apply Hkey.
  - unfold Lab.contains. rewrite Lab_contains_scan_true. apply Hkey.
Qed.

(** X29: nothing is ever removed from a store, so in both files a query
    that [contains] answers with [True] is answered with [True] after
    any further insertion that returns.  In [aaf-lab-var2.py] every
    insertion returns; in [aaf-lab.py] it does when the tree is no deeper
    than the stack has room for calls of [_insert_node], and then a
    segment with [l <= h] that it has put in is in the store and
    [contains] of it is [True]. *)
Theorem contains_survives_insert `{Stack} (query s : Segment) :
  (∀ self : Var2.RTree, Var2.contains query self = true →
     ∃ self', Var2.insert s self = Ok self' ∧ Var2.contains query self' = true)
  ∧ (∀ self self' : Lab.RTree, Lab.contains query self = true →
     Lab.insert s self = Ok self' → Lab.contains query self' = true)
  ∧ (∀ self : Lab.RTree, (Lab_root_depth self ≤ insert_frames)%nat →
     ∃ self', Lab.insert s self = Ok self')
  ∧ (∀ self self' : Lab.RTree, valid_segment s →
     Lab.insert s self = Ok self' →
     Lab.contains s self' = true
     ∧ Lab.search None PNone self' = Ok (Lab.segments self ++ [s])).
Proof.
  destruct query as [L H']. split_and!; cycle 3.
  { intros self self' Hs Hins. apply Lab_insert_inv in Hins as ->.
    split; [|done]. destruct s as [l h]. unfold Lab.contains. simpl.
    apply Lab_contains_scan_true. exists (l, h). split.
    - apply elem_of_app. right. by left.
    - unfold nests_in, valid_segment in *. simpl in *. lia. }
  - intros self Hc. destruct (Var2_insert_Ok s self) as (node & Hins & _).
    eexists. split; [exact Hins|].
    unfold Var2.contains in *. simpl.
    apply Var2_contains_scan_true in Hc as (stored & Hin & Hnest).
    apply Var2_contains_scan_true. exists stored. split; [|done].
    rewrite sort_by_lower_Permutation. apply elem_of_app. by left.
  - intros self self' Hc Hins. apply Lab_insert_inv in Hins as ->.
    unfold Lab.contains in *. simpl.
    apply Lab_contains_scan_true in Hc as (stored & Hin & Hnest).
    apply Lab_contains_scan_true. exists stored. split; [|done].
    apply elem_of_app. by left.
  - intros self. apply Lab_insert_enough.
Qed.

Lemma contains_survives_insert_witness :
  Lab.contains (3, 4) (Lab.mkRTree (Some (Lab.Node (2, 7) None None)) [(2, 7)]) = true
  ∧ ∃ self',
      Lab.insert (1, 1) (Lab.mkRTree (Some (Lab.Node (2, 7) None None)) [(2, 7)])
      = Ok self'
      ∧ Lab.contains (3, 4) self' = true.
Proof.
  assert (Lab.contains (3, 4)
            (Lab.mkRTree (Some (Lab.Node (2, 7) None None)) [(2, 7)]) = true)
    as Hc by reflexivity.
  split; [exact Hc|].
  destruct (contains_survives_insert (3, 4) (1, 1)) as (_ & Hlab & Hroom & _).
  destruct (Hroom (Lab.mkRTree (Some (Lab.Node (2, 7) None None)) [(2, 7)]))
    as [self' Hins]; [vm_compute; lia|].
  exists self'. split; [exact Hins|].
  exact (Hlab _ self' Hc Hins).
Defined.

(** X30: in both files the search for [INTERSECTS] with the bounds
    [L, H] is the search for [CONTAINS] with the bounds the other way
    round, [H, L]; and when [L <= H] everything the search for
    [CONTAINS] finds, the search for [INTERSECTS] finds too. *)
Theorem intersects_is_contains_swapped (L H : Z) :
  (∀ self : Var2.RTree,
     Var2.search (Some "INTERSECTS") (PList [L; H]) self
     = Var2.search (Some "CONTAINS") (PList [H; L]) self)
  ∧ (∀ self : Lab.RTree,
     Lab.search (Some "INTERSECTS") (PList [L; H]) self
     = Lab.search (Some "CONTAINS") (PList [H; L]) self)
  ∧ (L ≤ H → ∀ segs found hit,
       search_contains segs (PList [L; H]) = Ok found →
       search_intersects segs (PList [L; H]) = Ok hit →
       found ⊆ hit).
Proof.
  assert (∀ segs, search_intersects segs (PList [L; H])
                  = search_contains segs (PList [H; L])) as Hswap.
  { intros segs. rewrite search_intersects_spec, search_contains_spec. f_equal.
    apply list_filter_iff. intros s. unfold overlaps, nests_in. lia. }
  split_and!; [intros self; apply Hswap | intros self; apply Hswap |].
  intros HLH segs found hit. rewrite search_contains_spec, search_intersects_spec.
  intros [= <-] [= <-] s [Hnest Hin]%list_elem_of_filter.
  apply list_elem_of_filter. split; [|done].
  unfold overlaps, nests_in in *. lia.
Qed.

Lemma intersects_is_contains_swapped_witness :
  3 ≤ 4
  ∧ Var2.search (Some "INTERSECTS") (PList [3; 4]) (Var2.mkRTree None [(2, 7); (4, 9)])
    = Var2.search (Some "CONTAINS") (PList [4; 3]) (Var2.mkRTree None [(2, 7); (4, 9)])
  ∧ [(2, 7)] ⊆ [(2, 7); (4, 9)].
Proof.
  split; [lia|].
  destruct (intersects_is_contains_swapped 3 4) as (Hvar2 & _ & Hsub).
  split; [exact (Hvar2 (Var2.mkRTree None [(2, 7); (4, 9)]))|].
  exact (Hsub ltac:(lia) [(2, 7); (4, 9)] [(2, 7)] [(2, 7); (4, 9)] eq_refl eq_refl).
Defined.

(** ** A segment put in by command is found by command *)

Section insert_then_contains.

Context {T : Type} `{RTreeClass T}.

Lemma insert_command_then_contains_command (m : Machine T) name tree tree' l h :
  is_name name → trees m !! name = Some tree → 0 ≤ l → l ≤ h →
  within_digit_limit h →
  RTree_insert (l, h) tree = Ok tree' → RTree_contains (l, h) tree' = true →
  Parser.parse (INSERT_command name l h) m
  = Ok (PyStr ("Range [" +:+ str_int l +:+ ", " +:+ str_int h
               +:+ "] has been added to " +:+ name), set_tree name tree' m)
  ∧ Parser.parse (CONTAINS_command name l h) (set_tree name tree' m)
    = Ok (PyStr "True", set_tree name tree' m).
Proof.
  intros Hname Hset Hl Hlh Hh Hins Hc.
  assert (within_digit_limit l) as Hl' by (unfold within_digit_limit in *; lia).
  pose proof (py_int_str_int l Hl Hl') as Hint_l.
  pose proof (py_int_str_int h ltac:(lia) Hh) as Hint_h.
  split.
  - pose proof (tokenize_INSERT_command name l h) as Htok.
    rewrite (tokenize_name name Hname) in Htok.
    rewrite !Z.abs_eq in Htok by lia.
    eapply (insert_command_accepted _ m "INSERT" name (str_int l) (str_int h) tree tree');
      rewrite ?Htok; done.
  - pose proof (tokenize_CONTAINS_command name l h) as Htok.
    rewrite (tokenize_name name Hname) in Htok.
    rewrite !Z.abs_eq in Htok by lia.
    rewrite (contains_command_result _ (set_tree name tree' m) "CONTAINS" name
               (str_int l) (str_int h) tree' l h);
      rewrite ?Htok; try done.
    + by rewrite Hc.
    + simpl. by rewrite lookup_insert_eq.
Qed.

End insert_then_contains.

(** X4: an [INSERT] command with bounds [0 <= l <= h] within the digit
    limit on a registered set is accepted, and the [CONTAINS] command with
    the same name and bounds that follows it answers ['True']: in
    [aaf-lab-var2.py] always, in [aaf-lab.py] when the tree of the set is
    no deeper than the stack has room for calls of [_insert_node]. *)
Theorem inserted_by_command_is_contained `{Stack} (name : string) (l h : Z)
    (Hname : is_name name) (Hl : 0 ≤ l) (Hlh : l ≤ h)
    (Hh : within_digit_limit h) :
  (∀ (m : Machine Var2.RTree) tree, trees m !! name = Some tree →
     ∃ m',
       Parser.parse (INSERT_command name l h) m
       = Ok (PyStr ("Range [" +:+ str_int l +:+ ", " +:+ str_int h
                    +:+ "] has been added to " +:+ name), m')
       ∧ Parser.parse (CONTAINS_command name l h) m' = Ok (PyStr "True", m'))
  ∧ (∀ (m : Machine Lab.RTree) tree, trees m !! name = Some tree →
     (Lab_root_depth tree ≤ insert_frames)%nat →
     ∃ m',
       Parser.parse (INSERT_command name l h) m
       = Ok (PyStr ("Range [" +:+ str_int l +:+ ", " +:+ str_int h
                    +:+ "] has been added to " +:+ name), m')
       ∧ Parser.parse (CONTAINS_command name l h) m' = Ok (PyStr "True", m')).
Proof.
  split.
  - intros m tree Hset.
    destruct (Var2_insert_Ok (l, h) tree) as (node & Hins & _).
    eexists.
    apply (insert_command_then_contains_command (T := Var2.RTree)) with (tree := tree);
      try done.
    unfold RTree_contains. simpl.
    apply Var2_contains_scan_true. exists (l, h). split.
    + rewrite sort_by_lower_Permutation. apply elem_of_app. right. by left.
    + unfold nests_in. simpl. lia.
  - intros m tree Hset Hroom.
    destruct (Lab_insert_enough (l, h) tree Hroom) as [tree' Hins].
    exists (set_tree name tree' m).
    apply (insert_command_then_contains_command (T := Lab.RTree)) with (tree := tree);
      try done.
    apply Lab_insert_inv in Hins as ->.
    unfold RTree_contains. simpl.
    apply Lab_contains_scan_true. exists (l, h). split.
    + apply elem_of_app. right. by left.
    + unfold nests_in. simpl. lia.
Qed.

Lemma inserted_by_command_is_contained_witness :
  is_name "seg" ∧ 0 ≤ 3 ∧ 3 ≤ 4 ∧ within_digit_limit 4
  ∧ ∃ m',
      Parser.parse (INSERT_command "seg" 3 4) (mkMachine {[ "seg" := Lab.RTree_new ]} [])
      = Ok (PyStr "Range [3, 4] has been added to seg", m')
      ∧ Parser.parse (CONTAINS_command "seg" 3 4) m' = Ok (PyStr "True", m').
Proof.
  assert (is_name "seg") as Hname by (split; [discriminate | reflexivity]).
  assert (within_digit_limit 4) as Hh by (vm_compute; reflexivity).
  assert (trees (mkMachine {[ "seg" := Lab.RTree_new ]} []) !! "seg" = Some Lab.RTree_new)
    as Hset by reflexivity.
  split_and!; [exact Hname | lia | lia | exact Hh |].
  destruct (inserted_by_command_is_contained "seg" 3 4 Hname ltac:(lia) ltac:(lia) Hh)
    as [_ Hlab].
  apply (Hlab _ _ Hset). vm_compute. lia.
Defined.
